(** * Compile-time connected-subgraph counter

    A shallow embedding of [main.cpp] (with the scanner of
    [text_parsing.h] and the identifiers of [numeric_id.h]) and the
    verification of its scanner, its arena-backed graph and its
    component counter.

    The C++ program is evaluated entirely in constant expressions.  A
    thrown exception ([std::out_of_range] from [std::array::at],
    [std::bad_optional_access] from [std::optional::value]) and undefined
    behaviour (signed overflow, a store past the end of an array) all
    abort that evaluation; the embedding records them as failures. *)

From Stdlib Require Import ZArith Ascii Lia Relations.
From stdpp Require Import list strings.

Open Scope Z_scope.

(* ================================================================= *)
(** ** Outcomes of a constant evaluation *)

Inductive failure : Set :=
| out_of_range          (* std::array::at with an index past the end *)
| bad_optional_access   (* std::optional::value on an empty optional *)
| undefined_behaviour   (* signed overflow, store past the end of an array *)
| out_of_fuel.          (* the loop or recursion did not finish in the steps allotted *)

Inductive outcome (A : Type) : Type :=
| Ok (a : A)
| Fail (e : failure).

Arguments Ok {A} a.
Arguments Fail {A} e.

Definition bind {A B : Type} (m : outcome A) (k : A -> outcome B) : outcome B :=
  match m with
  | Ok a => k a
  | Fail e => Fail e
  end.

Notation "'let*' x ':=' m 'in' k" := (bind m (fun x => k))
  (at level 10, x name, m at level 100, k at level 200).

(* ================================================================= *)
(** ** Machine integers *)

(** [size_t] is a 64-bit unsigned integer: arithmetic wraps. *)
Definition size_t_modulus : Z := 2 ^ 64.
Definition wrap (z : Z) : Z := z mod size_t_modulus.

Definition size_add (a b : Z) : Z := wrap (a + b).
Definition size_sub (a b : Z) : Z := wrap (a - b).
Definition size_mul (a b : Z) : Z := wrap (a * b).

(** [int] is a 32-bit signed integer: incrementing [INT_MAX] is undefined. *)
Definition INT_MAX : Z := 2 ^ 31 - 1.

Definition int_incr (i : Z) : outcome Z :=
  if i <? INT_MAX then Ok (i + 1) else Fail undefined_behaviour.

(** [std::array<T, n>]: a list of length [n]; [at] is bounds-checked. *)
Definition array_at {A : Type} (a : list A) (i : Z) : outcome A :=
  match a !! Z.to_nat i with
  | Some x => Ok x
  | None => Fail out_of_range
  end.

(* ================================================================= *)
(** ** text_parsing.h *)

Definition string_view : Type := list ascii.

(** The lambda [(c == ' ' || c == '\n')]. *)
Definition is_whitespace (c : ascii) : bool :=
  (Ascii.eqb c " " || Ascii.eqb c "010")%char.

Fixpoint read_generic_index (func : ascii -> bool) (text : string_view) : nat :=
  match text with
  | [] => 0%nat
  | c :: rest => if func c then S (read_generic_index func rest) else 0%nat
  end.

(** [read_generic(text, func)]: the token and the new value of [text]. *)
Definition read_generic (func : ascii -> bool) (text : string_view)
  : string_view * string_view :=
  let index := read_generic_index func text in
  (take index text, drop index text).

Definition read_non_whitespace (input : string_view) : string_view * string_view :=
  read_generic (fun c => negb (is_whitespace c)) input.

Definition read_whitespace (input : string_view) : string_view * string_view :=
  read_generic (fun c => is_whitespace c) input.

Section Scanner.

(** Whether plain [char] is signed is implementation-defined. *)
Variable plain_char_signed : bool.

(** The value of a [char] once promoted to [int]. *)
Definition char_value (c : ascii) : Z :=
  let n := Z.of_N (N_of_ascii c) in
  if (128 <=? n) && plain_char_signed then n - 256 else n.

(** [rval = rval * 10 + c - '0'] on [size_t]. *)
Definition view_to_int_step (rval : Z) (c : ascii) : Z :=
  size_sub (size_add (size_mul rval 10) (wrap (char_value c))) 48.

Definition view_to_int (input : string_view) : Z :=
  fold_left view_to_int_step input 0.

(** [read_int(input)]: the integer and the new value of [input]. *)
Definition read_int (input : string_view) : Z * string_view :=
  let '(token, input1) := read_non_whitespace input in
  let '(_, input2) := read_whitespace input1 in
  (view_to_int token, input2).

(** [read_int_v] takes its view by value: the caller's view is unchanged. *)
Definition read_int_v (input : string_view) : Z :=
  let '(token, input1) := read_non_whitespace input in
  let '(_, _) := read_whitespace input1 in
  view_to_int token.

End Scanner.

Fixpoint count_words_loop (input : string_view) (currently_in_a_word : bool)
    (word_count : Z) : outcome Z :=
  match input with
  | [] => Ok word_count
  | c :: rest =>
      let c_is_whitespace := is_whitespace c in
      let* word_count' :=
        (if negb c_is_whitespace && negb currently_in_a_word
         then int_incr word_count else Ok word_count) in
      count_words_loop rest (negb c_is_whitespace) word_count'
  end.

Definition count_words (input : string_view) : outcome Z :=
  count_words_loop input false 0.

(* ================================================================= *)
(** ** numeric_id.h *)

Inductive node_id_tag_t : Set := .
Inductive edge_id_tag_t : Set := .

(** [numeric_id_t<tag>] wraps a [std::optional<size_t>]; the tag only
    keeps node and edge identifiers apart. *)
Record numeric_id_t (tag : Set) : Set := numeric_id { id : option Z }.
Arguments numeric_id {tag} id.
Arguments id {tag} n.

Definition has_value {tag : Set} (n : numeric_id_t tag) : bool :=
  match id n with Some _ => true | None => false end.

Definition value {tag : Set} (n : numeric_id_t tag) : outcome Z :=
  match id n with
  | Some v => Ok v
  | None => Fail bad_optional_access
  end.

Definition node_id_t : Set := numeric_id_t node_id_tag_t.
Definition edge_id_t : Set := numeric_id_t edge_id_tag_t.
Definition optional_edge_id_t : Set := option edge_id_t.

Definition node_id (v : Z) : node_id_t := numeric_id (Some v).
Definition edge_id (v : Z) : edge_id_t := numeric_id (Some v).

(* ================================================================= *)
(** ** Edges, the edge arena and nodes *)

Record edge_t : Set := edge
  { get_dst_node : node_id_t;
    get_next_edge : optional_edge_id_t }.

(** [edge_t()] *)
Definition edge_default : edge_t := edge (numeric_id None) None.

Record edge_storage_t : Set := edge_storage
  { edge_memory : list edge_t;
    next_available : Z }.

(** [alloc_edge]: the counter is advanced before the bounds-checked store,
    so the state left behind by a throwing call has the advanced counter. *)
Definition alloc_edge (pool : edge_storage_t) (node : node_id_t)
    (next : optional_edge_id_t) : edge_storage_t * outcome edge_id_t :=
  let candidate := next_available pool in
  let pool1 := edge_storage (edge_memory pool) (size_add (next_available pool) 1) in
  match array_at (edge_memory pool1) candidate with
  | Fail e => (pool1, Fail e)
  | Ok _ =>
      (edge_storage (<[Z.to_nat candidate := edge node next]> (edge_memory pool1))
                    (next_available pool1),
       Ok (edge_id candidate))
  end.

Definition get_edge (pool : edge_storage_t) (index : edge_id_t) : outcome edge_t :=
  let* i := value index in
  array_at (edge_memory pool) i.

Record node_t : Set := node
  { get_id : node_id_t;
    get_edge_begin : optional_edge_id_t }.

(** [node_t()] and [node_t(node_id_arg)] *)
Definition node_default : node_t := node (numeric_id None) None.
Definition node_of (node_id_arg : Z) : node_t := node (node_id node_id_arg) None.

Definition set_edge_begin (n : node_t) (edge_begin_id_arg : optional_edge_id_t) : node_t :=
  node (get_id n) edge_begin_id_arg.

(* ================================================================= *)
(** ** graph_raw *)

Record graph_raw : Set := graph
  { used_nodes : Z;
    nodes : list node_t;
    edges : edge_storage_t }.

Definition get_num_nodes (g : graph_raw) : Z := used_nodes g.

(** [add_edge]: the graph after the call, and whether the call threw. *)
Definition add_edge (g : graph_raw) (src_node dst_node : node_id_t)
  : graph_raw * outcome unit :=
  match value src_node with
  | Fail e => (g, Fail e)
  | Ok src =>
      match array_at (nodes g) src with
      | Fail e => (g, Fail e)
      | Ok n =>
          let old_first_edge := get_edge_begin n in
          let '(pool, r) := alloc_edge (edges g) dst_node old_first_edge in
          match r with
          | Fail e => (graph (used_nodes g) (nodes g) pool, Fail e)
          | Ok new_edge_idx =>
              (graph (used_nodes g)
                     (<[Z.to_nat src := set_edge_begin n (Some new_edge_idx)]> (nodes g))
                     pool,
               Ok tt)
          end
      end
  end.

(** A throwing call on a local graph unwinds it: only completed calls
    hand a graph on. *)
Definition completed (r : graph_raw * outcome unit) : outcome graph_raw :=
  match snd r with
  | Ok _ => Ok (fst r)
  | Fail e => Fail e
  end.

Definition first_edge (g : graph_raw) (node_idx : node_id_t) : outcome optional_edge_id_t :=
  let* i := value node_idx in
  let* n := array_at (nodes g) i in
  Ok (get_edge_begin n).

Definition next_edge (g : graph_raw) (edge_idx : edge_id_t) : outcome optional_edge_id_t :=
  let* e := get_edge (edges g) edge_idx in
  Ok (get_next_edge e).

Definition dst_node (g : graph_raw) (edge_idx : edge_id_t) : outcome node_id_t :=
  let* e := get_edge (edges g) edge_idx in
  Ok (get_dst_node e).

(** The labels of [count_connected]: the [visited] array, and a ghost
    history of the stores made into it (no counterpart in the C++ state,
    never read by the code; it records which nodes were claimed, in order). *)
Record marking : Set := mk_marking
  { visited : list Z;
    claimed : list Z }.

(** [visited.at( node_idx.value() ) = color] *)
Definition mark_store (m : marking) (node_idx : node_id_t) (color : Z) : outcome marking :=
  let* i := value node_idx in
  let* _ := array_at (visited m) i in
  Ok (mk_marking (<[Z.to_nat i := color]> (visited m)) (claimed m ++ [i])).

Section GraphT.

(** [using graph_t = graph_raw< max_graph_nodes, max_graph_edges >] *)
Variables max_graph_nodes max_graph_edges : Z.

(** The constructor's range-for over [begin() .. begin() + used_nodes]:
    [idx] is both the [int] counter and the position of the iterator. *)
Fixpoint graph_raw_init (remaining : nat) (idx : Z) (ns : list node_t)
  : outcome (list node_t) :=
  match remaining with
  | O => Ok ns
  | S remaining' =>
      if Z.of_nat (length ns) <=? idx then Fail undefined_behaviour
      else
        let ns' := <[Z.to_nat idx := node_of idx]> ns in
        let* idx' := int_incr idx in
        graph_raw_init remaining' idx' ns'
  end.

(** [graph_raw( size_t used_nodes_arg )] *)
Definition graph_raw_new (used_nodes_arg : Z) : outcome graph_raw :=
  let* ns := graph_raw_init (Z.to_nat used_nodes_arg) 0
               (replicate (Z.to_nat max_graph_nodes) node_default) in
  Ok (graph used_nodes_arg ns
        (edge_storage (replicate (Z.to_nat max_graph_edges) edge_default) 0)).

Section ReadGraph.

Variable plain_char_signed : bool.

(** [while( text.size() > 0 )]: every round consumes at least one
    character, so [fuel] rounds suffice for a text of [fuel] characters. *)
Fixpoint read_graph_loop (fuel : nat) (text : string_view) (g : graph_raw)
  : outcome graph_raw :=
  match text with
  | [] => Ok g
  | _ :: _ =>
      match fuel with
      | O => Fail out_of_fuel
      | S fuel' =>
          let '(src_node, text1) := read_int plain_char_signed text in
          let '(dst_node, text2) := read_int plain_char_signed text1 in
          let* g' := completed (add_edge g (node_id src_node) (node_id dst_node)) in
          read_graph_loop fuel' text2 g'
      end
  end.

Definition read_graph (text : string_view) : outcome graph_raw :=
  let '(num_nodes, text1) := read_int plain_char_signed text in
  let* g := graph_raw_new num_nodes in
  read_graph_loop (length text1) text1 g.

End ReadGraph.

(** The inner loop of [double_up_edges], over one adjacency list.  A walk
    that follows more links than the arena has records has met a record
    twice and never ends: [walk] starts above the arena's size. *)
Fixpoint double_up_node (walk : nat) (g : graph_raw) (node_idx : node_id_t)
    (edge_idx : optional_edge_id_t) (new_graph : graph_raw) : outcome graph_raw :=
  match edge_idx with
  | None => Ok new_graph
  | Some e =>
      match walk with
      | O => Fail out_of_fuel
      | S walk' =>
          let* dst := dst_node g e in
          let* new_graph1 := completed (add_edge new_graph node_idx dst) in
          let* new_graph2 := completed (add_edge new_graph1 dst node_idx) in
          let* next := next_edge g e in
          double_up_node walk' g node_idx next new_graph2
      end
  end.

(** The outer loop [for( size_t i = 0; i < orig_nodes; ++i )]. *)
Fixpoint double_up_nodes (remaining : nat) (i : Z) (g new_graph : graph_raw)
  : outcome graph_raw :=
  match remaining with
  | O => Ok new_graph
  | S remaining' =>
      let node_idx := node_id i in
      let* first := first_edge g node_idx in
      let* new_graph' :=
        double_up_node (S (length (edge_memory (edges g)))) g node_idx first new_graph in
      double_up_nodes remaining' (size_add i 1) g new_graph'
  end.

Definition double_up_edges (g : graph_raw) : outcome graph_raw :=
  let orig_nodes := get_num_nodes g in
  let* new_graph := graph_raw_new orig_nodes in
  double_up_nodes (Z.to_nat orig_nodes) 0 g new_graph.

(** The loop of [mark_connected] over one adjacency list; [recurse] is
    the recursive call. *)
Fixpoint mark_connected_edges (recurse : node_id_t -> marking -> outcome marking)
    (walk : nat) (g : graph_raw) (edge_idx : optional_edge_id_t) (m : marking)
  : outcome marking :=
  match edge_idx with
  | None => Ok m
  | Some e =>
      match walk with
      | O => Fail out_of_fuel
      | S walk' =>
          let* dst := dst_node g e in
          let* d := value dst in
          let* v := array_at (visited m) d in
          let* m' := (if v =? -1 then recurse dst m else Ok m) in
          let* next := next_edge g e in
          mark_connected_edges recurse walk' g next m'
      end
  end.

(** [mark_connected]; [depth] bounds the depth of the recursion. *)
Fixpoint mark_connected (depth : nat) (g : graph_raw) (node_idx : node_id_t)
    (m : marking) (color : Z) : outcome marking :=
  match depth with
  | O => Fail out_of_fuel
  | S depth' =>
      let* m1 := mark_store m node_idx color in
      let* first := first_edge g node_idx in
      mark_connected_edges (fun dst m' => mark_connected depth' g dst m' color)
        (S (length (edge_memory (edges g)))) g first m1
  end.

(** The scan of [count_connected] over the nodes.  Every nested call of
    [mark_connected] claims a node that was unvisited, so the recursion
    is never deeper than the array is long. *)
Fixpoint count_connected_loop (remaining : nat) (i : Z) (g : graph_raw)
    (m : marking) (color : Z) : outcome (Z * marking) :=
  match remaining with
  | O => Ok (color, m)
  | S remaining' =>
      let node_idx := node_id i in
      let* iv := value node_idx in
      let* v := array_at (visited m) iv in
      if v =? -1 then
        let* m' := mark_connected (S (length (visited m))) g node_idx m color in
        let* color' := int_incr color in
        count_connected_loop remaining' (size_add i 1) g m' color'
      else
        count_connected_loop remaining' (size_add i 1) g m color
  end.

Definition visited_init : list Z :=
  (fun _ => -1) <$> replicate (Z.to_nat max_graph_nodes) 0.

Definition count_connected_run (g : graph_raw) : outcome (Z * marking) :=
  count_connected_loop (Z.to_nat (get_num_nodes g)) 0 g (mk_marking visited_init []) 0.

Definition count_connected (g : graph_raw) : outcome Z :=
  let* r := count_connected_run g in
  Ok (fst r).

End GraphT.

(** The namespace-scope constants of [main.cpp], for the text [input] that
    [graph.h] supplies.  The two [static_assert]s of [main.cpp] pin the
    shipped text (10000 nodes, 12 subgraphs); [input] is left free here. *)
Definition max_graph_nodes (plain_char_signed : bool) (input : string_view) : Z :=
  read_int_v plain_char_signed input.

Definition max_graph_edges (input : string_view) : outcome Z :=
  count_words input.

Definition connected_subgraphs (plain_char_signed : bool) (input : string_view)
  : outcome Z :=
  let max_nodes := max_graph_nodes plain_char_signed input in
  let* max_edges := max_graph_edges input in
  let* g := read_graph max_nodes max_edges plain_char_signed input in
  let* bidir_graph := double_up_edges max_nodes max_edges g in
  count_connected max_nodes bidir_graph.

(** A string literal as a view. *)
Definition text (s : string) : string_view := String.list_ascii_of_string s.


(* ================================================================= *)
(** ** The input format *)

Definition code (c : ascii) : Z := Z.of_N (N_of_ascii c).

Definition is_digit (c : ascii) : bool := (48 <=? code c) && (code c <=? 57).

(** The number a digit string denotes. *)
Definition decimal (token : string_view) : Z :=
  fold_left (fun v c => v * 10 + (code c - 48)) token 0.

(** [token] is a non-empty digit string denoting [v], and [v] fits [size_t]. *)
Definition number (token : string_view) (v : Z) : Prop :=
  token <> [] /\ Forall (fun c => is_digit c = true) token /\
  decimal token = v /\ v < size_t_modulus.

Definition blank (ws : string_view) : Prop :=
  Forall (fun c => is_whitespace c = true) ws.

(** The text after the node count: pairs of numbers, each number preceded
    by at least one space or newline, then optional trailing blanks. *)
Inductive edge_text : string_view -> list (Z * Z) -> Prop :=
| edge_text_end ws :
    blank ws -> edge_text ws []
| edge_text_pair input ws1 ts ws2 td rest s d ps :
    input = ws1 ++ ts ++ ws2 ++ td ++ rest ->
    ws1 <> [] -> blank ws1 -> number ts s ->
    ws2 <> [] -> blank ws2 -> number td d ->
    edge_text rest ps ->
    edge_text input ((s, d) :: ps).

(** [input] describes the graph with [N] nodes and the directed edges [ps],
    in input order. *)
Definition graph_text (input : string_view) (N : Z) (ps : list (Z * Z)) : Prop :=
  exists tn rest, input = tn ++ rest /\ number tn N /\ edge_text rest ps.

Definition endpoints_below (N : Z) (ps : list (Z * Z)) : Prop :=
  Forall (fun p => (0 <= p.1 < N) /\ (0 <= p.2 < N)) ps.

(** Well-formed input: both the node count and the word count are counted
    in an [int] by the program, so they have to fit one. *)
Definition well_formed (input : string_view) (N : Z) (ps : list (Z * Z)) : Prop :=
  graph_text input N ps /\ endpoints_below N ps /\
  N <= INT_MAX /\ 2 * Z.of_nat (length ps) + 1 <= INT_MAX.

Definition swap_pair (p : Z * Z) : Z * Z := (p.2, p.1).

(* ================================================================= *)
(** ** Connected components of the undirected closure *)

Definition edge_rel (ps : list (Z * Z)) (x y : Z) : Prop := (x, y) ∈ ps.

(** Connected in the undirected closure: joined by a chain of edges taken
    in either direction. *)
Definition connected (ps : list (Z * Z)) : Z -> Z -> Prop :=
  clos_refl_sym_trans Z (edge_rel ps).

(** [k] is the number of connected components of the graph on the nodes
    [0 .. N-1]: there is a system of [k] representatives, one per component. *)
Definition component_count (N : Z) (ps : list (Z * Z)) (k : Z) : Prop :=
  exists reps : list Z,
    NoDup reps /\ Z.of_nat (length reps) = k /\
    (forall r, r ∈ reps -> 0 <= r < N) /\
    (forall x, 0 <= x < N -> exists r, r ∈ reps /\ connected ps x r) /\
    (forall r r', r ∈ reps -> r' ∈ reps -> connected ps r r' -> r = r').

(* ================================================================= *)
(** ** The scanner, in the specification's words *)

(** [value = value*10 + digit] over the characters of a token, on
    unbounded integers; the digit of [c] is [c - '0']. *)
Definition accumulate (plain_char_signed : bool) (token : string_view) : Z :=
  fold_left (fun v c => v * 10 + (char_value plain_char_signed c - 48)) token 0.

Definition starts_outside (func : ascii -> bool) (s : string_view) : Prop :=
  match s with
  | [] => True
  | c :: _ => func c = false
  end.

(* ================================================================= *)
(** ** Adjacency lists in the arena *)

(** [lseg mem b e ds]: following the links from [e] visits records below
    [b], at strictly decreasing positions, with destinations [ds]. *)
Inductive lseg (mem : list edge_t) : Z -> optional_edge_id_t -> list Z -> Prop :=
| lseg_nil b : lseg mem b None []
| lseg_cons b k d next ds :
    0 <= k < b ->
    mem !! Z.to_nat k = Some (edge (node_id d) next) ->
    lseg mem k next ds ->
    lseg mem b (Some (edge_id k)) (d :: ds).

(** The adjacency list of [x] after the insertions [hist], newest first. *)
Definition adj_of (hist : list (Z * Z)) (x : Z) : list Z :=
  (filter (fun p => p.1 = x) hist).*2.

(** The state of a graph built by the constructor and the insertions
    [hist] (newest first). *)
Record graph_inv (max_nodes max_edges : Z) (g : graph_raw) (hist : list (Z * Z)) : Prop :=
  { inv_nodes_length : length (nodes g) = Z.to_nat max_nodes;
    inv_memory_length : length (edge_memory (edges g)) = Z.to_nat max_edges;
    inv_max_nodes : 0 <= max_nodes < size_t_modulus;
    inv_max_edges : 0 <= max_edges < size_t_modulus;
    inv_used : 0 <= used_nodes g <= max_nodes;
    inv_used_int : used_nodes g <= INT_MAX;
    inv_next : next_available (edges g) = Z.of_nat (length hist);
    inv_capacity : Z.of_nat (length hist) <= max_edges;
    inv_sources : Forall (fun p => 0 <= p.1 < max_nodes) hist;
    inv_adjacency : forall x, 0 <= x < max_nodes ->
      exists n, nodes g !! Z.to_nat x = Some n /\
        lseg (edge_memory (edges g)) (Z.of_nat (length hist))
             (get_edge_begin n) (adj_of hist x) }.

(** The insertions [double_up_edges] makes for node [x] with adjacency
    list [ds], and for a whole graph, in order. *)
Definition doubled (x : Z) (ds : list Z) : list (Z * Z) :=
  flat_map (fun d => [(x, d); (d, x)]) ds.

Definition doubled_from (hist : list (Z * Z)) (from : Z) (count : nat) : list (Z * Z) :=
  flat_map (fun i => doubled i (adj_of hist i)) (seqZ from (Z.of_nat count)).

(* ================================================================= *)
(** ** Labels *)

Definition label (m : marking) (x : Z) : option Z := visited m !! Z.to_nat x.

Definition unmarked (m : marking) (x : Z) : Prop := 0 <= x /\ label m x = Some (-1).

Definition marked (m : marking) (x : Z) : Prop :=
  0 <= x /\ exists v, label m x = Some v /\ v <> -1.

Definition count_unmarked (m : marking) : nat :=
  length (filter (fun v => v = -1) (visited m)).

(** A recursion depth that suffices for a call of [mark_connected] from
    [s]: every nested call claims a node that was unmarked. *)
Definition enough_depth (depth : nat) (m : marking) (s : Z) : Prop :=
  (count_unmarked m < depth)%nat \/ (unmarked m s /\ (count_unmarked m <= depth)%nat).

(** What one call of [mark_connected] from [s] achieves. *)
Record marks_from (E : Z -> Z -> Prop) (s : Z) (m m' : marking) : Prop :=
  { mf_length : length (visited m') = length (visited m);
    mf_keep : forall x, marked m x -> marked m' x;
    mf_start : marked m' s;
    mf_claimed : exists l, claimed m' = claimed m ++ s :: l /\ NoDup (s :: l) /\
        forall x, x ∈ l <-> x <> s /\ unmarked m x /\ marked m' x;
    mf_reach : forall x, unmarked m x -> marked m' x -> clos_refl_trans Z E s x;
    mf_closed : forall x y, x = s \/ (unmarked m x /\ marked m' x) -> E x y -> marked m' y }.

(** What the loop of [mark_connected] over the destinations [ds] achieves. *)
Record marks_along (E : Z -> Z -> Prop) (ds : list Z) (m m' : marking) : Prop :=
  { ma_length : length (visited m') = length (visited m);
    ma_keep : forall x, marked m x -> marked m' x;
    ma_dests : forall d, d ∈ ds -> marked m' d;
    ma_claimed : exists l, claimed m' = claimed m ++ l /\ NoDup l /\
        forall x, x ∈ l <-> unmarked m x /\ marked m' x;
    ma_reach : forall x, unmarked m x -> marked m' x ->
        exists d, d ∈ ds /\ clos_refl_trans Z E d x;
    ma_closed : forall x y, unmarked m x -> marked m' x -> E x y -> marked m' y }.

(** The invariant of the scan of [count_connected] before node [i]. *)
Record scan_inv (max_nodes : Z) (i : Z) (m : marking) (color : Z) : Prop :=
  { si_length : length (visited m) = Z.to_nat max_nodes;
    si_color : 0 <= color <= i;
    si_done : forall x, 0 <= x < i -> marked m x;
    si_claimed : NoDup (claimed m) /\ forall x, x ∈ claimed m <-> marked m x }.

(** On a graph whose edges [E] go both ways, the nodes [reps] from which
    the scan called [mark_connected] represent the components met so far. *)
Record reps_inv (E : Z -> Z -> Prop) (i : Z) (m : marking) (color : Z)
    (reps : list Z) : Prop :=
  { ri_color : Z.of_nat (length reps) = color;
    ri_nodup : NoDup reps;
    ri_reps : forall r, r ∈ reps -> 0 <= r < i;
    ri_covered : forall x, marked m x ->
        exists r, r ∈ reps /\ clos_refl_sym_trans Z E x r;
    ri_closed : forall x y, marked m x -> E x y -> marked m y;
    ri_apart : forall r r', r ∈ reps -> r' ∈ reps ->
        clos_refl_sym_trans Z E r r' -> r = r' }.

(* ================================================================= *)
(** ** Traversal and insertion sequences *)

(** The destinations met by the traversal loop
    [for( e = first_edge(n); e.has_value(); e = next_edge(e) ) dst_node(e)]
    that [print], [double_up_edges] and [mark_connected] share. *)
Fixpoint traverse (walk : nat) (g : graph_raw) (edge_idx : optional_edge_id_t)
  : outcome (list Z) :=
  match edge_idx with
  | None => Ok []
  | Some e =>
      match walk with
      | O => Fail out_of_fuel
      | S walk' =>
          let* dst := dst_node g e in
          let* d := value dst in
          let* next := next_edge g e in
          let* ds := traverse walk' g next in
          Ok (d :: ds)
      end
  end.

Definition fan_out (g : graph_raw) (node_idx : node_id_t) : outcome (list Z) :=
  let* first := first_edge g node_idx in
  traverse (S (length (edge_memory (edges g)))) g first.

(** [add_edge] called for every pair of [ps], in order. *)
Fixpoint insert_all (g : graph_raw) (ps : list (Z * Z)) : outcome graph_raw :=
  match ps with
  | [] => Ok g
  | p :: ps' =>
      let* g' := completed (add_edge g (node_id p.1) (node_id p.2)) in
      insert_all g' ps'
  end.

(** The destinations of the edges of [ps] that leave [s], in the order of [ps]. *)
Definition dests (s : Z) (ps : list (Z * Z)) : list Z :=
  (filter (fun p => p.1 = s) ps).*2.

(** The total number of edges met by traversing every node's list. *)
Fixpoint edges_reachable (remaining : nat) (i : Z) (g : graph_raw) : outcome Z :=
  match remaining with
  | O => Ok 0
  | S remaining' =>
      let* ds := fan_out g (node_id i) in
      let* total := edges_reachable remaining' (i + 1) g in
      Ok (Z.of_nat (length ds) + total)
  end.

(** A graph built by the constructor and one [add_edge] per pair of [ps]. *)
Definition build (max_nodes max_edges n : Z) (ps : list (Z * Z)) : outcome graph_raw :=
  let* g0 := graph_raw_new max_nodes max_edges n in
  insert_all g0 ps.

(* ================================================================= *)
(** ** The test utilities of text_parsing.h *)

(** [test_read(input, expected, func)]: [func(input) == expected];
    [func] takes the view by reference and returns a view. *)
Definition test_read (input expected : string_view)
    (func : string_view -> string_view * string_view) : bool :=
  bool_decide ((func input).1 = expected).

(** [test_rest(input, expected, func)]: [input == expected] after [func(input)]. *)
Definition test_rest (input expected : string_view)
    (func : string_view -> string_view * string_view) : bool :=
  bool_decide ((func input).2 = expected).

(* ================================================================= *)
(** ** Words and pairs of a text *)

(** The number of maximal runs of non-whitespace characters that start in
    [input], [currently_in_a_word] telling whether one is under way. *)
Fixpoint words (currently_in_a_word : bool) (input : string_view) : nat :=
  match input with
  | [] => 0%nat
  | c :: rest =>
      ((if negb (is_whitespace c) && negb currently_in_a_word then 1 else 0) +
       words (negb (is_whitespace c)) rest)%nat
  end.

(** The (source, destination) pairs the loop of [read_graph] reads. *)
Fixpoint read_pairs (plain_char_signed : bool) (fuel : nat) (text : string_view)
  : list (Z * Z) :=
  match text with
  | [] => []
  | _ :: _ =>
      match fuel with
      | O => []
      | S fuel' =>
          let '(src_node, text1) := read_int plain_char_signed text in
          let '(dst_node, text2) := read_int plain_char_signed text1 in
          (src_node, dst_node) :: read_pairs plain_char_signed fuel' text2
      end
  end.

Definition parsed_pairs (plain_char_signed : bool) (input : string_view) : list (Z * Z) :=
  let '(_, text1) := read_int plain_char_signed input in
  read_pairs plain_char_signed (length text1) text1.

(** A text after the node count whose last source has no destination:
    pairs as in [edge_text], then one more number. *)
Inductive edge_text_dangling : string_view -> list (Z * Z) -> Z -> Prop :=
| dangling_end ws1 ts ws2 s :
    ws1 <> [] -> blank ws1 -> number ts s -> blank ws2 ->
    edge_text_dangling (ws1 ++ ts ++ ws2) [] s
| dangling_pair input ws1 ts ws2 td rest s d ps last :
    input = ws1 ++ ts ++ ws2 ++ td ++ rest ->
    ws1 <> [] -> blank ws1 -> number ts s ->
    ws2 <> [] -> blank ws2 -> number td d ->
    edge_text_dangling rest ps last ->
    edge_text_dangling input ((s, d) :: ps) last.

(* ================================================================= *)
(** ** The state of a built graph, in closed form *)

(** The edge that heads the list of [s] after the insertions [hist]
    (newest first): the position of the newest insertion that leaves [s]. *)
Fixpoint newest (hist : list (Z * Z)) (s : Z) : optional_edge_id_t :=
  match hist with
  | [] => None
  | p :: older =>
      if decide (p.1 = s) then Some (edge_id (Z.of_nat (length older)))
      else newest older s
  end.

(** The records of the arena after the insertions [hist], oldest first. *)
Fixpoint records (hist : list (Z * Z)) : list edge_t :=
  match hist with
  | [] => []
  | p :: older => records older ++ [edge (node_id p.2) (newest older p.1)]
  end.

Definition layout_nodes (max_nodes n : Z) (hist : list (Z * Z)) : list node_t :=
  ((fun i => node (node_id i) (newest hist i)) <$> seqZ 0 n) ++
  ((fun i => node (numeric_id None) (newest hist i)) <$> seqZ n (max_nodes - n)).

Definition layout (max_nodes max_edges n : Z) (hist : list (Z * Z)) : graph_raw :=
  graph n (layout_nodes max_nodes n hist)
    (edge_storage
       (records hist ++ replicate (Z.to_nat max_edges - length hist) edge_default)
       (Z.of_nat (length hist))).

(* ================================================================= *)
(** ** print *)

(** What [print] sends to [std::cout]: numbers and string literals, in
    order. *)
Inductive out_item : Set :=
| out_size (n : Z)
| out_text (s : string).

Definition newline_text : string := String "010" EmptyString.

(** The inner loop of [print].  The output made before a throw stays. *)
Fixpoint print_edges (walk : nat) (pool : edge_storage_t) (edge_idx : optional_edge_id_t)
    (out : list out_item) : list out_item * outcome unit :=
  match edge_idx with
  | None => (out, Ok tt)
  | Some e =>
      match walk with
      | O => (out, Fail out_of_fuel)
      | S walk' =>
          match get_edge pool e with
          | Fail err => (out, Fail err)
          | Ok ed =>
              match value (get_dst_node ed) with
              | Fail err => (out, Fail err)
              | Ok d =>
                  match value e with
                  | Fail err => (out ++ [out_size d; out_text " ("], Fail err)
                  | Ok ei =>
                      print_edges walk' pool (get_next_edge ed)
                        (out ++ [out_size d; out_text " ("; out_size ei; out_text ") "])
                  end
              end
          end
      end
  end.

(** The range-for of [print] over the first [used_nodes] nodes; it walks
    the array without a bounds check. *)
Fixpoint print_nodes (remaining : nat) (pos : nat) (g : graph_raw) (out : list out_item)
  : list out_item * outcome unit :=
  match remaining with
  | O => (out, Ok tt)
  | S remaining' =>
      match nodes g !! pos with
      | None => (out, Fail undefined_behaviour)
      | Some nd =>
          match value (get_id nd) with
          | Fail err => (out, Fail err)
          | Ok i =>
              match print_edges (S (length (edge_memory (edges g)))) (edges g)
                      (get_edge_begin nd) (out ++ [out_size i; out_text " -> "]) with
              | (out', Fail err) => (out', Fail err)
              | (out', Ok _) =>
                  print_nodes remaining' (S pos) g (out' ++ [out_text newline_text])
              end
          end
      end
  end.

Definition print (g : graph_raw) : list out_item * outcome unit :=
  print_nodes (Z.to_nat (used_nodes g)) 0 g [].

(** The (destination, edge id) pairs of the edges that leave [i], newest
    first, and the output they give. *)
Fixpoint adj_ix (hist : list (Z * Z)) (i : Z) : list (Z * Z) :=
  match hist with
  | [] => []
  | p :: older =>
      (if decide (p.1 = i) then [(p.2, Z.of_nat (length older))] else []) ++ adj_ix older i
  end.

Definition print_edge (e : Z * Z) : list out_item :=
  [out_size e.1; out_text " ("; out_size e.2; out_text ") "].

Definition print_line (hist : list (Z * Z)) (i : Z) : list out_item :=
  [out_size i; out_text " -> "] ++ flat_map print_edge (adj_ix hist i) ++
  [out_text newline_text].

(* ================================================================= *)
(** ** Counting without doubling *)

(** Every labelled node is connected, in the undirected closure of
    [hist], to one of the nodes [reps] from which the scan of
    [count_connected] called [mark_connected]. *)
Definition covered (hist : list (Z * Z)) (m : marking) (reps : list Z) : Prop :=
  forall x, marked m x -> exists r, r ∈ reps /\ connected hist x r.

(* ================================================================= *)
(** * Verification *)

(** ** The outcome monad *)

Lemma bind_Ok {A B : Type} (m : outcome A) (k : A -> outcome B) (b : B) :
  bind m k = Ok b -> exists a, m = Ok a /\ k a = Ok b.
Proof. destruct m as [a|e]; simpl; intros H; [eauto | discriminate]. Qed.

Lemma int_incr_Ok (i : Z) : i < INT_MAX -> int_incr i = Ok (i + 1).
Proof. intros H. unfold int_incr. destruct (Z.ltb_spec i INT_MAX); [done | lia]. Qed.

Lemma array_at_Ok {A : Type} (a : list A) (i : Z) (x : A) :
  a !! Z.to_nat i = Some x -> array_at a i = Ok x.
Proof. intros H. unfold array_at. by rewrite H. Qed.

Lemma wrap_small (z : Z) : 0 <= z < size_t_modulus -> wrap z = z.
Proof. intros H. unfold wrap. by apply Z.mod_small. Qed.

(* ----------------------------------------------------------------- *)
(** ** The scanner *)

Section ScannerProofs.

Variable sc : bool.

Lemma read_generic_index_app (func : ascii -> bool) (a b : string_view) :
  Forall (fun c => func c = true) a -> starts_outside func b ->
  read_generic_index func (a ++ b) = length a.
Proof.
  induction 1 as [|c a Hc Ha IH]; intros Hb; simpl.
  - destruct b as [|c b]; simpl in *; [done | by rewrite Hb].
  - rewrite Hc. f_equal. by apply IH.
Qed.

(** [read_generic] splits at the first character that fails [func]. *)
Lemma read_generic_app (func : ascii -> bool) (a b : string_view) :
  Forall (fun c => func c = true) a -> starts_outside func b ->
  read_generic func (a ++ b) = (a, b).
Proof.
  intros Ha Hb. unfold read_generic.
  rewrite (read_generic_index_app _ _ _ Ha Hb).
  by rewrite take_app_length, drop_app_length.
Qed.

Lemma read_generic_split (func : ascii -> bool) (s : string_view) :
  exists a b, s = a ++ b /\ Forall (fun c => func c = true) a /\
              starts_outside func b /\ read_generic func s = (a, b).
Proof.
  induction s as [|c s IH].
  - exists [], []. by repeat split.
  - destruct (func c) eqn:Hc.
    + destruct IH as (a & b & -> & Ha & Hb & _).
      exists (c :: a), b. repeat split; [by constructor | done |].
      apply (read_generic_app func (c :: a) b); [by constructor | done].
    + exists [], (c :: s). repeat split; [constructor | done |].
      unfold read_generic. simpl. by rewrite Hc.
Qed.

Lemma view_to_int_step_wrap (r : Z) (c : ascii) :
  view_to_int_step sc r c = wrap (r * 10 + (char_value sc c - 48)).
Proof.
  unfold view_to_int_step, size_sub, size_add, size_mul, wrap.
  rewrite Zminus_mod_idemp_l, Zminus_mod, <- Zplus_mod, <- Zminus_mod.
  f_equal. lia.
Qed.

Lemma view_to_int_fold (token : string_view) (a : Z) :
  fold_left (view_to_int_step sc) token (wrap a) =
  wrap (fold_left (fun v c => v * 10 + (char_value sc c - 48)) token a).
Proof.
  revert a. induction token as [|c token IH]; intros a; simpl.
  - done.
  - rewrite <- IH. f_equal. rewrite view_to_int_step_wrap. unfold wrap.
    by rewrite (Zplus_mod (_ * 10)), Zmult_mod_idemp_l, <- Zplus_mod.
Qed.

(** [view_to_int] is the accumulation of the specification, on [size_t]. *)
Lemma view_to_int_accumulate (token : string_view) :
  view_to_int sc token = wrap (accumulate sc token).
Proof. unfold view_to_int, accumulate. by rewrite <- view_to_int_fold. Qed.

Lemma digit_not_whitespace (c : ascii) : is_digit c = true -> is_whitespace c = false.
Proof.
  unfold is_digit, is_whitespace, code. intros H.
  destruct (Ascii.eqb_spec c " ") as [->|_]; [done|].
  destruct (Ascii.eqb_spec c "010") as [->|_]; done.
Qed.

Lemma digit_char_value (c : ascii) : is_digit c = true -> char_value sc c = code c.
Proof.
  unfold is_digit, char_value, code. intros H.
  destruct (Z.leb_spec 128 (Z.of_N (N_of_ascii c))); [lia | done].
Qed.

Lemma accumulate_digits (token : string_view) :
  Forall (fun c => is_digit c = true) token -> accumulate sc token = decimal token.
Proof.
  unfold accumulate, decimal. generalize 0.
  induction token as [|c token IH]; intros a Hd; simpl; [done|].
  inversion Hd; subst. rewrite digit_char_value by done. by apply IH.
Qed.

Lemma decimal_fold_nonneg (token : string_view) (a : Z) :
  0 <= a -> Forall (fun c => is_digit c = true) token ->
  0 <= fold_left (fun v c => v * 10 + (code c - 48)) token a.
Proof.
  revert a. induction token as [|c token IH]; intros a Ha Hd; simpl; [done|].
  inversion Hd as [|? ? Hc Hd']; subst. apply IH; [|done].
  unfold is_digit in Hc. lia.
Qed.

Lemma decimal_nonneg (token : string_view) :
  Forall (fun c => is_digit c = true) token -> 0 <= decimal token.
Proof. by apply decimal_fold_nonneg. Qed.

Lemma number_view_to_int (token : string_view) (v : Z) :
  number token v -> view_to_int sc token = v.
Proof.
  intros (_ & Hd & <- & Hlt). rewrite view_to_int_accumulate, accumulate_digits by done.
  apply wrap_small. pose proof (decimal_nonneg token Hd). lia.
Qed.

Lemma number_not_blank (token : string_view) (v : Z) :
  number token v -> Forall (fun c => negb (is_whitespace c) = true) token.
Proof.
  intros (_ & Hd & _). eapply Forall_impl; [exact Hd|].
  intros c Hc. simpl. by rewrite digit_not_whitespace.
Qed.

Lemma number_starts (token rest : string_view) (v : Z) :
  number token v -> starts_outside is_whitespace (token ++ rest).
Proof.
  intros (Hne & Hd & _). destruct token as [|c token]; [done|].
  inversion Hd; subst. simpl. by apply digit_not_whitespace.
Qed.

Lemma blank_starts (ws rest : string_view) :
  ws <> [] -> blank ws ->
  starts_outside (fun c => negb (is_whitespace c)) (ws ++ rest).
Proof.
  intros Hne Hws. destruct ws as [|c ws]; [done|].
  inversion Hws as [|? ? Hc _]; subst. simpl. by rewrite Hc.
Qed.

(** Reading a number that is followed by blanks and then by something
    that is not blank. *)
Lemma read_int_number (token ws rest : string_view) (v : Z) :
  number token v -> blank ws ->
  (ws = [] -> rest = []) -> starts_outside is_whitespace rest ->
  read_int sc (token ++ ws ++ rest) = (v, rest).
Proof.
  intros Hn Hws Hend Hrest. unfold read_int, read_non_whitespace, read_whitespace.
  rewrite (read_generic_app _ token (ws ++ rest)).
  - rewrite (read_generic_app _ ws rest) by done.
    by rewrite (number_view_to_int _ _ Hn).
  - by eapply number_not_blank.
  - destruct ws as [|c ws].
    + rewrite Hend by done. done.
    + by apply blank_starts.
Qed.

Lemma read_int_v_fst (input : string_view) :
  read_int_v sc input = (read_int sc input).1.
Proof.
  unfold read_int_v, read_int.
  destruct (read_non_whitespace input) as [token input1].
  by destruct (read_whitespace input1).
Qed.

Lemma is_whitespace_iff (c : ascii) :
  is_whitespace c = true <-> c = " "%char \/ c = "010"%char.
Proof.
  unfold is_whitespace.
  destruct (Ascii.eqb_spec c " "), (Ascii.eqb_spec c "010"); simpl; intuition congruence.
Qed.

End ScannerProofs.

(** C5. [read_int] returns the value of the maximal leading run of
    non-whitespace characters, accumulated as [value*10 + digit] in
    [size_t] (the empty token giving 0), and leaves the cursor after that
    token and the maximal run of whitespace that follows it; whitespace is
    exactly space and newline. *)
Theorem read_int_token_then_separator (sc : bool) (input : string_view) :
  exists token sep rest,
    input = token ++ sep ++ rest /\
    Forall (fun c => is_whitespace c = false) token /\
    (sep = [] -> rest = []) /\
    Forall (fun c => is_whitespace c = true) sep /\
    starts_outside is_whitespace rest /\
    read_int sc input = (wrap (accumulate sc token), rest) /\
    (0 <= accumulate sc token < size_t_modulus ->
     (read_int sc input).1 = accumulate sc token) /\
    accumulate sc [] = 0 /\
    (forall c, is_whitespace c = true <-> c = " "%char \/ c = "010"%char).
Proof.
  destruct (read_generic_split (fun c => negb (is_whitespace c)) input)
    as (token & tail & -> & Htoken & Htail & Hr1).
  destruct (read_generic_split (fun c => is_whitespace c) tail)
    as (sep & rest & -> & Hsep & Hrest & Hr2).
  assert (Hread : read_int sc (token ++ sep ++ rest) = (wrap (accumulate sc token), rest)).
  { unfold read_int, read_non_whitespace, read_whitespace.
    rewrite Hr1, Hr2. by rewrite view_to_int_accumulate. }
  exists token, sep, rest. split_and!; try done.
  - eapply Forall_impl; [exact Htoken|]. intros c Hc. simpl in Hc.
    by destruct (is_whitespace c).
  - intros ->. destruct rest as [|c rest]; [done|]. simpl in *.
    rewrite Hrest in Htail. discriminate.
  - intros Hfit. rewrite Hread. simpl. by apply wrap_small.
  - apply is_whitespace_iff.
Qed.

(* ----------------------------------------------------------------- *)
(** ** Counting words *)

Lemma count_words_blank (ws rest : string_view) (b : bool) (n : Z) :
  ws <> [] -> blank ws ->
  count_words_loop (ws ++ rest) b n = count_words_loop rest false n.
Proof.
  intros Hne Hws. revert b. induction Hws as [|c ws Hc Hws IH]; intros b; [done|].
  simpl. rewrite Hc. simpl. destruct ws as [|c' ws]; [done|]. by apply IH.
Qed.

Lemma count_words_blank_end (ws : string_view) (b : bool) (n : Z) :
  blank ws -> count_words_loop ws b n = Ok n.
Proof.
  intros Hws. revert b. induction Hws as [|c ws Hc Hws IH]; intros b; [done|].
  simpl. rewrite Hc. simpl. by apply IH.
Qed.

Lemma count_words_word_rest (t rest : string_view) (n : Z) :
  Forall (fun c => is_whitespace c = false) t ->
  count_words_loop (t ++ rest) true n = count_words_loop rest true n.
Proof.
  induction 1 as [|c t Hc Ht IH]; [done|].
  simpl. rewrite Hc. simpl. by rewrite IH.
Qed.

Lemma count_words_number (t rest : string_view) (v n : Z) :
  number t v -> n < INT_MAX ->
  count_words_loop (t ++ rest) false n = count_words_loop rest true (n + 1).
Proof.
  intros (Hne & Hd & _) Hn. destruct t as [|c t]; [done|].
  inversion Hd as [|? ? Hc Hd']; subst. simpl.
  rewrite (digit_not_whitespace c Hc). simpl. rewrite int_incr_Ok by done. simpl.
  rewrite count_words_word_rest; [done|].
  eapply Forall_impl; [exact Hd'|]. intros ? ?. by apply digit_not_whitespace.
Qed.

Lemma count_words_edge_text (rest : string_view) (ps : list (Z * Z)) :
  edge_text rest ps -> forall n, n + 2 * Z.of_nat (length ps) <= INT_MAX ->
  count_words_loop rest true n = Ok (n + 2 * Z.of_nat (length ps)).
Proof.
  induction 1 as [ws Hws | input ws1 ts ws2 td rest s d ps -> Hne1 Hws1 Hs Hne2 Hws2 Hd _ IH];
    intros n Hn.
  - rewrite count_words_blank_end by done. simpl. f_equal. lia.
  - simpl length in *.
    rewrite (count_words_blank ws1) by done.
    rewrite (count_words_number ts _ s) by (done || lia).
    rewrite (count_words_blank ws2) by done.
    rewrite (count_words_number td _ d) by (done || lia).
    rewrite IH by lia. f_equal. lia.
Qed.

Lemma count_words_graph_text (input : string_view) (N : Z) (ps : list (Z * Z)) :
  graph_text input N ps -> 2 * Z.of_nat (length ps) + 1 <= INT_MAX ->
  count_words input = Ok (2 * Z.of_nat (length ps) + 1).
Proof.
  intros (tn & rest & -> & Hn & Hrest) Hfit. unfold count_words.
  rewrite (count_words_number tn rest N) by (done || lia).
  rewrite (count_words_edge_text rest ps Hrest) by lia. f_equal. lia.
Qed.

(** C2 (as the code has it). The capacity of the edge arena is the word
    count of the whole text, node count included and not halved: for a
    text with [M] edge pairs it is [2 * M + 1]. *)
Theorem max_graph_edges_counts_all_words (input : string_view) (N : Z) (ps : list (Z * Z)) :
  graph_text input N ps -> 2 * Z.of_nat (length ps) + 1 <= INT_MAX ->
  max_graph_edges input = Ok (2 * Z.of_nat (length ps) + 1).
Proof. apply count_words_graph_text. Qed.

(* ----------------------------------------------------------------- *)
(** ** The edge arena *)

Lemma lseg_weaken (mem : list edge_t) (b b' : Z) (e : optional_edge_id_t) (ds : list Z) :
  lseg mem b e ds -> b <= b' -> lseg mem b' e ds.
Proof.
  intros H Hb. destruct H as [b | b k d next ds Hk Hmem Hrest].
  - apply lseg_nil.
  - apply lseg_cons with (next := next); [lia | done | done].
Qed.

Lemma lseg_insert (mem : list edge_t) (b j : Z) (e : optional_edge_id_t) (ds : list Z)
    (x : edge_t) :
  lseg mem b e ds -> b <= j -> lseg (<[Z.to_nat j := x]> mem) b e ds.
Proof.
  induction 1 as [b | b k d next ds Hk Hmem Hrest IH]; intros Hj.
  - apply lseg_nil.
  - apply lseg_cons with (next := next); [done | |].
    + rewrite list_lookup_insert_ne by lia. done.
    + apply IH. lia.
Qed.

Section ArenaProofs.

Variables (pool : edge_storage_t) (dst : node_id_t) (next : optional_edge_id_t).

Let capacity : Z := Z.of_nat (length (edge_memory pool)).

Hypothesis capacity_fits : capacity < size_t_modulus.
Hypothesis counter_nonneg : 0 <= next_available pool.

Lemma alloc_edge_free :
  next_available pool < capacity ->
  alloc_edge pool dst next =
    (edge_storage (<[Z.to_nat (next_available pool) := edge dst next]> (edge_memory pool))
                  (next_available pool + 1),
     Ok (edge_id (next_available pool))).
Proof.
  intros Hfree. unfold alloc_edge, array_at. simpl.
  destruct (lookup_lt_is_Some_2 (edge_memory pool) (Z.to_nat (next_available pool)))
    as [x Hx]; [subst capacity; lia|].
  rewrite Hx. unfold size_add. rewrite wrap_small; [done | subst capacity; lia].
Qed.

Lemma alloc_edge_full :
  capacity <= next_available pool ->
  alloc_edge pool dst next =
    (edge_storage (edge_memory pool) (size_add (next_available pool) 1),
     Fail out_of_range).
Proof.
  intros Hfull. unfold alloc_edge, array_at. simpl.
  rewrite lookup_ge_None_2; [done | subst capacity; lia].
Qed.

End ArenaProofs.

(** C8 (as the code has it). An allocation that succeeds keeps
    [next_available <= max_edges]; an allocation attempted on a full arena
    fails with [out_of_range] and writes no record, but the counter has
    been advanced by then and is left at [max_edges + 1]. *)
Theorem alloc_edge_capacity (pool : edge_storage_t) (dst : node_id_t)
    (next : optional_edge_id_t) :
  Z.of_nat (length (edge_memory pool)) < size_t_modulus ->
  0 <= next_available pool <= Z.of_nat (length (edge_memory pool)) ->
  length (edge_memory (alloc_edge pool dst next).1) = length (edge_memory pool) /\
  (next_available pool < Z.of_nat (length (edge_memory pool)) ->
     (alloc_edge pool dst next).2 = Ok (edge_id (next_available pool)) /\
     edge_memory (alloc_edge pool dst next).1 !! Z.to_nat (next_available pool) =
       Some (edge dst next) /\
     next_available (alloc_edge pool dst next).1 = next_available pool + 1 /\
     next_available (alloc_edge pool dst next).1 <= Z.of_nat (length (edge_memory pool))) /\
  (next_available pool = Z.of_nat (length (edge_memory pool)) ->
     (alloc_edge pool dst next).2 = Fail out_of_range /\
     edge_memory (alloc_edge pool dst next).1 = edge_memory pool /\
     (Z.of_nat (length (edge_memory pool)) + 1 < size_t_modulus ->
      next_available (alloc_edge pool dst next).1 =
        Z.of_nat (length (edge_memory pool)) + 1)).
Proof.
  intros Hfits Hinv. split_and!.
  - destruct (Z.lt_ge_cases (next_available pool) (Z.of_nat (length (edge_memory pool))))
      as [Hfree|Hfull].
    + rewrite alloc_edge_free by (done || lia). simpl. apply length_insert.
    + by rewrite alloc_edge_full.
  - intros Hfree. rewrite alloc_edge_free by (done || lia). simpl. split_and!; try done.
    + apply list_lookup_insert_eq. lia.
    + lia.
  - intros Hfull. rewrite alloc_edge_full by lia. simpl.
    split_and!; try done. intros Hroom. unfold size_add. rewrite Hfull.
    apply wrap_small. lia.
Qed.

(* ----------------------------------------------------------------- *)
(** ** Construction of a graph *)

Section GraphProofs.

Variables max_nodes max_edges : Z.

Abbreviation graph_inv := (graph_inv max_nodes max_edges).

Lemma graph_raw_init_Ok (remaining : nat) (idx : Z) (ns : list node_t) :
  0 <= idx ->
  idx + Z.of_nat remaining <= Z.of_nat (length ns) ->
  idx + Z.of_nat remaining <= INT_MAX ->
  Forall (fun n => get_edge_begin n = None) ns ->
  exists ns', graph_raw_init remaining idx ns = Ok ns' /\
    length ns' = length ns /\ Forall (fun n => get_edge_begin n = None) ns'.
Proof.
  revert idx ns. induction remaining as [|remaining IH]; intros idx ns Hidx Hlen Hint Hns.
  - exists ns. by simpl.
  - simpl. destruct (Z.leb_spec (Z.of_nat (length ns)) idx); [lia|].
    rewrite int_incr_Ok by lia. simpl.
    destruct (IH (idx + 1) (<[Z.to_nat idx := node_of idx]> ns)) as (ns' & Hrun & Hl & Hb).
    + lia.
    + rewrite length_insert. lia.
    + lia.
    + apply Forall_insert; [done | done].
    + exists ns'. rewrite length_insert in Hl. done.
Qed.

Lemma graph_raw_new_inv (n : Z) :
  0 <= n <= max_nodes -> n <= INT_MAX ->
  max_nodes < size_t_modulus -> 0 <= max_edges < size_t_modulus ->
  exists g, graph_raw_new max_nodes max_edges n = Ok g /\
    used_nodes g = n /\ graph_inv g [].
Proof.
  intros Hn Hint Hmn Hme. unfold graph_raw_new.
  destruct (graph_raw_init_Ok (Z.to_nat n) 0
              (replicate (Z.to_nat max_nodes) node_default)) as (ns & -> & Hl & Hb).
  - lia.
  - rewrite length_replicate. lia.
  - lia.
  - apply Forall_replicate. done.
  - simpl. eexists. split; [done|]. split; [done|].
    rewrite length_replicate in Hl.
    split; simpl; try done; try lia.
    + by rewrite length_replicate.
    + intros x Hx. destruct (lookup_lt_is_Some_2 ns (Z.to_nat x)) as [nd Hnd]; [lia|].
      exists nd. split; [done|].
      rewrite (proj1 (Forall_lookup _ _) Hb _ _ Hnd). unfold adj_of. simpl. apply lseg_nil.
Qed.

Lemma adj_of_cons_same (hist : list (Z * Z)) (s d : Z) :
  adj_of ((s, d) :: hist) s = d :: adj_of hist s.
Proof. unfold adj_of. rewrite filter_cons. simpl. by rewrite decide_True. Qed.

Lemma adj_of_cons_other (hist : list (Z * Z)) (s d x : Z) :
  s <> x -> adj_of ((s, d) :: hist) x = adj_of hist x.
Proof. intros H. unfold adj_of. rewrite filter_cons. simpl. by rewrite decide_False. Qed.

Lemma add_edge_inv (g : graph_raw) (hist : list (Z * Z)) (s d : Z) :
  graph_inv g hist -> 0 <= s < max_nodes -> Z.of_nat (length hist) < max_edges ->
  exists g', add_edge g (node_id s) (node_id d) = (g', Ok tt) /\
    used_nodes g' = used_nodes g /\ graph_inv g' ((s, d) :: hist).
Proof.
  intros Hinv Hs Hroom. destruct Hinv as [Hnl Hml Hmn Hme Hused Huint Hnext Hcap Hsrc Hadj].
  destruct (Hadj s Hs) as (n & Hn & Hseg).
  unfold add_edge. simpl. rewrite (array_at_Ok _ _ _ Hn).
  rewrite alloc_edge_free by lia. rewrite Hnext.
  eexists. split; [done|]. split; [done|].
  split; simpl; try done.
  - rewrite length_insert. done.
  - rewrite length_insert. done.
  - lia.
  - lia.
  - constructor; [simpl; lia | done].
  - intros x Hx. destruct (decide (x = s)) as [->|Hne].
    + eexists. split.
      * apply list_lookup_insert_eq. lia.
      * simpl. rewrite adj_of_cons_same. apply lseg_cons with (next := get_edge_begin n).
        -- lia.
        -- apply list_lookup_insert_eq. lia.
        -- apply lseg_insert; [done | lia].
    + destruct (Hadj x Hx) as (nx & Hnx & Hsegx). exists nx. split.
      * rewrite list_lookup_insert_ne by lia. done.
      * rewrite adj_of_cons_other by done.
        eapply lseg_weaken; [apply lseg_insert; [done | lia] | simpl; lia].
Qed.

Lemma add_edge_completed (g g' : graph_raw) (hist : list (Z * Z)) (s d : Z) :
  graph_inv g hist -> 0 <= s ->
  completed (add_edge g (node_id s) (node_id d)) = Ok g' ->
  s < max_nodes /\ Z.of_nat (length hist) < max_edges /\
  used_nodes g' = used_nodes g /\ graph_inv g' ((s, d) :: hist).
Proof.
  intros Hinv Hs Hrun.
  destruct (Z.lt_ge_cases s max_nodes) as [Hlt|Hge].
  - destruct (Z.lt_ge_cases (Z.of_nat (length hist)) max_edges) as [Hroom|Hfull].
    + destruct (add_edge_inv g hist s d Hinv) as (g1 & Hg1 & Hu & Hi); [lia | done |].
      rewrite Hg1 in Hrun. injection Hrun as <-. done.
    + exfalso. destruct Hinv as [Hnl Hml Hmn Hme Hused Huint Hnext Hcap Hsrc Hadj].
      destruct (Hadj s ltac:(lia)) as (n & Hn & _).
      unfold add_edge in Hrun. simpl in Hrun. rewrite (array_at_Ok _ _ _ Hn) in Hrun.
      rewrite alloc_edge_full in Hrun by lia. discriminate.
  - exfalso. destruct Hinv as [Hnl Hml Hmn Hme Hused Huint Hnext Hcap Hsrc Hadj].
    unfold add_edge, array_at in Hrun. simpl in Hrun.
    rewrite lookup_ge_None_2 in Hrun by lia. discriminate.
Qed.

(** Walking an adjacency list. *)
Lemma lseg_step (g : graph_raw) (b : Z) (e : edge_id_t) (ds : list Z) :
  lseg (edge_memory (edges g)) b (Some e) ds ->
  exists k d next ds', e = edge_id k /\ ds = d :: ds' /\ 0 <= k < b /\
    dst_node g e = Ok (node_id d) /\ next_edge g e = Ok next /\
    lseg (edge_memory (edges g)) k next ds'.
Proof.
  intros H. inversion H as [| ? k d next ds' Hk Hmem Hrest]; subst.
  exists k, d, next, ds'. unfold dst_node, next_edge, get_edge. simpl.
  rewrite (array_at_Ok _ _ _ Hmem). done.
Qed.

Lemma traverse_lseg (g : graph_raw) (b : Z) (e : optional_edge_id_t) (ds : list Z)
    (walk : nat) :
  lseg (edge_memory (edges g)) b e ds -> (length ds < walk)%nat ->
  traverse walk g e = Ok ds.
Proof.
  revert b e ds. induction walk as [|walk IH]; intros b e ds Hseg Hwalk; [lia|].
  destruct e as [e|].
  - destruct (lseg_step g b e ds Hseg) as (k & d & next & ds' & -> & -> & Hk & Hd & Hn & Hrest).
    simpl in Hwalk. simpl. rewrite Hd, Hn. simpl.
    rewrite (IH k next ds' Hrest) by lia. done.
  - inversion Hseg; subst. done.
Qed.

Lemma first_edge_inv (g : graph_raw) (hist : list (Z * Z)) (x : Z) :
  graph_inv g hist -> 0 <= x < max_nodes ->
  exists first, first_edge g (node_id x) = Ok first /\
    lseg (edge_memory (edges g)) (Z.of_nat (length hist)) first (adj_of hist x).
Proof.
  intros Hinv Hx. destruct (inv_adjacency _ _ _ _ Hinv x Hx) as (n & Hn & Hseg).
  exists (get_edge_begin n). unfold first_edge. simpl. by rewrite (array_at_Ok _ _ _ Hn).
Qed.

Lemma adj_of_walkable (g : graph_raw) (hist : list (Z * Z)) (x : Z) :
  graph_inv g hist ->
  (length (adj_of hist x) < S (length (edge_memory (edges g))))%nat.
Proof.
  intros Hinv. unfold adj_of. rewrite length_fmap.
  pose proof (length_filter (fun p => p.1 = x) hist).
  pose proof (inv_capacity _ _ _ _ Hinv). pose proof (inv_memory_length _ _ _ _ Hinv).
  pose proof (inv_max_edges _ _ _ _ Hinv). lia.
Qed.

Lemma fan_out_inv (g : graph_raw) (hist : list (Z * Z)) (x : Z) :
  graph_inv g hist -> 0 <= x < max_nodes ->
  fan_out g (node_id x) = Ok (adj_of hist x).
Proof.
  intros Hinv Hx. destruct (first_edge_inv g hist x Hinv Hx) as (first & Hfirst & Hseg).
  unfold fan_out. rewrite Hfirst. cbn [bind].
  eapply traverse_lseg; [done|]. by eapply adj_of_walkable.
Qed.

Lemma insert_all_inv (ps : list (Z * Z)) (g g' : graph_raw) (hist : list (Z * Z)) :
  graph_inv g hist -> Forall (fun p => 0 <= p.1) ps ->
  insert_all g ps = Ok g' ->
  used_nodes g' = used_nodes g /\ graph_inv g' (reverse ps ++ hist).
Proof.
  revert g hist. induction ps as [|[s d] ps IH]; intros g hist Hinv Hps Hrun.
  - simpl in Hrun. injection Hrun as <-. done.
  - simpl in Hrun. apply bind_Ok in Hrun as (g1 & Hg1 & Hrun).
    inversion Hps as [|? ? Hs Hps']; subst. simpl in Hs.
    destruct (add_edge_completed g g1 hist s d Hinv Hs Hg1) as (_ & _ & Hu & Hinv1).
    destruct (IH g1 ((s, d) :: hist) Hinv1 Hps' Hrun) as (Hu' & Hinv').
    split; [congruence|]. rewrite reverse_cons, <- app_assoc. done.
Qed.

Lemma adj_of_reverse (ps : list (Z * Z)) (x : Z) :
  adj_of (reverse ps) x = reverse (dests x ps).
Proof. unfold adj_of, dests. by rewrite filter_reverse, fmap_reverse. Qed.

End GraphProofs.

(* ----------------------------------------------------------------- *)
(** ** Building a graph is a sequence of insertions *)

Lemma insert_all_app (g : graph_raw) (l1 l2 : list (Z * Z)) :
  insert_all g (l1 ++ l2) = let* g' := insert_all g l1 in insert_all g' l2.
Proof.
  revert g. induction l1 as [|p l1 IH]; intros g; simpl; [done|].
  destruct (completed _); simpl; [apply IH | done].
Qed.

Lemma edge_text_split (rest : string_view) (ps : list (Z * Z)) :
  edge_text rest ps ->
  exists ws text, rest = ws ++ text /\ blank ws /\ (ws = [] -> text = []) /\
    starts_outside is_whitespace text.
Proof.
  destruct 1 as [ws Hws | input ws1 ts ws2 td rest s d ps -> Hne1 Hws1 Hs Hne2 Hws2 Hd Hrest].
  - exists ws, []. by rewrite app_nil_r.
  - exists ws1, (ts ++ ws2 ++ td ++ rest). split_and!; try done.
    by eapply number_starts.
Qed.

Lemma blank_split_unique (ws text ws' text' : string_view) :
  ws ++ text = ws' ++ text' -> blank ws -> blank ws' ->
  starts_outside is_whitespace text -> starts_outside is_whitespace text' ->
  ws = ws' /\ text = text'.
Proof.
  intros Heq Hws Hws' Ht Ht'.
  pose proof (read_generic_app is_whitespace ws text Hws Ht) as H1.
  pose proof (read_generic_app is_whitespace ws' text' Hws' Ht') as H2.
  rewrite Heq, H2 in H1. by injection H1.
Qed.

Lemma blank_no_start (ws text rest : string_view) :
  blank rest -> rest = ws ++ text -> starts_outside is_whitespace text -> text = [].
Proof.
  intros Hrest -> Ht. destruct text as [|c text]; [done|]. simpl in Ht.
  apply Forall_app in Hrest as [_ Hrest]. inversion Hrest; subst. congruence.
Qed.

Lemma read_graph_loop_step (sc : bool) (fuel : nat) (text : string_view) (g : graph_raw) :
  text <> [] ->
  read_graph_loop sc (S fuel) text g =
    let '(src_node, text1) := read_int sc text in
    let '(dst_node, text2) := read_int sc text1 in
    let* g' := completed (add_edge g (node_id src_node) (node_id dst_node)) in
    read_graph_loop sc fuel text2 g'.
Proof. by destruct text. Qed.

(** The fuel of [read_graph_loop] is never what stops it: every round
    consumes at least one character. *)
Lemma read_generic_rest_length (func : ascii -> bool) (text : string_view) :
  length (read_generic func text).2 =
    (length text - read_generic_index func text)%nat.
Proof. unfold read_generic. simpl. apply length_drop. Qed.

Lemma read_int_rest_length (sc : bool) (text : string_view) :
  (length (read_int sc text).2 <= length text)%nat /\
  (text <> [] -> (length (read_int sc text).2 < length text)%nat).
Proof.
  unfold read_int, read_non_whitespace, read_whitespace.
  pose proof (read_generic_rest_length (fun c => negb (is_whitespace c)) text) as H1.
  destruct (read_generic (fun c => negb (is_whitespace c)) text) as [token input1] eqn:Hr1.
  pose proof (read_generic_rest_length (fun c => is_whitespace c) input1) as H2.
  destruct (read_generic (fun c => is_whitespace c) input1) as [ws input2] eqn:Hr2.
  simpl in *. split; [lia|]. intros Hne.
  destruct text as [|c text]; [done|].
  unfold read_generic in Hr1. simpl in Hr1, H1.
  destruct (is_whitespace c) eqn:Hc; simpl in *.
  - injection Hr1 as <- <-. simpl in H2. rewrite Hc in H2. simpl in *. lia.
  - lia.
Qed.

Lemma add_edge_failure (g : graph_raw) (src_node dst_node : node_id_t) :
  completed (add_edge g src_node dst_node) <> Fail out_of_fuel.
Proof.
  unfold completed, add_edge, alloc_edge, value, array_at.
  destruct (id src_node); [|done].
  destruct (nodes g !! _); [|done].
  destruct (edge_memory _ !! _); done.
Qed.

Lemma read_graph_loop_fuel (sc : bool) (fuel : nat) :
  forall text g, (length text <= fuel)%nat ->
  read_graph_loop sc fuel text g <> Fail out_of_fuel.
Proof.
  induction fuel as [|fuel IH]; intros text g Hfuel.
  - destruct text; [done | simpl in Hfuel; lia].
  - destruct text as [|c text]; [done|].
    rewrite read_graph_loop_step by done.
    destruct (read_int_rest_length sc (c :: text)) as [_ Hlt]. specialize (Hlt ltac:(done)).
    destruct (read_int sc (c :: text)) as [src_node text1]. simpl in Hlt.
    destruct (read_int_rest_length sc text1) as [Hle _].
    destruct (read_int sc text1) as [dst_node text2]. simpl in Hle.
    pose proof (add_edge_failure g (node_id src_node) (node_id dst_node)) as Hadd.
    destruct (completed _) as [g'|e]; simpl; [|congruence].
    apply IH. simpl in Hfuel. lia.
Qed.

Lemma read_graph_loop_insert_all (sc : bool) (rest : string_view) (ps : list (Z * Z)) :
  edge_text rest ps -> forall ws text fuel g,
  rest = ws ++ text -> blank ws -> starts_outside is_whitespace text ->
  (length text <= fuel)%nat ->
  read_graph_loop sc fuel text g = insert_all g ps.
Proof.
  induction 1 as [rest Hrest | input ws1 ts ws2 td rest s d ps -> Hne1 Hws1 Hs Hne2 Hws2 Hd Hrest IH];
    intros ws text fuel g Heq Hws Htext Hfuel.
  - rewrite (blank_no_start ws text rest Hrest Heq Htext). by destruct fuel.
  - destruct (blank_split_unique ws1 (ts ++ ws2 ++ td ++ rest) ws text Heq) as [<- <-];
      [done | done | by eapply number_starts | done |].
    destruct (edge_text_split rest ps Hrest) as (ws' & text' & -> & Hws' & Hend' & Htext').
    rewrite !length_app in Hfuel.
    assert (length ts <> 0%nat) by (destruct ts; [by destruct Hs | done]).
    destruct fuel as [|fuel]; [lia|].
    rewrite read_graph_loop_step by (destruct ts; [by destruct Hs | done]).
    rewrite (read_int_number sc ts ws2 (td ++ ws' ++ text') s); try done;
      [| by eapply number_starts].
    rewrite (read_int_number sc td ws' text' d) by done.
    simpl. destruct (completed _) as [g'|e]; simpl; [|done].
    apply (IH ws' text'); try done. lia.
Qed.

Section BuildProofs.

Variables max_nodes max_edges : Z.

Abbreviation graph_inv := (graph_inv max_nodes max_edges).

Lemma read_graph_insert_all (sc : bool) (input : string_view) (N : Z) (ps : list (Z * Z)) :
  graph_text input N ps ->
  read_graph max_nodes max_edges sc input =
    let* g := graph_raw_new max_nodes max_edges N in insert_all g ps.
Proof.
  intros (tn & rest & -> & Hn & Hrest). unfold read_graph.
  destruct (edge_text_split rest ps Hrest) as (ws & text & -> & Hws & Hend & Htext).
  rewrite (read_int_number sc tn ws text N) by done.
  destruct (graph_raw_new max_nodes max_edges N) as [g|e]; simpl; [|done].
  by apply (read_graph_loop_insert_all sc (ws ++ text) ps Hrest ws text).
Qed.

Lemma insert_all_Ok (ps : list (Z * Z)) (g : graph_raw) (hist : list (Z * Z)) :
  graph_inv g hist -> Forall (fun p => 0 <= p.1 < max_nodes) ps ->
  Z.of_nat (length hist) + Z.of_nat (length ps) <= max_edges ->
  exists g', insert_all g ps = Ok g' /\ used_nodes g' = used_nodes g /\
    graph_inv g' (reverse ps ++ hist).
Proof.
  revert g hist. induction ps as [|[s d] ps IH]; intros g hist Hinv Hps Hroom.
  - exists g. done.
  - inversion Hps as [|? ? Hs Hps']; subst. simpl in Hs, Hroom.
    destruct (add_edge_inv max_nodes max_edges g hist s d Hinv Hs) as (g1 & Hg1 & Hu1 & Hinv1);
      [lia|].
    destruct (IH g1 ((s, d) :: hist) Hinv1 Hps') as (g' & Hg' & Hu' & Hinv'); [simpl; lia|].
    exists g'. simpl. unfold completed. rewrite Hg1. simpl. rewrite Hg'.
    split; [done|]. split; [congruence|]. by rewrite reverse_cons, <- app_assoc.
Qed.

Lemma endpoints_sources (N : Z) (ps : list (Z * Z)) :
  endpoints_below N ps -> N <= max_nodes -> Forall (fun p => 0 <= p.1 < max_nodes) ps.
Proof.
  intros Hps HN. eapply Forall_impl; [exact Hps|]. intros p [? ?]. simpl. lia.
Qed.

Lemma read_graph_inv (sc : bool) (input : string_view) (N : Z) (ps : list (Z * Z)) :
  graph_text input N ps -> endpoints_below N ps ->
  0 <= N <= max_nodes -> N <= INT_MAX -> max_nodes < size_t_modulus ->
  0 <= max_edges < size_t_modulus -> Z.of_nat (length ps) <= max_edges ->
  exists g, read_graph max_nodes max_edges sc input = Ok g /\
    used_nodes g = N /\ graph_inv g (reverse ps).
Proof.
  intros Htext Hps HN Hint Hmn Hme Hroom.
  rewrite (read_graph_insert_all sc input N ps Htext).
  destruct (graph_raw_new_inv max_nodes max_edges N HN Hint Hmn Hme) as (g0 & -> & Hu0 & Hinv0).
  simpl.
  destruct (insert_all_Ok ps g0 [] Hinv0) as (g & Hg & Hu & Hinv).
  - eapply endpoints_sources; [done | lia].
  - simpl. lia.
  - exists g. rewrite app_nil_r in Hinv. split; [done|]. split; [congruence | done].
Qed.

(** *** Symmetrization *)

Lemma double_up_node_insert_all (g : graph_raw) (x : Z) (walk : nat) :
  forall (b : Z) (e : optional_edge_id_t) (ds : list Z) (new_graph : graph_raw),
  lseg (edge_memory (edges g)) b e ds -> (length ds < walk)%nat ->
  double_up_node walk g (node_id x) e new_graph = insert_all new_graph (doubled x ds).
Proof.
  induction walk as [|walk IH]; intros b e ds new_graph Hseg Hwalk; [lia|].
  destruct e as [e|].
  - destruct (lseg_step g b e ds Hseg) as (k & d & next & ds' & -> & -> & Hk & Hd & Hn & Hrest).
    simpl in Hwalk. simpl. rewrite Hd. simpl.
    destruct (completed (add_edge new_graph _ _)) as [g1|]; simpl; [|done].
    destruct (completed (add_edge g1 _ _)) as [g2|]; simpl; [|done].
    rewrite Hn. simpl. apply (IH k); [done | lia].
  - inversion Hseg; subst. done.
Qed.

Lemma doubled_from_S (hist : list (Z * Z)) (from : Z) (count : nat) :
  doubled_from hist from (S count) =
    doubled from (adj_of hist from) ++ doubled_from hist (from + 1) count.
Proof.
  unfold doubled_from. rewrite seqZ_cons by lia. simpl.
  do 3 f_equal; lia.
Qed.

Lemma double_up_nodes_insert_all (g : graph_raw) (hist : list (Z * Z)) (count : nat) :
  graph_inv g hist -> forall (from : Z) (new_graph : graph_raw),
  0 <= from -> from + Z.of_nat count <= max_nodes ->
  double_up_nodes count from g new_graph =
    insert_all new_graph (doubled_from hist from count).
Proof.
  intros Hinv. induction count as [|count IH]; intros from new_graph Hfrom Hcount; [done|].
  rewrite doubled_from_S, insert_all_app.
  destruct (first_edge_inv max_nodes max_edges g hist from Hinv) as (first & Hfirst & Hseg);
    [lia|].
  cbn [double_up_nodes]. rewrite Hfirst. cbn [bind].
  rewrite (double_up_node_insert_all g from _ (Z.of_nat (length hist)) first
             (adj_of hist from));
    [| done | by eapply adj_of_walkable].
  destruct (insert_all new_graph _) as [g1|]; simpl; [|done].
  unfold size_add. rewrite wrap_small.
  - apply IH; lia.
  - pose proof (inv_max_nodes _ _ _ _ Hinv). lia.
Qed.

Lemma double_up_edges_insert_all (g : graph_raw) (hist : list (Z * Z)) :
  graph_inv g hist ->
  double_up_edges max_nodes max_edges g =
    let* new_graph := graph_raw_new max_nodes max_edges (get_num_nodes g) in
    insert_all new_graph (doubled_from hist 0 (Z.to_nat (get_num_nodes g))).
Proof.
  intros Hinv. unfold double_up_edges.
  destruct (graph_raw_new _ _ _) as [new_graph|]; simpl; [|done].
  pose proof (inv_used _ _ _ _ Hinv). unfold get_num_nodes.
  apply double_up_nodes_insert_all; [done | lia | lia].
Qed.

End BuildProofs.

(** *** Counting the insertions *)

Lemma filter_length_split {A : Type} (P Q R : A -> Prop)
    `{!forall x, Decision (P x)} `{!forall x, Decision (Q x)} `{!forall x, Decision (R x)}
    (l : list A) :
  (forall x, R x <-> P x \/ Q x) -> (forall x, P x -> Q x -> False) ->
  length (filter R l) = (length (filter P l) + length (filter Q l))%nat.
Proof.
  intros HR Hdisj. induction l as [|a l IH]; [done|].
  rewrite !filter_cons.
  destruct (decide (R a)) as [Hr|Hr], (decide (P a)) as [Hp|Hp], (decide (Q a)) as [Hq|Hq];
    simpl; rewrite ?IH; try lia; exfalso.
  - by eapply Hdisj.
  - apply HR in Hr. tauto.
  - apply Hr, HR. tauto.
  - apply Hr, HR. tauto.
  - apply Hr, HR. tauto.
Qed.

Lemma filter_length_all {A : Type} (P : A -> Prop) `{!forall x, Decision (P x)} (l : list A) :
  Forall P l -> length (filter P l) = length l.
Proof.
  induction 1 as [|a l Ha Hl IH]; [done|].
  rewrite filter_cons, decide_True by done. simpl. by rewrite IH.
Qed.

Lemma filter_length_none {A : Type} (P : A -> Prop) `{!forall x, Decision (P x)} (l : list A) :
  (forall x, ~ P x) -> length (filter P l) = 0%nat.
Proof.
  intros HP. induction l as [|a l IH]; [done|].
  rewrite filter_cons, decide_False by apply HP. done.
Qed.

Lemma doubled_length (x : Z) (ds : list Z) :
  length (doubled x ds) = (2 * length ds)%nat.
Proof. induction ds as [|d ds IH]; simpl; [done | rewrite IH; lia]. Qed.

Lemma sources_in_range_length (hist : list (Z * Z)) (from : Z) (count : nat) :
  length (filter (fun p => from <= p.1 < from + Z.of_nat (S count)) hist) =
  (length (filter (fun p => p.1 = from) hist) +
   length (filter (fun p => (from + 1 <= p.1 < from + 1 + Z.of_nat count)%Z) hist))%nat.
Proof. apply filter_length_split; intros p; lia. Qed.

Lemma doubled_from_length (hist : list (Z * Z)) (count : nat) (from : Z) :
  length (doubled_from hist from count) =
    (2 * length (filter (fun p => (from <= p.1 < from + Z.of_nat count)%Z) hist))%nat.
Proof.
  revert from. induction count as [|count IH]; intros from.
  - rewrite filter_length_none by (intros p; lia). done.
  - rewrite doubled_from_S, length_app, doubled_length, IH, sources_in_range_length.
    unfold adj_of. rewrite length_fmap. lia.
Qed.

Lemma doubled_from_length_all (hist : list (Z * Z)) (n : Z) :
  Forall (fun p => 0 <= p.1 < n) hist ->
  length (doubled_from hist 0 (Z.to_nat n)) = (2 * length hist)%nat.
Proof.
  intros Hsrc. rewrite doubled_from_length. f_equal.
  apply filter_length_all. eapply Forall_impl; [exact Hsrc|]. intros p Hp.
  cbv beta in *. lia.
Qed.

Lemma elem_of_flat_map {A B : Type} (f : A -> list B) (l : list A) (y : B) :
  y ∈ flat_map f l <-> exists x, x ∈ l /\ y ∈ f x.
Proof.
  rewrite list_elem_of_In, in_flat_map. split; intros (x & Hx & Hy); exists x.
  - by rewrite !list_elem_of_In.
  - by rewrite <- !list_elem_of_In.
Qed.

Lemma elem_of_adj_of (hist : list (Z * Z)) (x d : Z) :
  d ∈ adj_of hist x <-> (x, d) ∈ hist.
Proof.
  unfold adj_of. rewrite list_elem_of_fmap. split.
  - intros ([s d'] & -> & Hp). apply list_elem_of_filter in Hp as [Hs Hp].
    simpl in *. by subst.
  - intros Hp. exists (x, d). split; [done|]. by apply list_elem_of_filter.
Qed.

Lemma elem_of_doubled_from (hist : list (Z * Z)) (n : Z) (a b : Z) :
  0 <= n ->
  (a, b) ∈ doubled_from hist 0 (Z.to_nat n) <->
  ((a, b) ∈ hist /\ 0 <= a < n) \/ ((b, a) ∈ hist /\ 0 <= b < n).
Proof.
  intros Hn. unfold doubled_from, doubled. rewrite elem_of_flat_map. split.
  - intros (i & Hi & Hab). apply elem_of_seqZ in Hi.
    apply elem_of_flat_map in Hab as (d & Hd & Hab). apply elem_of_adj_of in Hd.
    apply list_elem_of_In in Hab. simpl in Hab.
    destruct Hab as [Hab | [Hab | []]]; injection Hab as <- <-; [left | right];
      (split; [done | lia]).
  - intros [[Hab Ha] | [Hab Hb]].
    + exists a. split; [apply elem_of_seqZ; lia|].
      apply elem_of_flat_map. exists b. split; [by apply elem_of_adj_of|].
      apply list_elem_of_In. simpl. tauto.
    + exists b. split; [apply elem_of_seqZ; lia|].
      apply elem_of_flat_map. exists a. split; [by apply elem_of_adj_of|].
      apply list_elem_of_In. simpl. tauto.
Qed.

(* ----------------------------------------------------------------- *)
(** ** Labels *)

Lemma marked_not_unmarked (m : marking) (x : Z) : marked m x -> unmarked m x -> False.
Proof. intros (_ & v & Hv & Hne) (_ & Hu). congruence. Qed.

Lemma marked_in_range (m : marking) (x : Z) :
  marked m x -> (Z.to_nat x < length (visited m))%nat.
Proof. intros (_ & v & Hv & _). by eapply lookup_lt_Some. Qed.

Lemma unmarked_in_range (m : marking) (x : Z) :
  unmarked m x -> (Z.to_nat x < length (visited m))%nat.
Proof. intros (_ & Hv). by eapply lookup_lt_Some. Qed.

Lemma label_dichotomy (m : marking) (x : Z) :
  0 <= x -> (Z.to_nat x < length (visited m))%nat -> marked m x \/ unmarked m x.
Proof.
  intros Hx Hlt. destruct (lookup_lt_is_Some_2 _ _ Hlt) as [v Hv].
  destruct (decide (v = -1)) as [->|Hne]; [by right | left].
  split; [done|]. by exists v.
Qed.

(** A marking that keeps every label that is set has no more unset ones. *)
Lemma unset_count_le (l l' : list Z) :
  length l' = length l ->
  (forall i, l' !! i = Some (-1) -> l !! i = Some (-1)) ->
  (length (filter (fun v => (v = -1)%Z) l') <= length (filter (fun v => (v = -1)%Z) l))%nat.
Proof.
  revert l'. induction l as [|a l IH]; intros [|a' l'] Hlen Hkeep; simpl in Hlen; try done.
  specialize (IH l' ltac:(lia) (fun i => Hkeep (S i))).
  rewrite !filter_cons.
  destruct (decide (a' = -1)) as [->|Ha'].
  - specialize (Hkeep 0%nat eq_refl). simpl in Hkeep. injection Hkeep as ->.
    rewrite decide_True by done. simpl. lia.
  - destruct (decide (a = -1)); simpl; lia.
Qed.

Lemma count_unmarked_le (m m' : marking) :
  length (visited m') = length (visited m) ->
  (forall x, marked m x -> marked m' x) ->
  (count_unmarked m' <= count_unmarked m)%nat.
Proof.
  intros Hlen Hkeep. apply unset_count_le; [done|]. intros i Hi.
  assert (Hlt : (i < length (visited m))%nat) by (rewrite <- Hlen; by eapply lookup_lt_Some).
  destruct (lookup_lt_is_Some_2 _ _ Hlt) as [v Hv].
  destruct (decide (v = -1)) as [->|Hne]; [done|]. exfalso.
  apply (marked_not_unmarked m' (Z.of_nat i)).
  - apply Hkeep. split; [lia|]. exists v. unfold label. by rewrite Nat2Z.id.
  - split; [lia|]. unfold label. by rewrite Nat2Z.id.
Qed.

Lemma count_unmarked_bound (m : marking) : (count_unmarked m <= length (visited m))%nat.
Proof. apply length_filter. Qed.

Lemma unset_count_insert (l : list Z) (i : nat) (c : Z) :
  l !! i = Some (-1) -> c <> -1 ->
  S (length (filter (fun v => v = -1) (<[i := c]> l))) =
  length (filter (fun v => v = -1) l).
Proof.
  revert i. induction l as [|a l IH]; intros [|i] Hi Hc; simpl in *; try done.
  - injection Hi as ->. rewrite !filter_cons. by repeat case_decide.
  - rewrite !filter_cons. destruct (decide (a = -1)); simpl; by rewrite <- (IH i).
Qed.

Section StoreProofs.

Variables (m : marking) (s c : Z).
Hypothesis s_in_range : 0 <= s /\ (Z.to_nat s < length (visited m))%nat.

Let m1 : marking := mk_marking (<[Z.to_nat s := c]> (visited m)) (claimed m ++ [s]).

Lemma mark_store_Ok : mark_store m (node_id s) c = Ok m1.
Proof.
  unfold mark_store, array_at. simpl.
  destruct (lookup_lt_is_Some_2 (visited m) (Z.to_nat s)) as [v Hv]; [lia|].
  by rewrite Hv.
Qed.

Lemma store_label_same : label m1 s = Some c.
Proof. unfold label. simpl. apply list_lookup_insert_eq. lia. Qed.

Lemma store_label_other (x : Z) : 0 <= x -> x <> s -> label m1 x = label m x.
Proof. intros Hx Hne. unfold label. simpl. apply list_lookup_insert_ne. lia. Qed.

Lemma store_length : length (visited m1) = length (visited m).
Proof. simpl. apply length_insert. Qed.

Lemma store_marked_start : c <> -1 -> marked m1 s.
Proof. intros Hc. split; [lia|]. exists c. split; [apply store_label_same | done]. Qed.

Lemma store_keep (x : Z) : c <> -1 -> marked m x -> marked m1 x.
Proof.
  intros Hc Hx. destruct (decide (x = s)) as [->|Hne]; [by apply store_marked_start|].
  destruct Hx as (Hx & v & Hv & Hvne). split; [done|]. exists v.
  by rewrite store_label_other.
Qed.

Lemma store_unmarked (x : Z) : c <> -1 -> unmarked m1 x <-> x <> s /\ unmarked m x.
Proof.
  intros Hc. split.
  - intros Hu. assert (x <> s).
    { intros ->. eapply marked_not_unmarked; [by apply store_marked_start | done]. }
    split; [done|]. destruct Hu as [Hx Hu]. split; [done|]. by rewrite <- store_label_other.
  - intros (Hne & Hx & Hu). split; [done|]. by rewrite store_label_other.
Qed.

Lemma store_count :
  c <> -1 ->
  (count_unmarked m1 <= count_unmarked m)%nat /\
  (unmarked m s -> S (count_unmarked m1) = count_unmarked m).
Proof.
  intros Hc. split.
  - apply count_unmarked_le; [apply store_length | intros x; by apply store_keep].
  - intros (_ & Hu). unfold count_unmarked. simpl. by apply unset_count_insert.
Qed.

End StoreProofs.

(* ----------------------------------------------------------------- *)
(** ** Marking *)

Section MarkProofs.

Variable E : Z -> Z -> Prop.

Lemma marks_along_nil (m : marking) : marks_along E [] m m.
Proof.
  split; try done.
  - intros d Hd. by apply elem_of_nil in Hd.
  - exists []. rewrite app_nil_r. split; [done|]. split; [constructor|].
    intros x. split; [intros Hx; by apply elem_of_nil in Hx|].
    intros [Hu Hm]. exfalso. by eapply marked_not_unmarked.
  - intros x Hu Hm. exfalso. by eapply marked_not_unmarked.
  - intros x y Hu Hm. exfalso. by eapply marked_not_unmarked.
Qed.

Lemma marks_along_skip (d : Z) (ds : list Z) (m m' : marking) :
  marked m d -> marks_along E ds m m' -> marks_along E (d :: ds) m m'.
Proof.
  intros Hd [Hlen Hkeep Hdests Hclaimed Hreach Hclosed]. split; try done.
  - intros d' Hd'. apply elem_of_cons in Hd' as [->|Hd']; [by apply Hkeep | by apply Hdests].
  - intros x Hu Hm. destruct (Hreach x Hu Hm) as (d' & Hd' & Hr).
    exists d'. split; [by apply elem_of_cons; right | done].
Qed.

Lemma marks_along_step (d : Z) (ds : list Z) (m m1 m' : marking) :
  unmarked m d -> marks_from E d m m1 -> marks_along E ds m1 m' ->
  marks_along E (d :: ds) m m'.
Proof.
  intros Hd [Hlen1 Hkeep1 Hstart1 (l1 & Hcl1 & Hnd1 & Hl1) Hreach1 Hclosed1]
             [Hlen2 Hkeep2 Hdests2 (l2 & Hcl2 & Hnd2 & Hl2) Hreach2 Hclosed2].
  assert (Hcase : forall x, unmarked m x -> marked m' x ->
            marked m1 x \/ unmarked m1 x).
  { intros x [Hx _] Hm. apply label_dichotomy; [done|].
    rewrite <- Hlen2. by apply marked_in_range. }
  assert (Hback : forall x, unmarked m1 x -> unmarked m x).
  { intros x Hu. destruct (label_dichotomy m x) as [Hm|Hm]; [by destruct Hu | | | done].
    - rewrite <- Hlen1. by apply unmarked_in_range.
    - exfalso. eapply marked_not_unmarked; [by apply Hkeep1 | done]. }
  assert (Hin1 : forall x, x ∈ d :: l1 -> unmarked m x /\ marked m1 x).
  { intros x Hx. apply elem_of_cons in Hx as [->|Hx]; [done|]. by apply Hl1 in Hx as (_ & ? & ?). }
  split.
  - congruence.
  - auto.
  - intros d' Hd'. apply elem_of_cons in Hd' as [->|Hd']; [by apply Hkeep2 | by apply Hdests2].
  - exists ((d :: l1) ++ l2). split; [by rewrite Hcl2, Hcl1, <- app_assoc|]. split.
    + apply NoDup_app. split; [done|]. split; [|done].
      intros x Hx Hx2. apply Hin1 in Hx as [_ Hx]. apply Hl2 in Hx2 as [Hx2 _].
      by eapply marked_not_unmarked.
    + intros x. rewrite elem_of_app. split.
      * intros [Hx|Hx].
        -- apply Hin1 in Hx as [? ?]. split; [done | by apply Hkeep2].
        -- apply Hl2 in Hx as [? ?]. split; [by apply Hback | done].
      * intros [Hu Hm]. destruct (Hcase x Hu Hm) as [Hm1|Hu1].
        -- left. destruct (decide (x = d)) as [->|Hne]; [by apply elem_of_cons; left|].
           apply elem_of_cons; right. by apply Hl1.
        -- right. by apply Hl2.
  - intros x Hu Hm. destruct (Hcase x Hu Hm) as [Hm1|Hu1].
    + exists d. split; [by apply elem_of_cons; left | by apply Hreach1].
    + destruct (Hreach2 x Hu1 Hm) as (d' & Hd' & Hr).
      exists d'. split; [by apply elem_of_cons; right | done].
  - intros x y Hu Hm Hxy. destruct (Hcase x Hu Hm) as [Hm1|Hu1].
    + apply Hkeep2. apply (Hclosed1 x y); [by right | done].
    + by apply (Hclosed2 x y).
Qed.

Lemma marks_from_store (s c : Z) (ds : list Z) (m m' : marking) :
  0 <= s -> (Z.to_nat s < length (visited m))%nat -> c <> -1 ->
  (forall y, E s y <-> y ∈ ds) ->
  marks_along E ds (mk_marking (<[Z.to_nat s := c]> (visited m)) (claimed m ++ [s])) m' ->
  marks_from E s m m'.
Proof.
  intros Hs Hlt Hc Hds [Hlen Hkeep Hdests (l & Hcl & Hnd & Hl) Hreach Hclosed].
  assert (Hrange : 0 <= s /\ (Z.to_nat s < length (visited m))%nat) by done.
  pose proof (store_marked_start m s c Hrange Hc) as Hstart.
  pose proof (store_unmarked m s c Hrange) as Hun.
  assert (Hl' : forall x, x ∈ l <-> x <> s /\ unmarked m x /\ marked m' x).
  { intros x. rewrite Hl, Hun by done. tauto. }
  split.
  - rewrite Hlen. apply store_length.
  - intros x Hx. apply Hkeep. by apply store_keep.
  - by apply Hkeep.
  - exists l. simpl in Hcl. split; [by rewrite Hcl, <- app_assoc|]. split; [|done].
    apply NoDup_cons. split; [|done]. intros Hin. apply Hl' in Hin. tauto.
  - intros x Hu Hm. destruct (decide (x = s)) as [->|Hne]; [apply rt_refl|].
    destruct (Hreach x) as (d & Hd & Hr); [by apply Hun | done |].
    eapply rt_trans; [apply rt_step, Hds, Hd | done].
  - intros x y Hx Hxy. destruct (decide (x = s)) as [->|Hne].
    + apply Hdests. by apply Hds.
    + destruct Hx as [?|[Hu Hm]]; [done|]. apply (Hclosed x y); [by apply Hun | done | done].
Qed.

End MarkProofs.

Lemma mark_connected_edges_step (recurse : node_id_t -> marking -> outcome marking)
    (walk : nat) (g : graph_raw) (e : edge_id_t) (m : marking) :
  mark_connected_edges recurse (S walk) g (Some e) m =
    let* dst := dst_node g e in
    let* d := value dst in
    let* v := array_at (visited m) d in
    let* m' := (if v =? -1 then recurse dst m else Ok m) in
    let* next := next_edge g e in
    mark_connected_edges recurse walk g next m'.
Proof. done. Qed.

Section DepthFirst.

Variables (max_nodes max_edges : Z) (g : graph_raw) (hist : list (Z * Z)).

Hypothesis Hinv : graph_inv max_nodes max_edges g hist.
Hypothesis Hdst : Forall (fun p => 0 <= p.2 < max_nodes) hist.

Lemma adj_of_in_range (x : Z) : Forall (fun d => 0 <= d < max_nodes) (adj_of hist x).
Proof.
  apply Forall_forall. intros d Hd. apply elem_of_adj_of in Hd.
  by apply (proj1 (Forall_forall _ _) Hdst) in Hd.
Qed.

Lemma mark_connected_edges_spec (depth : nat) (c : Z) :
  c <> -1 ->
  (forall s m, 0 <= s < max_nodes -> length (visited m) = Z.to_nat max_nodes ->
     enough_depth depth m s ->
     exists m', mark_connected depth g (node_id s) m c = Ok m' /\
       marks_from (edge_rel hist) s m m') ->
  forall walk b e ds m,
    lseg (edge_memory (edges g)) b e ds -> (length ds < walk)%nat ->
    Forall (fun d => 0 <= d < max_nodes) ds ->
    length (visited m) = Z.to_nat max_nodes -> (count_unmarked m <= depth)%nat ->
    exists m',
      mark_connected_edges (fun dst m' => mark_connected depth g dst m' c) walk g e m = Ok m' /\
      marks_along (edge_rel hist) ds m m'.
Proof.
  intros Hc IH. induction walk as [|walk IHw]; intros b e ds m Hseg Hwalk Hds Hlen Hcount; [lia|].
  destruct e as [e|].
  - destruct (lseg_step g b e ds Hseg) as (k & d & next & ds' & -> & -> & Hk & Hd & Hn & Hrest).
    inversion Hds as [|? ? Hdr Hds']; subst. simpl in Hwalk.
    rewrite mark_connected_edges_step, Hd. cbn [bind value id node_id].
    destruct (label_dichotomy m d) as [Hm|Hu]; [lia | lia | |].
    + destruct Hm as (? & v & Hv & Hne).
      rewrite (array_at_Ok _ _ _ Hv). cbn [bind].
      rewrite (proj2 (Z.eqb_neq v (-1))) by done. cbn [bind]. rewrite Hn. cbn [bind].
      destruct (IHw k next ds' m Hrest) as (m' & Hrun & Halong); [lia | done | done | done |].
      exists m'. split; [done|]. apply marks_along_skip; [|done].
      split; [done|]. by exists v.
    + pose proof Hu as (_ & Hv).
      rewrite (array_at_Ok _ _ _ Hv). cbn [bind]. rewrite Z.eqb_refl.
      destruct (IH d m Hdr Hlen) as (m1 & -> & Hfrom); [by right|]. cbn [bind].
      rewrite Hn. cbn [bind].
      destruct (IHw k next ds' m1 Hrest) as (m' & Hrun & Halong); [lia | done | | |].
      * rewrite (mf_length _ _ _ _ Hfrom). done.
      * pose proof (count_unmarked_le m m1 (mf_length _ _ _ _ Hfrom) (mf_keep _ _ _ _ Hfrom)).
        lia.
      * exists m'. split; [done|]. by eapply marks_along_step.
  - inversion Hseg; subst. exists m. split; [done|]. apply marks_along_nil.
Qed.

(** [mark_connected] returns, with every node it meets claimed once. *)
Lemma mark_connected_spec (c : Z) (depth : nat) :
  c <> -1 ->
  forall s m, 0 <= s < max_nodes -> length (visited m) = Z.to_nat max_nodes ->
    enough_depth depth m s ->
    exists m', mark_connected depth g (node_id s) m c = Ok m' /\
      marks_from (edge_rel hist) s m m'.
Proof.
  intros Hc. induction depth as [|depth IH]; intros s m Hs Hlen Hdepth.
  - exfalso. destruct Hdepth as [?|[Hu ?]]; [lia|].
    pose proof (unmarked_in_range m s Hu).
    destruct (store_count m s c) as [_ Hcount]; [lia | done |].
    specialize (Hcount Hu). lia.
  - assert (Hrange : 0 <= s /\ (Z.to_nat s < length (visited m))%nat) by lia.
    cbn [mark_connected]. rewrite (mark_store_Ok m s c Hrange). cbn [bind].
    destruct (first_edge_inv max_nodes max_edges g hist s Hinv Hs) as (first & -> & Hseg).
    cbn [bind].
    destruct (store_count m s c Hrange Hc) as [Hle Hone].
    destruct (mark_connected_edges_spec depth c Hc IH (S (length (edge_memory (edges g))))
                _ first (adj_of hist s)
                (mk_marking (<[Z.to_nat s := c]> (visited m)) (claimed m ++ [s])) Hseg)
      as (m' & Hrun & Halong).
    + by eapply adj_of_walkable.
    + apply adj_of_in_range.
    + rewrite (store_length m s c). done.
    + destruct Hdepth as [?|[Hu ?]]; [lia|]. specialize (Hone Hu). lia.
    + exists m'. split; [done|].
      eapply marks_from_store; [lia | lia | done | | done].
      intros y. symmetry. apply elem_of_adj_of.
Qed.

End DepthFirst.

(* ----------------------------------------------------------------- *)
(** ** Connectivity *)

Lemma reach_connected (E : Z -> Z -> Prop) (x y : Z) :
  clos_refl_trans Z E x y -> clos_refl_sym_trans Z E x y.
Proof.
  induction 1 as [x y H | x | x y z _ IH1 _ IH2].
  - by apply rst_step.
  - apply rst_refl.
  - by eapply rst_trans.
Qed.

Lemma closed_under_connected (E : Z -> Z -> Prop) (P : Z -> Prop) :
  (forall x y, E x y -> E y x) -> (forall x y, P x -> E x y -> P y) ->
  forall x y, clos_refl_sym_trans Z E x y -> (P x <-> P y).
Proof.
  intros Hsym Hclosed x y. induction 1 as [x y H | x | x y _ IH | x y z _ IH1 _ IH2].
  - split; intros HP; [by eapply Hclosed | eapply Hclosed; [done | by apply Hsym]].
  - done.
  - by symmetry.
  - by rewrite IH1.
Qed.

Lemma connected_both_ways (E E2 : Z -> Z -> Prop) :
  (forall a b, E2 a b <-> E a b \/ E b a) ->
  forall x y, clos_refl_sym_trans Z E2 x y <-> clos_refl_sym_trans Z E x y.
Proof.
  intros HE x y. split.
  - induction 1 as [x y H | x | x y _ IH | x y z _ IH1 _ IH2].
    + apply HE in H as [H|H]; [by apply rst_step | by apply rst_sym, rst_step].
    + apply rst_refl.
    + by apply rst_sym.
    + by eapply rst_trans.
  - induction 1 as [x y H | x | x y _ IH | x y z _ IH1 _ IH2].
    + apply rst_step, HE. by left.
    + apply rst_refl.
    + by apply rst_sym.
    + by eapply rst_trans.
Qed.

(** A system of representatives is no longer than any list that meets
    every class. *)
Lemma representatives_length {A : Type} (R : A -> A -> Prop) (l l' : list A) :
  NoDup l ->
  (forall x, x ∈ l -> exists y, y ∈ l' /\ R x y) ->
  (forall x x' y, x ∈ l -> x' ∈ l -> R x y -> R x' y -> x = x') ->
  (length l <= length l')%nat.
Proof.
  revert l'. induction l as [|x l IH]; intros l' Hnd Hmeet Hinj; simpl; [lia|].
  apply NoDup_cons in Hnd as [Hx Hnd].
  destruct (Hmeet x) as (y & Hy & Hxy); [by left|].
  apply list_elem_of_split in Hy as (l1 & l2 & ->).
  specialize (IH (l1 ++ l2) Hnd). rewrite length_app in *. simpl.
  enough (length l <= length l1 + length l2)%nat by lia. apply IH.
  - intros x0 Hx0. destruct (Hmeet x0) as (y0 & Hy0 & Hxy0); [by right|].
    exists y0. split; [|done].
    apply elem_of_app in Hy0 as [Hy0|Hy0]; [apply elem_of_app; by left|].
    apply elem_of_cons in Hy0 as [->|Hy0]; [|apply elem_of_app; by right].
    exfalso. apply Hx. rewrite (Hinj x x0 y); [done | by left | by right | done | done].
  - intros x0 x0' y0 Hx0 Hx0'. apply Hinj; by right.
Qed.

(** The number of connected components is determined by the graph. *)
Lemma component_count_unique (N : Z) (ps : list (Z * Z)) (k k' : Z) :
  component_count N ps k -> component_count N ps k' -> k = k'.
Proof.
  assert (Hle : forall k k', component_count N ps k -> component_count N ps k' -> k <= k').
  { clear k k'. intros k k' (reps & Hnd & <- & Hr & Hcov & Hapart)
                          (reps' & Hnd' & <- & Hr' & Hcov' & Hapart').
    apply inj_le. apply (representatives_length (connected ps)); [done | |].
    - intros x Hx. by apply Hcov', Hr.
    - intros x x' y Hx Hx' Hxy Hx'y. apply Hapart; [done | done |].
      eapply rst_trans; [done | by apply rst_sym]. }
  intros H H'. pose proof (Hle _ _ H H'). pose proof (Hle _ _ H' H). lia.
Qed.

Lemma component_count_same_connectivity (N : Z) (ps ps' : list (Z * Z)) (k : Z) :
  (forall x y, connected ps x y <-> connected ps' x y) ->
  component_count N ps k -> component_count N ps' k.
Proof.
  intros Hsame (reps & Hnd & Hk & Hr & Hcov & Hapart). exists reps. split_and!; try done.
  - intros x Hx. destruct (Hcov x Hx) as (r & Hin & Hc). exists r. by rewrite <- Hsame.
  - intros r r' Hin Hin' Hc. apply Hapart; [done | done | by rewrite Hsame].
Qed.

(* ----------------------------------------------------------------- *)
(** ** The scan of [count_connected] *)

Section Scan.

Variables (max_nodes max_edges : Z) (g : graph_raw) (hist : list (Z * Z)).

Hypothesis Hinv : graph_inv max_nodes max_edges g hist.
Hypothesis Hdst : Forall (fun p => 0 <= p.2 < max_nodes) hist.

Lemma visited_init_lookup (i : nat) (v : Z) :
  visited_init max_nodes !! i = Some v -> v = -1.
Proof.
  unfold visited_init. rewrite list_lookup_fmap. destruct (_ !! i); simpl; congruence.
Qed.

Lemma visited_init_unmarked (x : Z) :
  ~ marked (mk_marking (visited_init max_nodes) []) x.
Proof. intros (_ & v & Hv & Hne). apply Hne. by eapply visited_init_lookup. Qed.

Lemma scan_inv_init : scan_inv max_nodes 0 (mk_marking (visited_init max_nodes) []) 0.
Proof.
  split; simpl.
  - unfold visited_init. by rewrite length_fmap, length_replicate.
  - lia.
  - intros x Hx. lia.
  - split; [constructor|]. intros x. split.
    + intros Hx. by apply elem_of_nil in Hx.
    + intros Hx. by apply visited_init_unmarked in Hx.
Qed.

Lemma reps_inv_init (E : Z -> Z -> Prop) :
  reps_inv E 0 (mk_marking (visited_init max_nodes) []) 0 [].
Proof.
  split; simpl; try done.
  - constructor.
  - intros r Hr. by apply elem_of_nil in Hr.
  - intros x Hx. by apply visited_init_unmarked in Hx.
  - intros x y Hx. by apply visited_init_unmarked in Hx.
  - intros r r' Hr. by apply elem_of_nil in Hr.
Qed.

Lemma scan_inv_skip (i : Z) (m : marking) (color : Z) :
  scan_inv max_nodes i m color -> marked m i -> scan_inv max_nodes (i + 1) m color.
Proof.
  intros [Hlen Hcolor Hdone Hclaimed] Hi. split; try done; [lia|].
  intros x Hx. destruct (decide (x = i)) as [->|Hne]; [done | apply Hdone; lia].
Qed.

Lemma reps_inv_skip (E : Z -> Z -> Prop) (i : Z) (m : marking) (color : Z) (reps : list Z) :
  reps_inv E i m color reps -> reps_inv E (i + 1) m color reps.
Proof.
  intros [Hcolor Hnd Hreps Hcov Hclosed Hapart]. split; try done.
  intros r Hr. specialize (Hreps r Hr). lia.
Qed.

Lemma scan_inv_claim (E : Z -> Z -> Prop) (i : Z) (m m' : marking) (color : Z) :
  scan_inv max_nodes i m color -> 0 <= i -> unmarked m i -> marks_from E i m m' ->
  scan_inv max_nodes (i + 1) m' (color + 1).
Proof.
  intros [Hlen Hcolor Hdone [Hnd Hclaimed]] Hi Hu
         [Hlen' Hkeep Hstart (l & Hcl & Hndl & Hl) Hreach Hclosed].
  assert (Hnew : forall x, x ∈ i :: l -> unmarked m x /\ marked m' x).
  { intros x Hx. apply elem_of_cons in Hx as [->|Hx]; [done|]. apply Hl in Hx. tauto. }
  split.
  - congruence.
  - lia.
  - intros x Hx. destruct (decide (x = i)) as [->|Hne]; [done|]. apply Hkeep, Hdone. lia.
  - rewrite Hcl. split.
    + apply NoDup_app. split; [done|]. split; [|done].
      intros x Hx Hx'. apply Hclaimed in Hx. apply Hnew in Hx' as [Hx' _].
      by eapply marked_not_unmarked.
    + intros x. rewrite elem_of_app. split.
      * intros [Hx|Hx]; [by apply Hkeep, Hclaimed | by apply Hnew].
      * intros Hx. destruct (label_dichotomy m x) as [Hm|Hm].
        -- by destruct Hx.
        -- rewrite <- Hlen'. by apply marked_in_range.
        -- left. by apply Hclaimed.
        -- right. destruct (decide (x = i)) as [->|Hne]; [by apply elem_of_cons; left|].
           apply elem_of_cons; right. by apply Hl.
Qed.

Lemma reps_inv_claim (E : Z -> Z -> Prop) (i : Z) (m m' : marking) (color : Z)
    (reps : list Z) :
  (forall x y, E x y -> E y x) ->
  scan_inv max_nodes i m color -> reps_inv E i m color reps ->
  0 <= i -> unmarked m i -> marks_from E i m m' ->
  reps_inv E (i + 1) m' (color + 1) (i :: reps).
Proof.
  intros Hsym [Hlen _ Hdone _] [Hcolor Hnd Hreps Hcov Hcl Hapart] Hi Hu
         [Hlen' Hkeep Hstart _ Hreach Hclosed].
  assert (Hfar : forall r, r ∈ reps -> ~ clos_refl_sym_trans Z E i r).
  { intros r Hr Hc. apply (marked_not_unmarked m i); [|done].
    apply (closed_under_connected E (marked m) Hsym Hcl i r Hc). apply Hdone.
    by apply Hreps. }
  split.
  - simpl. lia.
  - apply NoDup_cons. split; [|done]. intros Hin. specialize (Hreps i Hin). lia.
  - intros r Hr. apply elem_of_cons in Hr as [->|Hr]; [lia|]. specialize (Hreps r Hr). lia.
  - intros x Hx. destruct (label_dichotomy m x) as [Hm|Hm].
    + by destruct Hx.
    + rewrite <- Hlen'. by apply marked_in_range.
    + destruct (Hcov x Hm) as (r & Hr & Hc). exists r. split; [by apply elem_of_cons; right | done].
    + exists i. split; [by apply elem_of_cons; left|].
      apply rst_sym, reach_connected. by apply Hreach.
  - intros x y Hx Hxy. destruct (label_dichotomy m x) as [Hm|Hm].
    + by destruct Hx.
    + rewrite <- Hlen'. by apply marked_in_range.
    + by apply Hkeep, (Hcl x y).
    + apply (Hclosed x y); [by right | done].
  - intros r r' Hr Hr' Hc.
    apply elem_of_cons in Hr as [->|Hr]; apply elem_of_cons in Hr' as [->|Hr']; try done.
    + exfalso. by apply (Hfar r').
    + exfalso. apply (Hfar r); [done | by apply rst_sym].
    + by apply Hapart.
Qed.

Lemma count_connected_loop_spec (remaining : nat) :
  forall i m color,
    scan_inv max_nodes i m color -> 0 <= i ->
    i + Z.of_nat remaining = used_nodes g ->
    exists k m', count_connected_loop remaining i g m color = Ok (k, m') /\
      scan_inv max_nodes (used_nodes g) m' k /\
      ((forall x y, edge_rel hist x y -> edge_rel hist y x) ->
       forall reps, reps_inv (edge_rel hist) i m color reps ->
       exists reps', reps_inv (edge_rel hist) (used_nodes g) m' k reps').
Proof.
  pose proof (inv_used _ _ _ _ Hinv) as Hused.
  pose proof (inv_used_int _ _ _ _ Hinv) as Hint.
  pose proof (inv_max_nodes _ _ _ _ Hinv) as Hmax.
  induction remaining as [|remaining IH]; intros i m color Hscan Hi Hrem.
  - exists color, m. replace (used_nodes g) with i by lia. split; [done|]. split; [done|].
    intros _ reps Hreps. by exists reps.
  - pose proof (si_length _ _ _ _ Hscan) as Hlen.
    pose proof (si_color _ _ _ _ Hscan) as Hcolor.
    cbn [count_connected_loop bind value id node_id].
    unfold size_add. rewrite (wrap_small (i + 1)) by lia.
    destruct (label_dichotomy m i) as [Hm|Hu]; [lia | lia | |].
    + pose proof Hm as (_ & v & Hv & Hne).
      rewrite (array_at_Ok _ _ _ Hv). cbn [bind].
      rewrite (proj2 (Z.eqb_neq v (-1))) by done.
      destruct (IH (i + 1) m color) as (k & m' & Hrun & Hscan' & Hreps');
        [by apply scan_inv_skip | lia | lia |].
      exists k, m'. split; [done|]. split; [done|].
      intros Hsym reps Hreps. apply (Hreps' Hsym reps). by apply reps_inv_skip.
    + pose proof Hu as (_ & Hv).
      rewrite (array_at_Ok _ _ _ Hv). cbn [bind]. rewrite Z.eqb_refl.
      destruct (mark_connected_spec max_nodes max_edges g hist Hinv Hdst color
                  (S (length (visited m))) ltac:(lia) i m) as (m1 & -> & Hfrom).
      * lia.
      * done.
      * left. pose proof (count_unmarked_bound m). lia.
      * cbn [bind]. rewrite int_incr_Ok by lia. cbn [bind].
        destruct (IH (i + 1) m1 (color + 1)) as (k & m' & Hrun & Hscan' & Hreps');
          [by eapply scan_inv_claim | lia | lia |].
        exists k, m'. split; [done|]. split; [done|].
        intros Hsym reps Hreps. apply (Hreps' Hsym (i :: reps)).
        by eapply reps_inv_claim.
Qed.

Lemma count_connected_run_spec :
  exists k m, count_connected_run max_nodes g = Ok (k, m) /\
    scan_inv max_nodes (used_nodes g) m k /\
    ((forall x y, edge_rel hist x y -> edge_rel hist y x) ->
     component_count (used_nodes g) hist k).
Proof.
  pose proof (inv_used _ _ _ _ Hinv) as Hused.
  destruct (count_connected_loop_spec (Z.to_nat (used_nodes g)) 0
              (mk_marking (visited_init max_nodes) []) 0 scan_inv_init)
    as (k & m & Hrun & Hscan & Hreps); [lia | lia |].
  exists k, m. split; [done|]. split; [done|].
  intros Hsym. destruct (Hreps Hsym [] (reps_inv_init _))
    as (reps & [Hcolor Hnd Hr Hcov Hcl Hapart]).
  exists reps. split_and!; try done.
  intros x Hx. apply Hcov. by apply (si_done _ _ _ _ Hscan).
Qed.

End Scan.

(* ----------------------------------------------------------------- *)
(** ** The whole program *)

Lemma INT_MAX_fits : 0 <= INT_MAX < size_t_modulus.
Proof. by vm_compute. Qed.

Lemma number_nonneg (token : string_view) (v : Z) : number token v -> 0 <= v.
Proof. intros (_ & Hd & <- & _). by apply decimal_nonneg. Qed.

Lemma build_inv (max_nodes max_edges n : Z) (ps : list (Z * Z)) (g : graph_raw) :
  0 <= n <= max_nodes -> n <= INT_MAX -> max_nodes < size_t_modulus ->
  0 <= max_edges < size_t_modulus -> Forall (fun p => 0 <= p.1) ps ->
  build max_nodes max_edges n ps = Ok g ->
  used_nodes g = n /\ graph_inv max_nodes max_edges g (reverse ps).
Proof.
  intros Hn Hint Hmn Hme Hps Hrun. unfold build in Hrun.
  destruct (graph_raw_new_inv max_nodes max_edges n Hn Hint Hmn Hme) as (g0 & Hg0 & Hu0 & Hinv0).
  rewrite Hg0 in Hrun. simpl in Hrun.
  destruct (insert_all_inv max_nodes max_edges ps g0 g [] Hinv0 Hps Hrun) as (Hu & Hinv).
  rewrite app_nil_r in Hinv. split; [congruence | done].
Qed.

Lemma max_graph_nodes_graph_text (sc : bool) (input : string_view) (N : Z)
    (ps : list (Z * Z)) :
  graph_text input N ps -> max_graph_nodes sc input = N.
Proof.
  intros (tn & rest & -> & Hn & Hrest). unfold max_graph_nodes. rewrite read_int_v_fst.
  destruct (edge_text_split rest ps Hrest) as (ws & text & -> & Hws & Hend & Htext).
  by rewrite (read_int_number sc tn ws text N).
Qed.

Lemma edges_reachable_inv (max_nodes max_edges : Z) (g : graph_raw) (hist : list (Z * Z))
    (count : nat) :
  graph_inv max_nodes max_edges g hist -> forall from,
  0 <= from -> from + Z.of_nat count <= max_nodes ->
  edges_reachable count from g =
    Ok (Z.of_nat (length (filter (fun p => from <= p.1 < from + Z.of_nat count) hist))).
Proof.
  intros Hinv. induction count as [|count IH]; intros from Hfrom Hcount.
  - rewrite filter_length_none by (intros p; lia). done.
  - cbn [edges_reachable].
    rewrite (fan_out_inv max_nodes max_edges g hist from Hinv) by lia. cbn [bind].
    rewrite IH by lia. cbn [bind]. rewrite sources_in_range_length.
    unfold adj_of. rewrite length_fmap. f_equal. lia.
Qed.

(** The edges of the symmetrized graph are the edges of the text, taken
    both ways. *)
Lemma symmetrized_edges (N : Z) (ps : list (Z * Z)) (a b : Z) :
  0 <= N -> endpoints_below N ps ->
  (a, b) ∈ reverse (doubled_from (reverse ps) 0 (Z.to_nat N)) <->
  (a, b) ∈ ps \/ (b, a) ∈ ps.
Proof.
  intros HN Hps. rewrite elem_of_reverse, elem_of_doubled_from, !elem_of_reverse by done.
  pose proof (proj1 (Forall_forall _ _) Hps) as Hin.
  split.
  - tauto.
  - intros [H|H]; [left | right]; (split; [done|]); apply Hin in H; simpl in H; lia.
Qed.

Lemma pipeline_spec (sc : bool) (input : string_view) (N : Z) (ps : list (Z * Z)) :
  well_formed input N ps ->
  exists g g2 k m,
    max_graph_nodes sc input = N /\
    max_graph_edges input = Ok (2 * Z.of_nat (length ps) + 1) /\
    read_graph N (2 * Z.of_nat (length ps) + 1) sc input = Ok g /\
    used_nodes g = N /\
    graph_inv N (2 * Z.of_nat (length ps) + 1) g (reverse ps) /\
    double_up_edges N (2 * Z.of_nat (length ps) + 1) g = Ok g2 /\
    used_nodes g2 = N /\
    graph_inv N (2 * Z.of_nat (length ps) + 1) g2
      (reverse (doubled_from (reverse ps) 0 (Z.to_nat N))) /\
    count_connected_run N g2 = Ok (k, m) /\
    scan_inv N N m k /\
    component_count N ps k /\
    connected_subgraphs sc input = Ok k.
Proof.
  intros (Htext & Hps & Hint & Hwords).
  pose proof INT_MAX_fits as Hfits.
  assert (HN : 0 <= N).
  { destruct Htext as (tn & rest & _ & Hn & _). by eapply number_nonneg. }
  set (cap := 2 * Z.of_nat (length ps) + 1) in *.
  pose proof (max_graph_nodes_graph_text sc input N ps Htext) as Hmn.
  assert (Hme : max_graph_edges input = Ok cap)
    by apply (count_words_graph_text input N ps Htext Hwords).
  destruct (read_graph_inv N cap sc input N ps Htext Hps) as (g & Hg & Hu & Hinv);
    [lia | lia | lia | lia | lia |].
  (* symmetrization *)
  pose proof (double_up_edges_insert_all N cap g (reverse ps) Hinv) as Hdouble.
  unfold get_num_nodes in Hdouble. rewrite Hu in Hdouble.
  destruct (graph_raw_new_inv N cap N) as (fresh & Hfresh & Huf & Hinvf); [lia | lia | lia | lia |].
  rewrite Hfresh in Hdouble. cbn [bind] in Hdouble.
  assert (Hsrc : Forall (fun p => 0 <= p.1 < N) (reverse ps)).
  { apply Forall_forall. intros p Hp. rewrite elem_of_reverse in Hp.
    apply (proj1 (Forall_forall _ _) Hps) in Hp. tauto. }
  destruct (insert_all_Ok N cap (doubled_from (reverse ps) 0 (Z.to_nat N)) fresh [] Hinvf)
    as (g2 & Hg2 & Hu2 & Hinv2).
  { apply Forall_forall. intros [a b] Hab. simpl.
    apply elem_of_doubled_from in Hab; [|done].
    rewrite !elem_of_reverse in Hab.
    pose proof (proj1 (Forall_forall _ _) Hps) as Hin.
    destruct Hab as [[H _]|[H _]]; apply Hin in H; simpl in H; lia. }
  { rewrite (doubled_from_length_all _ N Hsrc), length_reverse. simpl. lia. }
  rewrite app_nil_r in Hinv2. rewrite Hg2 in Hdouble.
  (* counting *)
  set (hist2 := reverse (doubled_from (reverse ps) 0 (Z.to_nat N))) in *.
  assert (Hedges : forall a b, edge_rel hist2 a b <-> edge_rel ps a b \/ edge_rel ps b a).
  { intros a b. by apply symmetrized_edges. }
  assert (Hdst2 : Forall (fun p => 0 <= p.2 < N) hist2).
  { apply Forall_forall. intros [a b] Hab. apply Hedges in Hab. simpl.
    pose proof (proj1 (Forall_forall _ _) Hps) as Hin.
    destruct Hab as [H|H]; apply Hin in H; simpl in H; lia. }
  destruct (count_connected_run_spec N cap g2 hist2 Hinv2 Hdst2) as (k & m & Hrun & Hscan & Hcount).
  rewrite Hu2, Huf in Hscan, Hcount.
  assert (Hk : component_count N ps k).
  { apply (component_count_same_connectivity N hist2 ps).
    - intros x y. by apply connected_both_ways.
    - apply Hcount. intros x y Hxy. apply Hedges. apply Hedges in Hxy. tauto. }
  exists g, g2, k, m. split_and!; try done; try congruence.
  unfold connected_subgraphs, count_connected.
  rewrite Hmn, Hme. cbn [bind]. rewrite Hg. cbn [bind]. rewrite Hdouble. cbn [bind].
  by rewrite Hrun.
Qed.

(* ================================================================= *)
(** * The claims *)

(** C1. For every well-formed input text with node count [N] and edge
    pairs [ps], [read_graph], then [double_up_edges], then
    [count_connected] return a non-negative integer, the number of
    connected components of the undirected closure of the graph. *)
Theorem connected_subgraphs_counts_components (sc : bool) (input : string_view) (N : Z)
    (ps : list (Z * Z)) :
  well_formed input N ps ->
  exists k, connected_subgraphs sc input = Ok k /\ 0 <= k /\ component_count N ps k.
Proof.
  intros Hwf.
  destruct (pipeline_spec sc input N ps Hwf)
    as (g & g2 & k & m & _ & _ & _ & _ & _ & _ & _ & _ & _ & Hscan & Hk & Hrun).
  exists k. split; [done|]. split; [|done].
  pose proof (si_color _ _ _ _ Hscan). lia.
Qed.

(** C3. For a text that describes [N] nodes and the directed edges [ps],
    [read_graph] returns a graph with exactly [N] nodes, and traversing
    every node's adjacency list meets exactly [length ps] edges. *)
Theorem read_graph_nodes_and_edges (sc : bool) (input : string_view) (N : Z)
    (ps : list (Z * Z)) :
  well_formed input N ps ->
  exists capacity g,
    max_graph_edges input = Ok capacity /\
    read_graph (max_graph_nodes sc input) capacity sc input = Ok g /\
    get_num_nodes g = N /\
    edges_reachable (Z.to_nat N) 0 g = Ok (Z.of_nat (length ps)).
Proof.
  intros Hwf.
  destruct (pipeline_spec sc input N ps Hwf)
    as (g & g2 & k & m & Hmn & Hme & Hg & Hu & Hinv & _).
  destruct Hwf as (_ & Hps & _ & _).
  exists (2 * Z.of_nat (length ps) + 1), g. rewrite Hmn. split_and!; try done.
  pose proof (inv_max_nodes _ _ _ _ Hinv).
  rewrite (edges_reachable_inv _ _ g (reverse ps) _ Hinv) by lia.
  rewrite filter_length_all, length_reverse; [done|].
  apply Forall_forall. intros p Hp. rewrite elem_of_reverse in Hp.
  apply (proj1 (Forall_forall _ _) Hps) in Hp. lia.
Qed.

Lemma connected_swap (ps : list (Z * Z)) (x y : Z) :
  connected (swap_pair <$> ps) x y <-> connected ps x y.
Proof.
  assert (Hflip : forall a b, edge_rel (swap_pair <$> ps) a b <-> edge_rel ps b a).
  { intros a b. unfold edge_rel. rewrite list_elem_of_fmap. split.
    - intros ([c d] & Heq & Hin). unfold swap_pair in Heq. simpl in Heq.
      by injection Heq as -> ->.
    - intros Hin. by exists (b, a). }
  unfold connected. split.
  - induction 1 as [x y H | x | x y _ IH | x y z _ IH1 _ IH2].
    + apply rst_sym, rst_step. by apply Hflip.
    + apply rst_refl.
    + by apply rst_sym.
    + by eapply rst_trans.
  - induction 1 as [x y H | x | x y _ IH | x y z _ IH1 _ IH2].
    + apply rst_sym, rst_step. by apply Hflip.
    + apply rst_refl.
    + by apply rst_sym.
    + by eapply rst_trans.
Qed.

(** C6. Reversing every edge of a well-formed input leaves the component
    count unchanged. *)
Theorem component_count_direction_invariant (sc : bool) (input input' : string_view)
    (N : Z) (ps : list (Z * Z)) :
  well_formed input N ps ->
  well_formed input' N (swap_pair <$> ps) ->
  exists k, connected_subgraphs sc input = Ok k /\ connected_subgraphs sc input' = Ok k.
Proof.
  intros Hwf Hwf'.
  destruct (pipeline_spec sc input N ps Hwf)
    as (g & g2 & k & m & _ & _ & _ & _ & _ & _ & _ & _ & _ & _ & Hk & Hrun).
  destruct (pipeline_spec sc input' N _ Hwf')
    as (g' & g2' & k' & m' & _ & _ & _ & _ & _ & _ & _ & _ & _ & _ & Hk' & Hrun').
  exists k. split; [done|]. rewrite Hrun'. f_equal.
  apply (component_count_unique N ps); [|done].
  apply (component_count_same_connectivity N (swap_pair <$> ps) ps); [|done].
  intros x y. apply connected_swap.
Qed.

(** C4. The traversal of a node's adjacency list meets the destinations
    in the reverse of the order in which the edges were inserted; after
    [add_edge(s, a)] then [add_edge(s, d)] it meets [d], then [a], then
    what was there before. *)
Theorem fan_out_reverses_insertion (max_nodes max_edges n : Z) (g : graph_raw)
    (ps : list (Z * Z)) (s : Z) :
  0 <= n <= max_nodes -> n <= INT_MAX ->
  max_nodes < size_t_modulus -> 0 <= max_edges < size_t_modulus ->
  Forall (fun p => 0 <= p.1) ps ->
  build max_nodes max_edges n ps = Ok g ->
  0 <= s < max_nodes ->
  fan_out g (node_id s) = Ok (reverse (dests s ps)) /\
  forall before a d, ps = before ++ [(s, a); (s, d)] ->
    fan_out g (node_id s) = Ok (d :: a :: reverse (dests s before)).
Proof.
  intros Hn Hint Hmn Hme Hps Hbuild Hs.
  destruct (build_inv max_nodes max_edges n ps g Hn Hint Hmn Hme Hps Hbuild) as (_ & Hinv).
  assert (Hfan : fan_out g (node_id s) = Ok (reverse (dests s ps))).
  { rewrite (fan_out_inv max_nodes max_edges g (reverse ps) s Hinv Hs).
    by rewrite adj_of_reverse. }
  split; [done|]. intros before a d ->. rewrite Hfan. f_equal.
  unfold dests. rewrite filter_app, fmap_app, reverse_app. simpl.
  rewrite !filter_cons. simpl. rewrite !decide_True by done. done.
Qed.

(** C7. [double_up_edges] returns a new graph with the same node count,
    built from a fresh graph by inserting [s -> d] and [d -> s] for every
    edge [s -> d] met on the original's adjacency lists; every edge of the
    new graph comes from such an insertion, and the original, which the
    function only reads, still has the adjacency lists it had. *)
Theorem double_up_edges_builds_symmetric_copy (max_nodes max_edges n : Z)
    (ps : list (Z * Z)) (g : graph_raw) :
  0 <= n <= max_nodes -> n <= INT_MAX -> max_nodes < size_t_modulus ->
  0 <= max_edges < size_t_modulus ->
  Forall (fun p => (0 <= p.1 < n) /\ (0 <= p.2 < max_nodes)) ps ->
  2 * Z.of_nat (length ps) <= max_edges ->
  build max_nodes max_edges n ps = Ok g ->
  exists g2,
    double_up_edges max_nodes max_edges g = Ok g2 /\
    get_num_nodes g2 = get_num_nodes g /\
    build max_nodes max_edges (get_num_nodes g)
      (doubled_from (reverse ps) 0 (Z.to_nat (get_num_nodes g))) = Ok g2 /\
    (forall s d, (s, d) ∈ ps ->
       (s, d) ∈ doubled_from (reverse ps) 0 (Z.to_nat (get_num_nodes g)) /\
       (d, s) ∈ doubled_from (reverse ps) 0 (Z.to_nat (get_num_nodes g)) /\
       exists out_s out_d,
         fan_out g2 (node_id s) = Ok out_s /\ d ∈ out_s /\
         fan_out g2 (node_id d) = Ok out_d /\ s ∈ out_d) /\
    (forall x y out, 0 <= x < max_nodes ->
       fan_out g2 (node_id x) = Ok out -> y ∈ out -> (x, y) ∈ ps \/ (y, x) ∈ ps) /\
    (forall x, 0 <= x < max_nodes -> fan_out g (node_id x) = Ok (reverse (dests x ps))).
Proof.
  intros Hn Hint Hmn Hme Hps Hroom Hbuild.
  pose proof (proj1 (Forall_forall _ _) Hps) as Hin.
  destruct (build_inv max_nodes max_edges n ps g Hn Hint Hmn Hme) as (Hu & Hinv); [|done|].
  { apply Forall_forall. intros p Hp. apply Hin in Hp. lia. }
  pose proof (double_up_edges_insert_all max_nodes max_edges g (reverse ps) Hinv) as Hdouble.
  unfold get_num_nodes in *. rewrite Hu in *.
  destruct (graph_raw_new_inv max_nodes max_edges n Hn Hint Hmn Hme)
    as (fresh & Hfresh & Huf & Hinvf).
  assert (Hmem : forall a b, (a, b) ∈ doubled_from (reverse ps) 0 (Z.to_nat n) <->
                   (a, b) ∈ ps \/ (b, a) ∈ ps).
  { intros a b. rewrite elem_of_doubled_from, !elem_of_reverse by lia. split; [tauto|].
    intros [H|H]; [left | right]; (split; [done|]); apply Hin in H; simpl in H; lia. }
  destruct (insert_all_Ok max_nodes max_edges (doubled_from (reverse ps) 0 (Z.to_nat n))
              fresh [] Hinvf) as (g2 & Hg2 & Hu2 & Hinv2).
  { apply Forall_forall. intros [a b] Hab. simpl. apply Hmem in Hab.
    destruct Hab as [H|H]; apply Hin in H; simpl in H; lia. }
  { rewrite doubled_from_length_all, length_reverse; [simpl; lia|].
    apply Forall_forall. intros p Hp. rewrite elem_of_reverse in Hp. apply Hin in Hp. lia. }
  rewrite app_nil_r in Hinv2.
  assert (Hfan2 : forall x y, 0 <= x < max_nodes ->
            exists out, fan_out g2 (node_id x) = Ok out /\
              (y ∈ out <-> (x, y) ∈ ps \/ (y, x) ∈ ps)).
  { intros x y Hx. eexists. split; [by apply (fan_out_inv max_nodes max_edges g2 _ x Hinv2)|].
    by rewrite elem_of_adj_of, elem_of_reverse, Hmem. }
  exists g2. split_and!.
  - rewrite Hdouble, Hfresh. done.
  - congruence.
  - unfold build. rewrite Hfresh. done.
  - intros s d Hsd. split_and!; [apply Hmem; by left | apply Hmem; by right |].
    pose proof (Hin _ Hsd) as Hr. simpl in Hr.
    destruct (Hfan2 s d) as (out_s & Hs & Hs'); [lia|].
    destruct (Hfan2 d s) as (out_d & Hd & Hd'); [lia|].
    exists out_s, out_d. split_and!; [done | apply Hs'; by left | done | apply Hd'; by right].
  - intros x y out Hx Hout Hy. destruct (Hfan2 x y Hx) as (out' & Hout' & Hiff).
    rewrite Hout in Hout'. injection Hout' as <-. by apply Hiff.
  - intros x Hx. rewrite (fan_out_inv max_nodes max_edges g (reverse ps) x Hinv Hx).
    by rewrite adj_of_reverse.
Qed.

(** C9. On every graph built by the constructor and [add_edge], cycles and
    self-loops included, [mark_connected] returns as soon as the recursion
    may go as deep as there are unvisited nodes, and during one run of
    [count_connected] every node is claimed exactly once. *)
Theorem mark_connected_terminates_claiming_once (max_nodes max_edges n : Z)
    (ps : list (Z * Z)) (g : graph_raw) :
  0 <= n <= max_nodes -> n <= INT_MAX -> max_nodes < size_t_modulus ->
  0 <= max_edges < size_t_modulus ->
  Forall (fun p => 0 <= p.1 /\ (0 <= p.2 < max_nodes)) ps ->
  build max_nodes max_edges n ps = Ok g ->
  (forall depth s m color,
     0 <= s < max_nodes -> length (visited m) = Z.to_nat max_nodes -> 0 <= color ->
     (count_unmarked m < depth)%nat ->
     exists m', mark_connected depth g (node_id s) m color = Ok m') /\
  (exists k m, count_connected_run max_nodes g = Ok (k, m) /\
     NoDup (claimed m) /\
     (forall x, 0 <= x < n -> x ∈ claimed m) /\
     (forall x, x ∈ claimed m -> 0 <= x < max_nodes)).
Proof.
  intros Hn Hint Hmn Hme Hps Hbuild.
  pose proof (proj1 (Forall_forall _ _) Hps) as Hin.
  destruct (build_inv max_nodes max_edges n ps g Hn Hint Hmn Hme) as (Hu & Hinv); [|done|].
  { apply Forall_forall. intros p Hp. apply Hin in Hp. lia. }
  assert (Hdst : Forall (fun p => 0 <= p.2 < max_nodes) (reverse ps)).
  { apply Forall_forall. intros p Hp. rewrite elem_of_reverse in Hp. apply Hin in Hp. lia. }
  split.
  - intros depth s m color Hs Hlen Hcolor Hdepth.
    destruct (mark_connected_spec max_nodes max_edges g (reverse ps) Hinv Hdst color depth
                ltac:(lia) s m Hs Hlen) as (m' & Hrun & _); [by left|].
    by exists m'.
  - destruct (count_connected_run_spec max_nodes max_edges g (reverse ps) Hinv Hdst)
      as (k & m & Hrun & [Hlen Hcolor Hdone [Hnd Hclaimed]] & _).
    exists k, m. split_and!; try done.
    + intros x Hx. apply Hclaimed, Hdone. lia.
    + intros x Hx. apply Hclaimed in Hx. pose proof (marked_in_range m x Hx).
      destruct Hx as [? _]. lia.
Qed.

(** C10. For every well-formed input the [M] allocations of [read_graph]
    and the [2 * M] allocations of [double_up_edges] stay within the
    capacity [count_words(text)] of the edge arena and every node access
    of [add_edge] stays within the node array: both constructions are
    sequences of [add_edge] calls that all return, no [out_of_range]
    branch being taken. *)
Theorem construction_stays_in_bounds (sc : bool) (input : string_view) (N : Z)
    (ps : list (Z * Z)) :
  well_formed input N ps ->
  exists capacity g g2,
    max_graph_edges input = Ok capacity /\
    read_graph (max_graph_nodes sc input) capacity sc input = Ok g /\
    double_up_edges (max_graph_nodes sc input) capacity g = Ok g2 /\
    (* the calls of add_edge made, all of which return *)
    build (max_graph_nodes sc input) capacity N ps = Ok g /\
    build (max_graph_nodes sc input) capacity N
      (doubled_from (reverse ps) 0 (Z.to_nat N)) = Ok g2 /\
    length (doubled_from (reverse ps) 0 (Z.to_nat N)) = (2 * length ps)%nat /\
    (* the arrays and the counters *)
    Z.of_nat (length (edge_memory (edges g))) = capacity /\
    Z.of_nat (length (edge_memory (edges g2))) = capacity /\
    Z.of_nat (length (nodes g)) = N /\ Z.of_nat (length (nodes g2)) = N /\
    Forall (fun p => 0 <= p.1 < N) ps /\
    Forall (fun p => 0 <= p.1 < N) (doubled_from (reverse ps) 0 (Z.to_nat N)) /\
    next_available (edges g) = Z.of_nat (length ps) /\
    next_available (edges g2) = 2 * Z.of_nat (length ps) /\
    2 * Z.of_nat (length ps) <= capacity.
Proof.
  intros Hwf.
  destruct (pipeline_spec sc input N ps Hwf)
    as (g & g2 & k & m & Hmn & Hme & Hg & Hu & Hinv & Hg2 & Hu2 & Hinv2 & _).
  destruct Hwf as (Htext & Hps & _ & _).
  pose proof (proj1 (Forall_forall _ _) Hps) as Hin.
  assert (Hsrc : Forall (fun p => 0 <= p.1 < N) (reverse ps)).
  { apply Forall_forall. intros p Hp. rewrite elem_of_reverse in Hp. apply Hin in Hp. lia. }
  pose proof (doubled_from_length_all _ N Hsrc) as Hlen. rewrite length_reverse in Hlen.
  pose proof (read_graph_insert_all N (2 * Z.of_nat (length ps) + 1) sc input N ps Htext)
    as Hread.
  pose proof (double_up_edges_insert_all N _ g (reverse ps) Hinv) as Hdouble.
  unfold get_num_nodes in Hdouble. rewrite Hu in Hdouble.
  pose proof (inv_max_nodes _ _ _ _ Hinv) as HN.
  exists (2 * Z.of_nat (length ps) + 1), g, g2. rewrite Hmn.
  destruct Hinv as [Hnl Hml Hmax Hcap _ _ Hnext _ _ _].
  destruct Hinv2 as [Hnl2 Hml2 _ _ _ _ Hnext2 _ _ _].
  rewrite length_reverse in Hnext, Hnext2. rewrite Hlen in Hnext2.
  split_and!; try done; try lia.
  - unfold build. by rewrite <- Hread.
  - unfold build. by rewrite <- Hdouble.
  - apply Forall_forall. intros p Hp. apply Hin in Hp. lia.
  - apply Forall_forall. intros [a b] Hab. simpl.
    apply elem_of_doubled_from in Hab; [|lia]. rewrite !elem_of_reverse in Hab.
    destruct Hab as [[H _]|[H _]]; apply Hin in H; simpl in H; lia.
Qed.

(* ================================================================= *)
(** * The claims on concrete inputs *)

Lemma INT_MAX_value : INT_MAX = 2147483647.
Proof. reflexivity. Qed.

Lemma size_t_modulus_value : size_t_modulus = 18446744073709551616.
Proof. reflexivity. Qed.

Ltac sizes := rewrite ?INT_MAX_value, ?size_t_modulus_value; simpl; lia.

Ltac is_number :=
  split; [discriminate | split; [repeat constructor | split; reflexivity]].

(** The first scenario of the specification: [4  0 1  2 3]. *)
Lemma two_pairs_graph_text : graph_text (text "4  0 1  2 3") 4 [(0, 1); (2, 3)].
Proof.
  exists (text "4"), (text "  0 1  2 3"). split; [reflexivity|]. split; [is_number|].
  apply (edge_text_pair _ (text "  ") (text "0") (text " ") (text "1") (text "  2 3") 0 1);
    [reflexivity | discriminate | repeat constructor | is_number
     | discriminate | repeat constructor | is_number |].
  apply (edge_text_pair _ (text "  ") (text "2") (text " ") (text "3") (text "") 2 3);
    [reflexivity | discriminate | repeat constructor | is_number
     | discriminate | repeat constructor | is_number |].
  apply edge_text_end. constructor.
Qed.

Lemma two_pairs_well_formed : well_formed (text "4  0 1  2 3") 4 [(0, 1); (2, 3)].
Proof.
  split; [apply two_pairs_graph_text|]. split; [repeat constructor; simpl; lia|].
  split; sizes.
Qed.

(** The same graph with every edge reversed: [4  1 0  3 2]. *)
Lemma two_pairs_reversed_well_formed :
  well_formed (text "4  1 0  3 2") 4 (swap_pair <$> [(0, 1); (2, 3)]).
Proof.
  split; [|split; [repeat constructor; simpl; lia | split; sizes]].
  exists (text "4"), (text "  1 0  3 2"). split; [reflexivity|]. split; [is_number|].
  apply (edge_text_pair _ (text "  ") (text "1") (text " ") (text "0") (text "  3 2") 1 0);
    [reflexivity | discriminate | repeat constructor | is_number
     | discriminate | repeat constructor | is_number |].
  apply (edge_text_pair _ (text "  ") (text "3") (text " ") (text "2") (text "") 3 2);
    [reflexivity | discriminate | repeat constructor | is_number
     | discriminate | repeat constructor | is_number |].
  apply edge_text_end. constructor.
Qed.

Lemma connected_subgraphs_counts_components_witness :
  well_formed (text "4  0 1  2 3") 4 [(0, 1); (2, 3)] /\
  exists k, connected_subgraphs true (text "4  0 1  2 3") = Ok k /\ 0 <= k /\
    component_count 4 [(0, 1); (2, 3)] k.
Proof.
  split; [apply two_pairs_well_formed|].
  apply (connected_subgraphs_counts_components true (text "4  0 1  2 3") 4 [(0, 1); (2, 3)]).
  apply two_pairs_well_formed.
Defined.

(** C2, as stated, fails: for the two edge pairs of [4  0 1  2 3] the
    capacity is 5, not 2. *)
Lemma max_graph_edges_is_not_pair_count :
  graph_text (text "4  0 1  2 3") 4 [(0, 1); (2, 3)] /\
  max_graph_edges (text "4  0 1  2 3") = Ok 5 /\
  max_graph_edges (text "4  0 1  2 3") <> Ok (Z.of_nat (length [(0, 1); (2, 3)])).
Proof. split; [apply two_pairs_graph_text|]. split; [reflexivity | discriminate]. Qed.

Lemma max_graph_edges_counts_all_words_witness :
  graph_text (text "4  0 1  2 3") 4 [(0, 1); (2, 3)] /\
  max_graph_edges (text "4  0 1  2 3") = Ok (2 * Z.of_nat (length [(0, 1); (2, 3)]) + 1).
Proof.
  split; [apply two_pairs_graph_text|].
  apply (max_graph_edges_counts_all_words (text "4  0 1  2 3") 4 [(0, 1); (2, 3)]).
  - apply two_pairs_graph_text.
  - sizes.
Defined.

Lemma read_graph_nodes_and_edges_witness :
  well_formed (text "4  0 1  2 3") 4 [(0, 1); (2, 3)] /\
  exists capacity g,
    max_graph_edges (text "4  0 1  2 3") = Ok capacity /\
    read_graph (max_graph_nodes true (text "4  0 1  2 3")) capacity true
      (text "4  0 1  2 3") = Ok g /\
    get_num_nodes g = 4 /\
    edges_reachable (Z.to_nat 4) 0 g = Ok (Z.of_nat (length [(0, 1); (2, 3)])).
Proof.
  split; [apply two_pairs_well_formed|].
  apply (read_graph_nodes_and_edges true (text "4  0 1  2 3") 4 [(0, 1); (2, 3)]).
  apply two_pairs_well_formed.
Defined.

Lemma fan_out_reverses_insertion_witness :
  exists g, build 2 2 2 [(0, 1); (0, 0)] = Ok g /\
    fan_out g (node_id 0) = Ok (reverse (dests 0 [(0, 1); (0, 0)])) /\
    forall before a d, [(0, 1); (0, 0)] = before ++ [(0, a); (0, d)] ->
      fan_out g (node_id 0) = Ok (d :: a :: reverse (dests 0 before)).
Proof.
  eexists. split; [reflexivity|].
  apply (fan_out_reverses_insertion 2 2 2 _ [(0, 1); (0, 0)] 0);
    [sizes | sizes | sizes | sizes | repeat constructor; simpl; lia | reflexivity | sizes].
Defined.

Lemma component_count_direction_invariant_witness :
  well_formed (text "4  0 1  2 3") 4 [(0, 1); (2, 3)] /\
  well_formed (text "4  1 0  3 2") 4 (swap_pair <$> [(0, 1); (2, 3)]) /\
  exists k, connected_subgraphs true (text "4  0 1  2 3") = Ok k /\
            connected_subgraphs true (text "4  1 0  3 2") = Ok k.
Proof.
  split; [apply two_pairs_well_formed|]. split; [apply two_pairs_reversed_well_formed|].
  apply (component_count_direction_invariant true _ _ 4 [(0, 1); (2, 3)]).
  - apply two_pairs_well_formed.
  - apply two_pairs_reversed_well_formed.
Defined.

Lemma double_up_edges_builds_symmetric_copy_witness :
  exists g, build 3 4 3 [(0, 1); (2, 2)] = Ok g /\
  exists g2,
    double_up_edges 3 4 g = Ok g2 /\
    get_num_nodes g2 = get_num_nodes g /\
    build 3 4 (get_num_nodes g)
      (doubled_from (reverse [(0, 1); (2, 2)]) 0 (Z.to_nat (get_num_nodes g))) = Ok g2 /\
    (forall s d, (s, d) ∈ [(0, 1); (2, 2)] ->
       (s, d) ∈ doubled_from (reverse [(0, 1); (2, 2)]) 0 (Z.to_nat (get_num_nodes g)) /\
       (d, s) ∈ doubled_from (reverse [(0, 1); (2, 2)]) 0 (Z.to_nat (get_num_nodes g)) /\
       exists out_s out_d,
         fan_out g2 (node_id s) = Ok out_s /\ d ∈ out_s /\
         fan_out g2 (node_id d) = Ok out_d /\ s ∈ out_d) /\
    (forall x y out, 0 <= x < 3 ->
       fan_out g2 (node_id x) = Ok out -> y ∈ out ->
       (x, y) ∈ [(0, 1); (2, 2)] \/ (y, x) ∈ [(0, 1); (2, 2)]) /\
    (forall x, 0 <= x < 3 ->
       fan_out g (node_id x) = Ok (reverse (dests x [(0, 1); (2, 2)]))).
Proof.
  eexists. split; [reflexivity|].
  apply (double_up_edges_builds_symmetric_copy 3 4 3 [(0, 1); (2, 2)]);
    [sizes | sizes | sizes | sizes | repeat constructor; simpl; lia | sizes | reflexivity].
Defined.

(** C8, as stated, fails: in an arena of one record the second allocation
    throws and leaves the counter at 2. *)
Lemma alloc_edge_counter_passes_capacity :
  (alloc_edge (alloc_edge (edge_storage [edge_default] 0) (node_id 0) None).1
              (node_id 0) None).2 = Fail out_of_range /\
  ~ (next_available
       (alloc_edge (alloc_edge (edge_storage [edge_default] 0) (node_id 0) None).1
                   (node_id 0) None).1
     <= Z.of_nat (length (edge_memory
       (alloc_edge (alloc_edge (edge_storage [edge_default] 0) (node_id 0) None).1
                   (node_id 0) None).1))).
Proof. split; [reflexivity|]. vm_compute. intros H. by apply H. Qed.

Lemma alloc_edge_capacity_witness :
  length (edge_memory (alloc_edge (edge_storage [edge_default] 0) (node_id 0) None).1) =
    length (edge_memory (edge_storage [edge_default] 0)) /\
  (alloc_edge (edge_storage [edge_default] 0) (node_id 0) None).2 = Ok (edge_id 0) /\
  next_available (alloc_edge (edge_storage [edge_default] 0) (node_id 0) None).1 <= 1.
Proof.
  destruct (alloc_edge_capacity (edge_storage [edge_default] 0) (node_id 0) None)
    as (Hlen & Hfree & _); [sizes | simpl; lia |].
  destruct Hfree as (Hok & _ & _ & Hle); [simpl; lia|].
  split; [exact Hlen|]. split; [exact Hok | exact Hle].
Defined.

Lemma mark_connected_terminates_claiming_once_witness :
  exists g, build 3 4 3 [(0, 1); (1, 0); (2, 2)] = Ok g /\
  (forall depth s m color,
     0 <= s < 3 -> length (visited m) = Z.to_nat 3 -> 0 <= color ->
     (count_unmarked m < depth)%nat ->
     exists m', mark_connected depth g (node_id s) m color = Ok m') /\
  (exists k m, count_connected_run 3 g = Ok (k, m) /\
     NoDup (claimed m) /\
     (forall x, 0 <= x < 3 -> x ∈ claimed m) /\
     (forall x, x ∈ claimed m -> 0 <= x < 3)).
Proof.
  eexists. split; [reflexivity|].
  apply (mark_connected_terminates_claiming_once 3 4 3 [(0, 1); (1, 0); (2, 2)]);
    [sizes | sizes | sizes | sizes | repeat constructor; simpl; lia | reflexivity].
Defined.

Lemma construction_stays_in_bounds_witness :
  well_formed (text "4  0 1  2 3") 4 [(0, 1); (2, 3)] /\
  exists capacity g g2,
    max_graph_edges (text "4  0 1  2 3") = Ok capacity /\
    read_graph (max_graph_nodes true (text "4  0 1  2 3")) capacity true
      (text "4  0 1  2 3") = Ok g /\
    double_up_edges (max_graph_nodes true (text "4  0 1  2 3")) capacity g = Ok g2 /\
    2 * Z.of_nat (length [(0, 1); (2, 3)]) <= capacity.
Proof.
  split; [apply two_pairs_well_formed|].
  destruct (construction_stays_in_bounds true (text "4  0 1  2 3") 4 [(0, 1); (2, 3)]
              two_pairs_well_formed)
    as (capacity & g & g2 & Hcap & Hg & Hg2 & _ & _ & _ & _ & _ & _ & _ & _ & _ & _ & _ & Hroom).
  exists capacity, g, g2. split; [exact Hcap|]. split; [exact Hg|]. split; [exact Hg2|].
  exact Hroom.
Defined.

(** The scenarios of the specification, evaluated. *)
Example scenario_two_pairs : connected_subgraphs true (text "4  0 1  2 3") = Ok 2.
Proof. reflexivity. Qed.

Example scenario_chain : connected_subgraphs true (text "3  0 1  1 2") = Ok 1.
Proof. reflexivity. Qed.

Example scenario_no_edges : connected_subgraphs true (text "5") = Ok 5.
Proof. reflexivity. Qed.

Example scenario_self_loop : connected_subgraphs true (text "1  0 0") = Ok 1.
Proof. reflexivity. Qed.

Example scanner_read_int : read_int true (text "42 43 44") = (42, text "43 44").
Proof. reflexivity. Qed.

Example scanner_count_words : count_words (text "this is a test") = Ok 4.
Proof. reflexivity. Qed.

(* ================================================================= *)
(** * Further properties of the scanner *)

(** X1. [read_generic] returns the longest prefix whose characters all
    satisfy [func] and leaves the rest: its result is the only split of the
    text into such a prefix and a rest that is empty or starts with a
    character failing [func]. *)
Theorem read_generic_maximal_prefix (func : ascii -> bool) (text a b : string_view) :
  read_generic func text = (a, b) <->
  text = a ++ b /\ Forall (fun c => func c = true) a /\ starts_outside func b.
Proof.
  split.
  - intros Hr. destruct (read_generic_split func text) as (a' & b' & Heq & Ha & Hb & Hr').
    rewrite Hr in Hr'. injection Hr' as -> ->. done.
  - intros (-> & Ha & Hb). by apply read_generic_app.
Qed.

(** X2. The two test utilities agree with each other: when [test_read]
    accepts [token] and [test_rest] accepts [rest] for [read_generic], the
    input is [token] followed by [rest]. *)
Theorem test_read_rest_rebuild_input (func : ascii -> bool)
    (input token rest : string_view) :
  test_read input token (read_generic func) = true ->
  test_rest input rest (read_generic func) = true ->
  input = token ++ rest /\ Forall (fun c => func c = true) token /\
  starts_outside func rest.
Proof.
  unfold test_read, test_rest. intros Ht Hr.
  apply bool_decide_eq_true in Ht. apply bool_decide_eq_true in Hr.
  destruct (read_generic_split func input) as (a & b & Heq & Ha & Hb & Hsplit).
  rewrite Hsplit in Ht, Hr. simpl in Ht, Hr. by subst.
Qed.

(** X3. On an empty view, or one that starts with whitespace, [read_int]
    reads the empty token: it returns 0 and only skips the whitespace.  A
    text with leading whitespace therefore has node count 0. *)
Theorem read_int_leading_whitespace (sc : bool) (ws rest : string_view) :
  blank ws -> starts_outside is_whitespace rest -> ws <> [] \/ rest = [] ->
  read_int sc (ws ++ rest) = (0, rest) /\ max_graph_nodes sc (ws ++ rest) = 0.
Proof.
  intros Hws Hrest Hcase.
  assert (Hread : read_int sc (ws ++ rest) = (0, rest)).
  { unfold read_int, read_non_whitespace, read_whitespace.
    rewrite (read_generic_app _ [] (ws ++ rest)); [| constructor |].
    - by rewrite (read_generic_app _ ws rest).
    - destruct ws as [|c ws].
      + destruct Hcase as [? | ->]; done.
      + by apply blank_starts. }
  split; [done|]. unfold max_graph_nodes. by rewrite read_int_v_fst, Hread.
Qed.

Lemma read_int_suffix (sc : bool) (text : string_view) :
  exists consumed, text = consumed ++ (read_int sc text).2.
Proof.
  unfold read_int, read_non_whitespace, read_whitespace, read_generic. simpl.
  eexists (take _ text ++ take _ (drop _ text)).
  by rewrite <- app_assoc, !take_drop.
Qed.

Lemma graph_raw_new_failure (max_nodes max_edges n : Z) :
  graph_raw_new max_nodes max_edges n <> Fail out_of_fuel.
Proof.
  unfold graph_raw_new.
  assert (H : forall remaining idx ns, graph_raw_init remaining idx ns <> Fail out_of_fuel).
  { induction remaining as [|remaining IH]; intros idx ns; simpl; [done|].
    destruct (_ <=? _); [done|]. unfold int_incr. destruct (_ <? _); simpl; [apply IH | done]. }
  specialize (H (Z.to_nat n) 0 (replicate (Z.to_nat max_nodes) node_default)).
  destruct (graph_raw_init _ _ _); simpl; [done | congruence].
Qed.

(** X4. [read_int] never lengthens the view, leaves a suffix of it, and
    consumes at least one character of a non-empty view; so the
    [while( text.size() > 0 )] loop of [read_graph] ends on every text,
    well-formed or not. *)
Theorem read_graph_loop_ends (max_nodes max_edges : Z) (sc : bool) (text : string_view) :
  (exists consumed, text = consumed ++ (read_int sc text).2) /\
  (length (read_int sc text).2 <= length text)%nat /\
  (text <> [] -> (length (read_int sc text).2 < length text)%nat) /\
  read_graph max_nodes max_edges sc text <> Fail out_of_fuel.
Proof.
  destruct (read_int_rest_length sc text) as [Hle Hlt].
  split_and!; try done; [apply read_int_suffix|].
  unfold read_graph. destruct (read_int sc text) as [n text1].
  pose proof (graph_raw_new_failure max_nodes max_edges n).
  destruct (graph_raw_new _ _ _) as [g|e]; simpl; [|congruence].
  by apply read_graph_loop_fuel.
Qed.

Lemma fold_accumulate_shift (f : ascii -> Z) (b : string_view) (acc : Z) :
  fold_left (fun v c => v * 10 + f c) b acc =
  acc * 10 ^ Z.of_nat (length b) + fold_left (fun v c => v * 10 + f c) b 0.
Proof.
  revert acc. induction b as [|c b IH]; intros acc.
  - simpl. lia.
  - cbn [fold_left length]. rewrite IH, (IH (0 * 10 + f c)).
    rewrite Nat2Z.inj_succ, Z.pow_succ_r by lia. lia.
Qed.

Lemma accumulate_app (sc : bool) (a b : string_view) :
  accumulate sc (a ++ b) =
    accumulate sc a * 10 ^ Z.of_nat (length b) + accumulate sc b.
Proof.
  unfold accumulate. rewrite fold_left_app.
  apply (fold_accumulate_shift (fun c => char_value sc c - 48)).
Qed.

(** X5. [view_to_int] of a concatenation: the value of the first part is
    shifted by one decimal place per character of the second part, on
    [size_t]; in particular a leading ['0'] changes nothing. *)
Theorem view_to_int_app (sc : bool) (a b : string_view) :
  view_to_int sc (a ++ b) =
    wrap (view_to_int sc a * 10 ^ Z.of_nat (length b) + view_to_int sc b) /\
  view_to_int sc ("0"%char :: b) = view_to_int sc b.
Proof.
  assert (Happ : forall x y, view_to_int sc (x ++ y) =
            wrap (view_to_int sc x * 10 ^ Z.of_nat (length y) + view_to_int sc y)).
  { intros x y. rewrite !view_to_int_accumulate, accumulate_app. unfold wrap.
    rewrite (Zplus_mod (_ mod _ * _)), Zmult_mod_idemp_l, Z.mod_mod, <- Zplus_mod;
      [done | by vm_compute]. }
  split; [apply Happ|].
  change ("0"%char :: b) with (["0"%char] ++ b). rewrite Happ.
  replace (view_to_int sc ["0"%char]) with 0 by (by destruct sc).
  rewrite Z.mul_0_l, Z.add_0_l, view_to_int_accumulate. unfold wrap. apply Z.mod_mod.
  unfold size_t_modulus. lia.
Qed.

(** X6. On a token made of decimal digits [view_to_int] returns the number
    it denotes reduced modulo 2^64, whatever the signedness of [char]: the
    exact number when it fits [size_t], a wrapped one otherwise. *)
Theorem view_to_int_digits (sc : bool) (token : string_view) :
  Forall (fun c => is_digit c = true) token ->
  view_to_int sc token = decimal token mod size_t_modulus /\
  0 <= view_to_int sc token < size_t_modulus /\
  (decimal token < size_t_modulus -> view_to_int sc token = decimal token).
Proof.
  intros Hd. rewrite view_to_int_accumulate, accumulate_digits by done.
  pose proof (decimal_nonneg token Hd). unfold wrap.
  split; [done|]. split.
  - apply Z.mod_pos_bound. by vm_compute.
  - intros Hfit. apply Z.mod_small. lia.
Qed.

(* ----------------------------------------------------------------- *)
(** ** Words *)

Lemma count_words_loop_words (input : string_view) :
  forall b n,
    (n + Z.of_nat (words b input) <= INT_MAX ->
     count_words_loop input b n = Ok (n + Z.of_nat (words b input))) /\
    (n <= INT_MAX < n + Z.of_nat (words b input) ->
     count_words_loop input b n = Fail undefined_behaviour).
Proof.
  induction input as [|c rest IH]; intros b n.
  - simpl. split; [intros _; f_equal; lia | lia].
  - cbn [count_words_loop words].
    destruct (negb (is_whitespace c) && negb b) eqn:Hstart.
    + unfold int_incr. destruct (Z.ltb_spec n INT_MAX) as [Hlt|Hge]; cbn [bind].
      * destruct (IH (negb (is_whitespace c)) (n + 1)) as [IH1 IH2].
        split; intros H; [rewrite IH1 by lia; f_equal; lia | apply IH2; lia].
      * split; [lia | done].
    + cbn [bind]. destruct (IH (negb (is_whitespace c)) n) as [IH1 IH2].
      split; intros H; [rewrite IH1 by lia; f_equal; lia | apply IH2; lia].
Qed.

Lemma count_words_Ok (input : string_view) (n : Z) :
  count_words input = Ok n <->
  n = Z.of_nat (words false input) /\ n <= INT_MAX.
Proof.
  unfold count_words. destruct (count_words_loop_words input false 0) as [H1 H2].
  pose proof INT_MAX_fits. split.
  - intros Hrun. destruct (Z.le_gt_cases (Z.of_nat (words false input)) INT_MAX) as [Hle|Hgt].
    + rewrite H1 in Hrun by lia. injection Hrun as <-. lia.
    + rewrite H2 in Hrun by lia. discriminate.
  - intros [-> Hle]. rewrite H1 by lia. f_equal.
Qed.

Lemma words_bound (input : string_view) (b : bool) :
  (2 * words b input <= length input + (if b then 0 else 1))%nat.
Proof.
  revert b. induction input as [|c rest IH]; intros b; simpl; [destruct b; lia|].
  specialize (IH (negb (is_whitespace c))).
  destruct (is_whitespace c), b; simpl in *; lia.
Qed.

Lemma words_blank (ws rest : string_view) (b : bool) :
  ws <> [] -> blank ws -> words b (ws ++ rest) = words false rest.
Proof.
  intros Hne Hws. revert b. induction Hws as [|c ws Hc Hws IH]; intros b; [done|].
  simpl. rewrite Hc. simpl. destruct ws as [|c' ws]; [done|]. by apply IH.
Qed.

Lemma words_blank_end (ws : string_view) (b : bool) : blank ws -> words b ws = 0%nat.
Proof.
  intros Hws. revert b. induction Hws as [|c ws Hc Hws IH]; intros b; [done|].
  simpl. rewrite Hc. simpl. by apply IH.
Qed.

Lemma words_inside (t rest : string_view) :
  Forall (fun c => is_whitespace c = false) t ->
  words true (t ++ rest) = words true rest.
Proof. induction 1 as [|c t Hc Ht IH]; [done|]. simpl. by rewrite Hc. Qed.

Lemma words_token (t rest : string_view) :
  t <> [] -> Forall (fun c => is_whitespace c = false) t ->
  words false (t ++ rest) = S (words true rest).
Proof.
  intros Hne Ht. destruct t as [|c t]; [done|]. inversion Ht as [|? ? Hc Ht']; subst.
  simpl. rewrite Hc. simpl. by rewrite words_inside.
Qed.

Lemma words_app_blank (a ws b : string_view) (x : bool) :
  ws <> [] -> blank ws ->
  words x (a ++ ws ++ b) = (words x a + words false b)%nat.
Proof.
  intros Hne Hws. revert x. induction a as [|c a IH]; intros x.
  - simpl. by apply words_blank.
  - simpl. rewrite IH. lia.
Qed.

(** X7. [count_words] never overflows its [int] counter on a text of at
    most [2 * INT_MAX] characters, and the count is between 0 and half the
    length, rounded up. *)
Theorem count_words_bounds (input : string_view) :
  Z.of_nat (length input) <= 2 * INT_MAX ->
  exists n, count_words input = Ok n /\ 0 <= n /\ 2 * n <= Z.of_nat (length input) + 1.
Proof.
  intros Hlen. pose proof (words_bound input false) as Hb. simpl in Hb.
  exists (Z.of_nat (words false input)). split; [|lia].
  apply count_words_Ok. split; [done | lia].
Qed.

(** X8. Word counts add up across a run of whitespace: the count of
    [a ++ ws ++ b], for a non-empty run [ws] of spaces and newlines, is
    the sum of the counts of [a] and [b]. *)
Theorem count_words_app (a ws b : string_view) (na nb : Z) :
  ws <> [] -> blank ws ->
  count_words a = Ok na -> count_words b = Ok nb -> na + nb <= INT_MAX ->
  count_words (a ++ ws ++ b) = Ok (na + nb).
Proof.
  intros Hne Hws Ha Hb Hfit.
  apply count_words_Ok in Ha as [-> _]. apply count_words_Ok in Hb as [-> _].
  apply count_words_Ok. rewrite words_app_blank by done. split; lia.
Qed.

(** X9. [count_words] returns 0 exactly on the texts that hold nothing
    but spaces and newlines, the empty text among them. *)
Theorem count_words_zero (input : string_view) :
  count_words input = Ok 0 <-> blank input.
Proof.
  pose proof INT_MAX_fits. rewrite count_words_Ok. split.
  - intros [Hw _]. assert (H0 : words false input = 0%nat) by lia. clear Hw.
    induction input as [|c rest IH]; [constructor|]. simpl in H0.
    destruct (is_whitespace c) eqn:Hc; simpl in H0; [|lia].
    constructor; [done|]. apply IH. lia.
  - intros Hws. rewrite words_blank_end by done. split; lia.
Qed.

(* ----------------------------------------------------------------- *)
(** ** What [read_graph] reads from an arbitrary text *)

Lemma read_int_split (sc : bool) (text : string_view) :
  exists token sep rest,
    text = token ++ sep ++ rest /\
    Forall (fun c => is_whitespace c = false) token /\ blank sep /\
    (sep = [] -> rest = []) /\ starts_outside is_whitespace rest /\
    read_int sc text = (view_to_int sc token, rest).
Proof.
  destruct (read_generic_split (fun c => negb (is_whitespace c)) text)
    as (token & tail & -> & Htoken & Htail & Hr1).
  destruct (read_generic_split (fun c => is_whitespace c) tail)
    as (sep & rest & -> & Hsep & Hrest & Hr2).
  exists token, sep, rest. split_and!; try done.
  - eapply Forall_impl; [exact Htoken|]. intros c Hc. simpl in Hc.
    by destruct (is_whitespace c).
  - intros ->. destruct rest as [|c rest]; [done|]. simpl in *.
    rewrite Hrest in Htail. discriminate.
  - unfold read_int, read_non_whitespace, read_whitespace. by rewrite Hr1, Hr2.
Qed.

Lemma read_int_starts_outside (sc : bool) (text : string_view) :
  starts_outside is_whitespace (read_int sc text).2.
Proof.
  destruct (read_int_split sc text) as (token & sep & rest & _ & _ & _ & _ & Hrest & ->).
  done.
Qed.

Lemma words_read_int (sc : bool) (text : string_view) :
  starts_outside is_whitespace text -> text <> [] ->
  words false text = S (words false (read_int sc text).2).
Proof.
  intros Hstart Hne.
  destruct (read_int_split sc text) as (token & sep & rest & -> & Htoken & Hsep & Hend & _ & ->).
  simpl. assert (token <> []) as Htne.
  { intros ->. destruct sep as [|c sep].
    - by rewrite Hend in Hne.
    - inversion Hsep; subst. simpl in Hstart. congruence. }
  rewrite words_token by done. f_equal. destruct sep as [|c sep].
  - by rewrite Hend.
  - by apply words_blank.
Qed.

Lemma words_read_int_le (sc : bool) (text : string_view) :
  (words false (read_int sc text).2 <= words false text)%nat.
Proof.
  destruct (read_int_split sc text) as (token & sep & rest & -> & Htoken & Hsep & Hend & _ & ->).
  simpl. destruct token as [|c token].
  - simpl. destruct sep as [|c sep]; [by rewrite Hend | by rewrite words_blank].
  - rewrite words_token by done. destruct sep as [|c' sep].
    + rewrite Hend by done. simpl. lia.
    + rewrite words_blank by done. lia.
Qed.

Lemma read_pairs_step (sc : bool) (fuel : nat) (text : string_view) :
  text <> [] ->
  read_pairs sc (S fuel) text =
    ((read_int sc text).1, (read_int sc (read_int sc text).2).1) ::
    read_pairs sc fuel (read_int sc (read_int sc text).2).2.
Proof.
  intros Hne. destruct text as [|c text]; [done|]. cbn [read_pairs].
  destruct (read_int sc (c :: text)) as [s t1]. simpl.
  by destruct (read_int sc t1) as [d t2].
Qed.

Lemma read_graph_loop_pairs (sc : bool) (fuel : nat) :
  forall text g, (length text <= fuel)%nat ->
  read_graph_loop sc fuel text g = insert_all g (read_pairs sc fuel text).
Proof.
  induction fuel as [|fuel IH]; intros text g Hfuel.
  - destruct text; [done | simpl in Hfuel; lia].
  - destruct text as [|c text]; [done|].
    rewrite read_graph_loop_step, read_pairs_step by done.
    destruct (read_int_rest_length sc (c :: text)) as [_ Hlt]. specialize (Hlt ltac:(done)).
    destruct (read_int sc (c :: text)) as [s t1]. cbn [fst snd] in *.
    destruct (read_int_rest_length sc t1) as [Hle _].
    destruct (read_int sc t1) as [d t2]. cbn [fst snd length] in *.
    cbn [insert_all fst snd].
    destruct (completed _); cbn [bind]; [|done]. apply IH. lia.
Qed.

Lemma read_pairs_words (sc : bool) (fuel : nat) :
  forall text, starts_outside is_whitespace text -> (length text <= fuel)%nat ->
  (2 * length (read_pairs sc fuel text) <= words false text + 1)%nat.
Proof.
  induction fuel as [|fuel IH]; intros text Hstart Hfuel.
  - destruct text; simpl; lia.
  - destruct text as [|c text]; [simpl; lia|].
    rewrite read_pairs_step by done. cbn [length].
    rewrite (words_read_int sc (c :: text)) by done.
    destruct (read_int_rest_length sc (c :: text)) as [_ Hlt]. specialize (Hlt ltac:(done)).
    pose proof (read_int_starts_outside sc (c :: text)) as Hstart1.
    destruct (read_int sc (c :: text)) as [s t1]. cbn [fst snd length] in *.
    destruct t1 as [|c1 t1].
    + replace (read_int sc []) with (0, @nil ascii) by (by destruct sc).
      cbn [fst snd]. destruct fuel; simpl; lia.
    + rewrite (words_read_int sc (c1 :: t1)) by done.
      destruct (read_int_rest_length sc (c1 :: t1)) as [Hle _].
      pose proof (read_int_starts_outside sc (c1 :: t1)) as Hstart2.
      cbn [length] in *.
      specialize (IH (read_int sc (c1 :: t1)).2 Hstart2 ltac:(lia)). lia.
Qed.

Lemma read_graph_build_eq (max_nodes max_edges : Z) (sc : bool) (input : string_view) :
  read_graph max_nodes max_edges sc input =
    build max_nodes max_edges (max_graph_nodes sc input) (parsed_pairs sc input).
Proof.
  unfold read_graph, build, parsed_pairs, max_graph_nodes. rewrite read_int_v_fst.
  destruct (read_int sc input) as [n text1]. simpl.
  destruct (graph_raw_new _ _ _) as [g|e]; simpl; [|done].
  by apply read_graph_loop_pairs.
Qed.

(** X10. Whatever the text, [read_graph] constructs the graph with the
    node count that also sizes the type ([read_int_v] and [read_int] read
    the same first token) and then calls [add_edge] once per pair of
    tokens that the loop reads. *)
Theorem read_graph_is_build (max_nodes max_edges : Z) (sc : bool) (input : string_view) :
  read_graph max_nodes max_edges sc input =
    build max_nodes max_edges (max_graph_nodes sc input) (parsed_pairs sc input).
Proof.
  unfold read_graph, build, parsed_pairs, max_graph_nodes. rewrite read_int_v_fst.
  destruct (read_int sc input) as [n text1]. simpl.
  destruct (graph_raw_new _ _ _) as [g|e]; simpl; [|done].
  by apply read_graph_loop_pairs.
Qed.

Lemma read_pairs_edge_text (sc : bool) (rest : string_view) (ps : list (Z * Z)) :
  edge_text rest ps -> forall ws text fuel,
  rest = ws ++ text -> blank ws -> starts_outside is_whitespace text ->
  (length text <= fuel)%nat ->
  read_pairs sc fuel text = ps.
Proof.
  induction 1 as [rest Hrest | input ws1 ts ws2 td rest s d ps -> Hne1 Hws1 Hs Hne2 Hws2 Hd Hrest IH];
    intros ws text fuel Heq Hws Htext Hfuel.
  - rewrite (blank_no_start ws text rest Hrest Heq Htext). by destruct fuel.
  - destruct (blank_split_unique ws1 (ts ++ ws2 ++ td ++ rest) ws text Heq) as [<- <-];
      [done | done | by eapply number_starts | done |].
    destruct (edge_text_split rest ps Hrest) as (ws' & text' & -> & Hws' & Hend' & Htext').
    rewrite !length_app in Hfuel.
    assert (ts <> []) by (by destruct Hs).
    assert (length ts <> 0%nat) by (by destruct ts).
    destruct fuel as [|fuel]; [lia|].
    rewrite read_pairs_step by (by destruct ts).
    rewrite (read_int_number sc ts ws2 (td ++ ws' ++ text') s); try done;
      [| by eapply number_starts].
    cbn [fst snd]. rewrite (read_int_number sc td ws' text' d) by done. cbn [fst snd].
    f_equal. apply (IH ws' text'); try done. lia.
Qed.

Lemma parsed_pairs_graph_text (sc : bool) (input : string_view) (N : Z) (ps : list (Z * Z)) :
  graph_text input N ps -> parsed_pairs sc input = ps.
Proof.
  intros (tn & rest & -> & Hn & Hrest). unfold parsed_pairs.
  destruct (edge_text_split rest ps Hrest) as (ws & text & -> & Hws & Hend & Htext).
  rewrite (read_int_number sc tn ws text N) by done.
  by apply (read_pairs_edge_text sc (ws ++ text) ps Hrest ws text).
Qed.

Lemma read_pairs_dangling (sc : bool) (rest : string_view) (ps : list (Z * Z)) (last : Z) :
  edge_text_dangling rest ps last -> forall ws text fuel,
  rest = ws ++ text -> blank ws -> starts_outside is_whitespace text ->
  (length text <= fuel)%nat ->
  read_pairs sc fuel text = ps ++ [(last, 0)].
Proof.
  induction 1 as [ws1 ts ws2 s Hne1 Hws1 Hs Hws2
                 | input ws1 ts ws2 td rest s d ps last -> Hne1 Hws1 Hs Hne2 Hws2 Hd Hrest IH];
    intros ws text fuel Heq Hws Htext Hfuel.
  - destruct (blank_split_unique ws1 (ts ++ ws2) ws text Heq) as [<- <-];
      [done | done | by eapply number_starts | done |].
    assert (ts <> []) by (by destruct Hs).
    destruct fuel as [|fuel]; [destruct ts; [done | simpl in Hfuel; lia]|].
    rewrite read_pairs_step by (by destruct ts).
    replace (ts ++ ws2) with (ts ++ ws2 ++ []) by (by rewrite app_nil_r).
    rewrite (read_int_number sc ts ws2 [] s) by done. cbn [fst snd].
    replace (read_int sc []) with (0, @nil ascii) by (by destruct sc).
    by destruct fuel.
  - destruct (blank_split_unique ws1 (ts ++ ws2 ++ td ++ rest) ws text Heq) as [<- <-];
      [done | done | by eapply number_starts | done |].
    assert (Hsplit : exists ws' text', rest = ws' ++ text' /\ blank ws' /\
              (ws' = [] -> text' = []) /\ starts_outside is_whitespace text').
    { destruct Hrest as [wa ta wb sa Hnea Hwa Hsa Hwb
                        | ? wa ta wb tb r sa da psa la -> Hnea Hwa Hsa _ _ _ _].
      - exists wa, (ta ++ wb). split_and!; try done. by eapply number_starts.
      - exists wa, (ta ++ wb ++ tb ++ r). split_and!; try done. by eapply number_starts. }
    destruct Hsplit as (ws' & text' & -> & Hws' & Hend' & Htext').
    rewrite !length_app in Hfuel.
    assert (ts <> []) by (by destruct Hs).
    assert (length ts <> 0%nat) by (by destruct ts).
    destruct fuel as [|fuel]; [lia|].
    rewrite read_pairs_step by (by destruct ts).
    rewrite (read_int_number sc ts ws2 (td ++ ws' ++ text') s); try done;
      [| by eapply number_starts].
    cbn [fst snd]. rewrite (read_int_number sc td ws' text' d) by done. cbn [fst snd].
    rewrite <- app_comm_cons. f_equal. apply (IH ws' text'); try done. lia.
Qed.

(** X11. When the text ends in the middle of a pair, the missing
    destination is read from the empty view as 0: after the pairs [ps]
    and a last source [s], [read_graph] inserts the edges [ps] and then
    the edge from [s] to node 0. *)
Theorem read_graph_dangling_source (max_nodes max_edges : Z) (sc : bool)
    (tn rest : string_view) (N : Z) (ps : list (Z * Z)) (s : Z) :
  number tn N -> edge_text_dangling rest ps s ->
  parsed_pairs sc (tn ++ rest) = ps ++ [(s, 0)] /\
  read_graph max_nodes max_edges sc (tn ++ rest) =
    build max_nodes max_edges N (ps ++ [(s, 0)]).
Proof.
  intros Hn Hrest.
  assert (Hsplit : exists ws text, rest = ws ++ text /\ blank ws /\ ws <> [] /\
            starts_outside is_whitespace text).
  { destruct Hrest as [wa ta wb sa Hnea Hwa Hsa Hwb
                      | ? wa ta wb tb r sa da psa la -> Hnea Hwa Hsa _ _ _ _].
    - exists wa, (ta ++ wb). split_and!; try done. by eapply number_starts.
    - exists wa, (ta ++ wb ++ tb ++ r). split_and!; try done. by eapply number_starts. }
  destruct Hsplit as (ws & text & -> & Hws & Hne & Htext).
  assert (Hread : read_int sc (tn ++ ws ++ text) = (N, text))
    by (by apply read_int_number).
  assert (Hpairs : parsed_pairs sc (tn ++ ws ++ text) = ps ++ [(s, 0)]).
  { unfold parsed_pairs. rewrite Hread.
    by apply (read_pairs_dangling sc (ws ++ text) ps s Hrest ws text). }
  split; [done|]. rewrite read_graph_build_eq, Hpairs.
  unfold max_graph_nodes. by rewrite read_int_v_fst, Hread.
Qed.

(* ----------------------------------------------------------------- *)
(** ** Symmetrizing and counting a built graph *)

Lemma symmetrized_count (max_nodes max_edges n : Z) (ps : list (Z * Z)) (g : graph_raw) :
  0 <= n <= max_nodes -> n <= INT_MAX -> max_nodes < size_t_modulus ->
  0 <= max_edges < size_t_modulus ->
  endpoints_below n ps -> 2 * Z.of_nat (length ps) <= max_edges ->
  build max_nodes max_edges n ps = Ok g ->
  exists g2 k m,
    double_up_edges max_nodes max_edges g = Ok g2 /\
    used_nodes g2 = n /\
    graph_inv max_nodes max_edges g2
      (reverse (doubled_from (reverse ps) 0 (Z.to_nat n))) /\
    count_connected_run max_nodes g2 = Ok (k, m) /\
    scan_inv max_nodes n m k /\
    count_connected max_nodes g2 = Ok k /\
    component_count n ps k.
Proof.
  intros Hn Hint Hmn Hme Hps Hroom Hbuild.
  pose proof (proj1 (Forall_forall _ _) Hps) as Hin.
  destruct (build_inv max_nodes max_edges n ps g Hn Hint Hmn Hme) as (Hu & Hinv); [|done|].
  { apply Forall_forall. intros p Hp. apply Hin in Hp. lia. }
  pose proof (double_up_edges_insert_all max_nodes max_edges g (reverse ps) Hinv) as Hdouble.
  unfold get_num_nodes in Hdouble. rewrite Hu in Hdouble.
  destruct (graph_raw_new_inv max_nodes max_edges n Hn Hint Hmn Hme)
    as (fresh & Hfresh & Huf & Hinvf).
  rewrite Hfresh in Hdouble. cbn [bind] in Hdouble.
  assert (Hsrc : Forall (fun p => 0 <= p.1 < n) (reverse ps)).
  { apply Forall_forall. intros p Hp. rewrite elem_of_reverse in Hp. apply Hin in Hp. tauto. }
  assert (Hedges : forall a b,
            (a, b) ∈ reverse (doubled_from (reverse ps) 0 (Z.to_nat n)) <->
            edge_rel ps a b \/ edge_rel ps b a).
  { intros a b. apply symmetrized_edges; [lia | done]. }
  destruct (insert_all_Ok max_nodes max_edges (doubled_from (reverse ps) 0 (Z.to_nat n))
              fresh [] Hinvf) as (g2 & Hg2 & Hu2 & Hinv2).
  { apply Forall_forall. intros [a b] Hab. simpl.
    rewrite <- elem_of_reverse in Hab. apply Hedges in Hab.
    destruct Hab as [H|H]; apply Hin in H; simpl in H; lia. }
  { rewrite (doubled_from_length_all _ n Hsrc), length_reverse. simpl. lia. }
  rewrite app_nil_r in Hinv2. rewrite Hg2 in Hdouble.
  set (hist2 := reverse (doubled_from (reverse ps) 0 (Z.to_nat n))) in *.
  assert (Hdst2 : Forall (fun p => 0 <= p.2 < max_nodes) hist2).
  { apply Forall_forall. intros [a b] Hab. apply Hedges in Hab. simpl.
    destruct Hab as [H|H]; apply Hin in H; simpl in H; lia. }
  destruct (count_connected_run_spec max_nodes max_edges g2 hist2 Hinv2 Hdst2)
    as (k & m & Hrun & Hscan & Hcount).
  rewrite Hu2, Huf in Hscan, Hcount.
  exists g2, k, m. split_and!; try done; try congruence.
  - unfold count_connected. by rewrite Hrun.
  - apply (component_count_same_connectivity n hist2 ps).
    + intros x y. apply connected_both_ways. intros a b. apply Hedges.
    + apply Hcount. intros x y Hxy. apply Hedges. apply Hedges in Hxy. tauto.
Qed.

Lemma arena_capacity_helper (sc : bool) (input : string_view) (capacity : Z) :
  max_graph_edges input = Ok capacity ->
  starts_outside is_whitespace input ->
  2 * Z.of_nat (length (parsed_pairs sc input)) <= capacity.
Proof.
  intros Hcap Hstart. apply count_words_Ok in Hcap as [-> _].
  assert (Hpairs : (2 * length (parsed_pairs sc input) <=
                    words false (read_int sc input).2 + 1)%nat).
  { unfold parsed_pairs. pose proof (read_int_starts_outside sc input) as Hstart1.
    destruct (read_int sc input) as [n t1]. simpl in *. by apply read_pairs_words. }
  destruct input as [|c input].
  - unfold parsed_pairs. replace (read_int sc []) with (0, @nil ascii) by (by destruct sc).
    simpl. lia.
  - rewrite (words_read_int sc (c :: input)) by done. lia.
Qed.

(** X12. The arena computed from the text is never too small, whatever
    the text: [read_graph] makes at most [count_words(text)] insertions,
    and when the text starts with its node count the doubled graph's
    [2 * insertions] fit as well. *)
Theorem arena_holds_every_text (sc : bool) (input : string_view) (capacity : Z) :
  max_graph_edges input = Ok capacity ->
  Z.of_nat (length (parsed_pairs sc input)) <= capacity /\
  (starts_outside is_whitespace input ->
   2 * Z.of_nat (length (parsed_pairs sc input)) <= capacity).
Proof.
  intros Hcap. apply count_words_Ok in Hcap as [-> _].
  pose proof (words_read_int_le sc input) as Hle.
  pose proof (read_int_starts_outside sc input) as Hstart1.
  assert (Hpairs : (2 * length (parsed_pairs sc input) <=
                    words false (read_int sc input).2 + 1)%nat).
  { unfold parsed_pairs. destruct (read_int sc input) as [n t1]. simpl in *.
    by apply read_pairs_words. }
  split; [lia|]. intros Hstart. destruct input as [|c input].
  - unfold parsed_pairs. replace (read_int sc []) with (0, @nil ascii) by (by destruct sc).
    simpl. lia.
  - rewrite (words_read_int sc (c :: input)) by done. lia.
Qed.

Lemma node_count_positive_start (sc : bool) (input : string_view) :
  max_graph_nodes sc input <> 0 -> starts_outside is_whitespace input.
Proof.
  unfold max_graph_nodes. rewrite read_int_v_fst.
  destruct (read_int_split sc input) as (token & sep & rest & -> & Htoken & _ & _ & _ & ->).
  simpl. destruct token as [|c token]; [by destruct sc|].
  intros _. by inversion Htoken.
Qed.

(** X13. The count is right on every text, not only on well-formed ones:
    if the word count fits an [int], the first integer read fits an [int]
    and every endpoint read is below it, the program returns the number
    of connected components of the graph of the pairs it reads. *)
Theorem connected_subgraphs_any_text (sc : bool) (input : string_view) (capacity : Z) :
  max_graph_edges input = Ok capacity ->
  max_graph_nodes sc input <= INT_MAX ->
  endpoints_below (max_graph_nodes sc input) (parsed_pairs sc input) ->
  exists k, connected_subgraphs sc input = Ok k /\
    component_count (max_graph_nodes sc input) (parsed_pairs sc input) k.
Proof.
  intros Hcap Hint Hps.
  pose proof INT_MAX_fits as Hfits.
  assert (HN : 0 <= max_graph_nodes sc input < size_t_modulus).
  { unfold max_graph_nodes. rewrite read_int_v_fst.
    destruct (read_int_split sc input) as (token & sep & rest & _ & _ & _ & _ & _ & ->).
    simpl. rewrite view_to_int_accumulate. apply Z.mod_pos_bound. by vm_compute. }
  assert (Hcap' : 0 <= capacity <= INT_MAX).
  { apply count_words_Ok in Hcap as [-> ?]. lia. }
  assert (Hroom : 2 * Z.of_nat (length (parsed_pairs sc input)) <= capacity).
  { destruct (parsed_pairs sc input) as [|p ps] eqn:Hpairs; [simpl; lia|].
    rewrite <- Hpairs. apply (arena_capacity_helper sc input capacity); [done|].
    apply (node_count_positive_start sc).
    inversion Hps as [|? ? Hp _]; subst. lia. }
  pose proof (read_graph_build_eq (max_graph_nodes sc input) capacity sc input) as Hread.
  destruct (build (max_graph_nodes sc input) capacity (max_graph_nodes sc input)
              (parsed_pairs sc input)) as [g|e] eqn:Hbuild.
  - destruct (symmetrized_count (max_graph_nodes sc input) capacity (max_graph_nodes sc input)
                (parsed_pairs sc input) g)
      as (g2 & k & m & Hg2 & _ & _ & _ & _ & Hk & Hcount); try done; try lia.
    exists k. split; [|done]. unfold connected_subgraphs.
    rewrite Hcap. cbn [bind]. rewrite Hread. cbn [bind]. rewrite Hg2. cbn [bind]. done.
  - exfalso. unfold build in Hbuild.
    destruct (graph_raw_new_inv (max_graph_nodes sc input) capacity (max_graph_nodes sc input))
      as (fresh & Hfresh & _ & Hinvf); [lia | lia | lia | lia |].
    rewrite Hfresh in Hbuild. cbn [bind] in Hbuild.
    destruct (insert_all_Ok _ capacity (parsed_pairs sc input) fresh [] Hinvf)
      as (g & Hg & _); [| simpl; lia | congruence].
    eapply Forall_impl; [exact Hps|]. intros p Hp. simpl in *. lia.
Qed.

(* ----------------------------------------------------------------- *)
(** ** The closed form of a built graph *)

Lemma records_length (hist : list (Z * Z)) : length (records hist) = length hist.
Proof. induction hist as [|p h IH]; simpl; [done|]. rewrite length_app, IH. simpl. lia. Qed.

Lemma records_lookup (newer : list (Z * Z)) (p : Z * Z) (older : list (Z * Z)) :
  records (newer ++ p :: older) !! length older =
    Some (edge (node_id p.2) (newest older p.1)).
Proof.
  induction newer as [|q newer IH]; simpl.
  - rewrite <- (records_length older). apply list_lookup_middle. done.
  - rewrite lookup_app_l; [done|]. rewrite records_length, length_app. simpl. lia.
Qed.

Lemma layout_nodes_length (max_nodes n : Z) (hist : list (Z * Z)) :
  0 <= n <= max_nodes -> length (layout_nodes max_nodes n hist) = Z.to_nat max_nodes.
Proof.
  intros Hn. unfold layout_nodes. rewrite length_app, !length_fmap, !length_seqZ. lia.
Qed.

Lemma layout_nodes_lookup (max_nodes n : Z) (hist : list (Z * Z)) (i : Z) :
  0 <= n <= max_nodes -> 0 <= i < max_nodes ->
  layout_nodes max_nodes n hist !! Z.to_nat i =
    Some (node (if decide (i < n) then node_id i else numeric_id None) (newest hist i)).
Proof.
  intros Hn Hi. unfold layout_nodes. destruct (decide (i < n)) as [Hlt|Hge].
  - rewrite lookup_app_l by (rewrite length_fmap, length_seqZ; lia).
    rewrite list_lookup_fmap, lookup_seqZ_lt by lia. simpl.
    by replace (0 + Z.of_nat (Z.to_nat i)) with i by lia.
  - rewrite lookup_app_r by (rewrite length_fmap, length_seqZ; lia).
    rewrite length_fmap, length_seqZ, list_lookup_fmap, lookup_seqZ_lt by lia. simpl.
    by replace (n + Z.of_nat (Z.to_nat i - Z.to_nat n)) with i by lia.
Qed.

Lemma graph_raw_init_exact (remaining : nat) :
  forall (idx : Z) (tail : list node_t),
  0 <= idx -> idx + Z.of_nat remaining <= INT_MAX -> (remaining <= length tail)%nat ->
  graph_raw_init remaining idx ((node_of <$> seqZ 0 idx) ++ tail) =
    Ok ((node_of <$> seqZ 0 (idx + Z.of_nat remaining)) ++ drop remaining tail).
Proof.
  induction remaining as [|remaining IH]; intros idx tail Hidx Hint Hlen.
  - simpl. by rewrite Z.add_0_r.
  - destruct tail as [|t tail]; [simpl in Hlen; lia|]. cbn [graph_raw_init].
    rewrite length_app, length_fmap, length_seqZ. cbn [length].
    destruct (Z.leb_spec (Z.of_nat (Z.to_nat idx + S (length tail))) idx); [lia|].
    rewrite int_incr_Ok by lia. cbn [bind].
    rewrite insert_app_r_alt by (rewrite length_fmap, length_seqZ; lia).
    rewrite length_fmap, length_seqZ, Nat.sub_diag. cbn [list_insert insert].
    replace ((node_of <$> seqZ 0 idx) ++ node_of idx :: tail)
      with ((node_of <$> seqZ 0 (idx + 1)) ++ tail).
    + rewrite IH by (simpl in Hlen; lia). cbn [drop].
      by replace (idx + 1 + Z.of_nat remaining) with (idx + Z.of_nat (S remaining)) by lia.
    + rewrite seqZ_app by lia. rewrite fmap_app, <- app_assoc. by do 2 f_equal.
Qed.

Lemma graph_raw_new_layout (max_nodes max_edges n : Z) :
  0 <= n <= max_nodes -> n <= INT_MAX ->
  graph_raw_new max_nodes max_edges n = Ok (layout max_nodes max_edges n []).
Proof.
  intros Hn Hint. unfold graph_raw_new.
  pose proof (graph_raw_init_exact (Z.to_nat n) 0 (replicate (Z.to_nat max_nodes) node_default))
    as Hinit.
  simpl in Hinit. rewrite Hinit by (rewrite ?length_replicate; lia). cbn [bind].
  unfold layout, layout_nodes. simpl. rewrite Nat.sub_0_r. do 3 f_equal.
  - by rewrite Z2Nat.id by lia.
  - rewrite drop_replicate.
    apply list_eq. intros i. rewrite list_lookup_fmap.
    destruct (decide (i < Z.to_nat max_nodes - Z.to_nat n)%nat) as [Hlt|Hge].
    + rewrite lookup_replicate_2, lookup_seqZ_lt by lia. done.
    + rewrite (proj1 (lookup_replicate_None _ _ _)), lookup_seqZ_ge by lia. done.
Qed.

Lemma newest_cons_same (hist : list (Z * Z)) (s d : Z) :
  newest ((s, d) :: hist) s = Some (edge_id (Z.of_nat (length hist))).
Proof. simpl. by rewrite decide_True. Qed.

Lemma newest_cons_other (hist : list (Z * Z)) (s d x : Z) :
  s <> x -> newest ((s, d) :: hist) x = newest hist x.
Proof. intros H. simpl. by rewrite decide_False. Qed.

Lemma add_edge_layout (max_nodes max_edges n : Z) (hist : list (Z * Z)) (s d : Z) :
  0 <= n <= max_nodes -> 0 <= s < max_nodes ->
  Z.of_nat (length hist) < max_edges < size_t_modulus ->
  add_edge (layout max_nodes max_edges n hist) (node_id s) (node_id d) =
    (layout max_nodes max_edges n ((s, d) :: hist), Ok tt).
Proof.
  intros Hn Hs Hroom. unfold add_edge, layout.
  cbn [value id node_id nodes edges used_nodes].
  rewrite (array_at_Ok _ _ _ (layout_nodes_lookup max_nodes n hist s Hn Hs)).
  cbn [get_edge_begin].
  assert (Hmem : length (records hist ++
                   replicate (Z.to_nat max_edges - length hist) edge_default) =
                 Z.to_nat max_edges).
  { rewrite length_app, records_length, length_replicate. lia. }
  rewrite alloc_edge_free; cbn [edge_memory next_available];
    [| rewrite Hmem; lia | lia | rewrite Hmem; lia].
  do 2 f_equal.
  - apply list_eq. intros j.
    destruct (decide (j < Z.to_nat max_nodes)%nat) as [Hj|Hj].
    + replace j with (Z.to_nat (Z.of_nat j)) by lia.
      rewrite (layout_nodes_lookup max_nodes n ((s, d) :: hist)) by lia.
      destruct (decide (Z.of_nat j = s)) as [->|Hne].
      * rewrite list_lookup_insert_eq by (rewrite layout_nodes_length; lia).
        by rewrite newest_cons_same.
      * rewrite list_lookup_insert_ne by lia.
        rewrite layout_nodes_lookup by lia. by rewrite newest_cons_other.
    + rewrite !lookup_ge_None_2; [done | |].
      * rewrite layout_nodes_length; lia.
      * rewrite length_insert, layout_nodes_length; lia.
  - f_equal; [|simpl; lia].
    rewrite insert_app_r_alt by (rewrite records_length; lia).
    rewrite records_length.
    replace (Z.to_nat (Z.of_nat (length hist)) - length hist)%nat with 0%nat by lia.
    replace (Z.to_nat max_edges - length hist)%nat
      with (S (Z.to_nat max_edges - length ((s, d) :: hist))) by (simpl; lia).
    cbn [replicate list_insert insert records]. by rewrite <- app_assoc.
Qed.

Lemma insert_all_layout (max_nodes max_edges n : Z) (ps : list (Z * Z)) :
  forall hist,
  0 <= n <= max_nodes -> max_edges < size_t_modulus ->
  Forall (fun p => 0 <= p.1 < max_nodes) ps ->
  Z.of_nat (length hist) + Z.of_nat (length ps) <= max_edges ->
  insert_all (layout max_nodes max_edges n hist) ps =
    Ok (layout max_nodes max_edges n (reverse ps ++ hist)).
Proof.
  induction ps as [|[s d] ps IH]; intros hist Hn Hme Hps Hroom; [done|].
  inversion Hps as [|? ? Hs Hps']; subst. simpl in Hs, Hroom.
  cbn [insert_all fst snd]. unfold completed.
  rewrite add_edge_layout by lia. cbn [bind fst snd].
  rewrite IH by (done || simpl; lia). by rewrite reverse_cons, <- app_assoc.
Qed.

Lemma build_layout_eq (max_nodes max_edges n : Z) (ps : list (Z * Z)) :
  0 <= n <= max_nodes -> n <= INT_MAX -> 0 <= max_edges < size_t_modulus ->
  Forall (fun p => 0 <= p.1 < max_nodes) ps ->
  Z.of_nat (length ps) <= max_edges ->
  build max_nodes max_edges n ps = Ok (layout max_nodes max_edges n (reverse ps)).
Proof.
  intros Hn Hint Hme Hps Hroom. unfold build.
  rewrite graph_raw_new_layout by done. cbn [bind].
  rewrite insert_all_layout by (done || simpl; lia). by rewrite app_nil_r.
Qed.

(** What [newest] denotes: the position of the first pair of [hist] that
    leaves [s], counted from the end of [hist]. *)
Lemma newest_spec (hist : list (Z * Z)) (s : Z) :
  match newest hist s with
  | None => Forall (fun p => p.1 <> s) hist
  | Some e =>
      exists newer d older, hist = newer ++ (s, d) :: older /\
        Forall (fun p => p.1 <> s) newer /\ e = edge_id (Z.of_nat (length older))
  end.
Proof.
  induction hist as [|[a b] hist IH]; simpl; [constructor|].
  case_decide as Ha; simpl in Ha.
  - subst. by exists [], b, hist.
  - destruct (newest hist s).
    + destruct IH as (newer & d & older & -> & Hn & ->).
      exists ((a, b) :: newer), d, older. split; [done|]. split; [by constructor | done].
    + by constructor.
Qed.

(* ----------------------------------------------------------------- *)
(** ** The constructor, failing insertions and the built graph *)

Lemma graph_raw_init_undefined (remaining : nat) :
  forall (idx : Z) (ns : list node_t),
  0 <= idx <= INT_MAX -> idx <= Z.of_nat (length ns) ->
  Z.of_nat (length ns) < idx + Z.of_nat remaining \/ INT_MAX < idx + Z.of_nat remaining ->
  graph_raw_init remaining idx ns = Fail undefined_behaviour.
Proof.
  induction remaining as [|remaining IH]; intros idx ns Hidx Hlen Hbad; [lia|].
  cbn [graph_raw_init]. destruct (Z.leb_spec (Z.of_nat (length ns)) idx); [done|].
  unfold int_incr. destruct (Z.ltb_spec idx INT_MAX); [|done]. cbn [bind].
  apply IH; rewrite ?length_insert; lia.
Qed.

Lemma graph_raw_new_undefined (max_nodes max_edges n : Z) :
  0 <= n -> 0 <= max_nodes -> max_nodes < n \/ INT_MAX < n ->
  graph_raw_new max_nodes max_edges n = Fail undefined_behaviour.
Proof.
  intros Hn Hmn Hbad. unfold graph_raw_new.
  rewrite graph_raw_init_undefined; [done | by vm_compute | lia |].
  rewrite length_replicate. lia.
Qed.

(** X14. The constructor is defined exactly when [used_nodes] is at most
    the capacity of the node array and at most [INT_MAX] (its counter [idx]
    is an [int], its range-for runs to [begin() + used_nodes]); it then
    gives node [i] the id [i] for [i < used_nodes], leaves the other nodes
    without an id, and leaves every list and the arena empty. *)
Theorem graph_raw_new_defined (max_nodes max_edges n : Z) :
  0 <= n -> 0 <= max_nodes ->
  graph_raw_new max_nodes max_edges n =
    if decide (n <= max_nodes /\ n <= INT_MAX)
    then Ok (graph n
               ((node_of <$> seqZ 0 n) ++
                replicate (Z.to_nat max_nodes - Z.to_nat n) node_default)
               (edge_storage (replicate (Z.to_nat max_edges) edge_default) 0))
    else Fail undefined_behaviour.
Proof.
  intros Hn Hmn. destruct (decide _) as [[Hle Hint]|Hbad].
  - rewrite graph_raw_new_layout by lia. unfold layout, layout_nodes. simpl.
    rewrite Nat.sub_0_r. do 3 f_equal.
    apply list_eq. intros i. rewrite list_lookup_fmap.
    destruct (decide (i < Z.to_nat max_nodes - Z.to_nat n)%nat) as [Hlt|Hge].
    + rewrite lookup_replicate_2, lookup_seqZ_lt by lia. done.
    + rewrite (proj1 (lookup_replicate_None _ _ _)), lookup_seqZ_ge by lia. done.
  - apply graph_raw_new_undefined; lia.
Qed.

Lemma add_edge_source_outside (g : graph_raw) (s : Z) (dst : node_id_t) :
  0 <= s -> Z.of_nat (length (nodes g)) <= s ->
  add_edge g (node_id s) dst = (g, Fail out_of_range).
Proof.
  intros Hs Hout. unfold add_edge, array_at. simpl.
  rewrite lookup_ge_None_2 by lia. done.
Qed.

Lemma add_edge_arena_full (g : graph_raw) (s : Z) (dst : node_id_t) :
  0 <= s < Z.of_nat (length (nodes g)) ->
  Z.of_nat (length (edge_memory (edges g))) <= next_available (edges g) ->
  add_edge g (node_id s) dst =
    (graph (used_nodes g) (nodes g)
       (edge_storage (edge_memory (edges g)) (size_add (next_available (edges g)) 1)),
     Fail out_of_range).
Proof.
  intros Hs Hfull. unfold add_edge, alloc_edge. simpl.
  destruct (lookup_lt_is_Some_2 (nodes g) (Z.to_nat s)) as [nd Hnd]; [lia|].
  rewrite (array_at_Ok _ _ _ Hnd). unfold array_at.
  rewrite lookup_ge_None_2 by lia. done.
Qed.

Lemma traverse_same_storage (walk : nat) (g g' : graph_raw) :
  edge_memory (edges g') = edge_memory (edges g) ->
  forall e, traverse walk g' e = traverse walk g e.
Proof.
  intros Hmem. induction walk as [|walk IH]; intros [e|]; try done.
  cbn [traverse]. unfold dst_node, next_edge, get_edge. rewrite Hmem.
  destruct (let* i := value e in array_at (edge_memory (edges g)) i) as [ed|]; [|done].
  cbn [bind]. destruct (value (get_dst_node ed)); [|done]. cbn [bind].
  by rewrite IH.
Qed.

(** X15. A call of [add_edge] that throws has linked nothing: the node
    array and the edge records are as before the call, so every adjacency
    list reads as before.  It throws [bad_optional_access] for a source
    without a value and [out_of_range] otherwise (source past the node
    array, or arena full); the destination is never looked at. *)
Theorem add_edge_throw_links_nothing (g g' : graph_raw) (src_node dst_node : node_id_t)
    (e : failure) :
  add_edge g src_node dst_node = (g', Fail e) ->
  used_nodes g' = used_nodes g /\ nodes g' = nodes g /\
  edge_memory (edges g') = edge_memory (edges g) /\
  (forall x, fan_out g' x = fan_out g x) /\
  e = (if has_value src_node then out_of_range else bad_optional_access).
Proof.
  intros Hthrow.
  assert (H : used_nodes g' = used_nodes g /\ nodes g' = nodes g /\
              edge_memory (edges g') = edge_memory (edges g) /\
              e = (if has_value src_node then out_of_range else bad_optional_access)).
  { unfold add_edge, has_value, value, alloc_edge, array_at in *.
    destruct (id src_node) as [s|]; [|by injection Hthrow as <- <-].
    destruct (nodes g !! Z.to_nat s) as [nd|]; [|by injection Hthrow as <- <-].
    simpl in Hthrow.
    destruct (edge_memory (edges g) !! Z.to_nat (next_available (edges g)));
      [discriminate|].
    by injection Hthrow as <- <-. }
  destruct H as (Hu & Hn & Hm & He). split_and!; try done.
  intros x. unfold fan_out, first_edge. rewrite Hn, Hm.
  destruct (let* i := value x in let* n := array_at (nodes g) i in Ok (get_edge_begin n));
    [|done].
  cbn [bind]. by apply traverse_same_storage.
Qed.

Lemma build_Ok_layout (max_nodes max_edges n : Z) (ps : list (Z * Z)) (g : graph_raw) :
  0 <= n -> 0 <= max_nodes < size_t_modulus -> 0 <= max_edges < size_t_modulus ->
  Forall (fun p => 0 <= p.1) ps ->
  build max_nodes max_edges n ps = Ok g ->
  n <= max_nodes /\ n <= INT_MAX /\
  Forall (fun p => p.1 < max_nodes) ps /\
  Z.of_nat (length ps) <= max_edges /\
  g = layout max_nodes max_edges n (reverse ps).
Proof.
  intros Hn Hmn Hme Hps Hbuild.
  destruct (decide (n <= max_nodes /\ n <= INT_MAX)) as [[Hle Hint]|Hbad].
  - destruct (build_inv max_nodes max_edges n ps g) as (_ & Hinv); try done; try lia.
    assert (Hsrc : Forall (fun p => p.1 < max_nodes) ps).
    { apply Forall_forall. intros p Hp.
      pose proof (proj1 (Forall_forall _ _) (inv_sources _ _ _ _ Hinv) p) as H.
      rewrite elem_of_reverse in H. specialize (H Hp). simpl in H. lia. }
    pose proof (inv_capacity _ _ _ _ Hinv) as Hcap. rewrite length_reverse in Hcap.
    split_and!; try done.
    rewrite build_layout_eq in Hbuild; try done; try lia; [congruence|].
    apply Forall_forall. intros p Hp.
    pose proof (proj1 (Forall_forall _ _) Hps p Hp).
    pose proof (proj1 (Forall_forall _ _) Hsrc p Hp). simpl in *. lia.
  - unfold build in Hbuild. rewrite graph_raw_new_undefined in Hbuild by lia.
    discriminate.
Qed.

(** X16. Which graphs the constructor and a sequence of [add_edge] calls
    build: the calls all return exactly when the node count fits, every
    source is inside the node array and the arena has a record for every
    pair; the graph is then the closed form [layout]: node [i] heads its
    list with the newest insertion leaving [i], record [k] holds the
    destination of the [k]-th insertion and links to the newest earlier
    insertion with the same source, the other records are untouched. *)
Theorem build_characterization (max_nodes max_edges n : Z) (ps : list (Z * Z))
    (g : graph_raw) :
  0 <= n -> 0 <= max_nodes < size_t_modulus -> 0 <= max_edges < size_t_modulus ->
  Forall (fun p => 0 <= p.1) ps ->
  build max_nodes max_edges n ps = Ok g <->
    n <= max_nodes /\ n <= INT_MAX /\
    Forall (fun p => p.1 < max_nodes) ps /\
    Z.of_nat (length ps) <= max_edges /\
    g = layout max_nodes max_edges n (reverse ps).
Proof.
  intros Hn Hmn Hme Hps. split.
  - by apply build_Ok_layout.
  - intros (Hle & Hint & Hsrc & Hroom & ->). apply build_layout_eq; try done; try lia.
    apply Forall_forall. intros p Hp.
    pose proof (proj1 (Forall_forall _ _) Hps p Hp).
    pose proof (proj1 (Forall_forall _ _) Hsrc p Hp). simpl in *. lia.
Qed.

Lemma get_edge_layout (max_nodes max_edges n : Z) (newer : list (Z * Z)) (p : Z * Z)
    (older : list (Z * Z)) :
  get_edge (edges (layout max_nodes max_edges n (newer ++ p :: older)))
           (edge_id (Z.of_nat (length older))) =
    Ok (edge (node_id p.2) (newest older p.1)).
Proof.
  unfold get_edge. simpl. apply array_at_Ok. rewrite Nat2Z.id.
  rewrite lookup_app_l by (rewrite records_length, length_app; simpl; lia).
  apply records_lookup.
Qed.

Lemma reverse_middle {A : Type} (l : list A) (k : nat) (x : A) :
  l !! k = Some x ->
  reverse l = reverse (drop (S k) l) ++ x :: reverse (take k l) /\
  length (reverse (take k l)) = k.
Proof.
  intros Hk. split.
  - rewrite <- (take_drop_middle l k x Hk) at 1.
    by rewrite reverse_app, reverse_cons, <- app_assoc.
  - rewrite length_reverse, length_take. apply lookup_lt_Some in Hk. lia.
Qed.

(** X17. Edge ids are insertion indices.  In a built graph the edge made
    by the [k]-th call of [add_edge] (from 0) has id [k]: [dst_node] returns
    that call's destination and [next_edge] the newest earlier insertion
    with the same source; [first_edge] of a node is the newest insertion
    leaving it.  A record past the insertions still is the default edge,
    and an id past the arena throws. *)
Theorem edge_ids_are_insertion_indices (max_nodes max_edges n : Z) (ps : list (Z * Z))
    (g : graph_raw) :
  0 <= n -> 0 <= max_nodes < size_t_modulus -> 0 <= max_edges < size_t_modulus ->
  Forall (fun p => 0 <= p.1) ps ->
  build max_nodes max_edges n ps = Ok g ->
  (forall k s d, ps !! k = Some (s, d) ->
     dst_node g (edge_id (Z.of_nat k)) = Ok (node_id d) /\
     next_edge g (edge_id (Z.of_nat k)) = Ok (newest (reverse (take k ps)) s)) /\
  (forall x, 0 <= x < max_nodes ->
     first_edge g (node_id x) = Ok (newest (reverse ps) x)) /\
  (forall j, Z.of_nat (length ps) <= j < max_edges ->
     get_edge (edges g) (edge_id j) = Ok edge_default) /\
  (forall j, max_edges <= j -> get_edge (edges g) (edge_id j) = Fail out_of_range).
Proof.
  intros Hn Hmn Hme Hps Hbuild.
  apply build_Ok_layout in Hbuild as (Hle & Hint & Hsrc & Hroom & ->); try done.
  split_and!.
  - intros k s d Hk. destruct (reverse_middle ps k (s, d) Hk) as [-> Hlen].
    pose proof (get_edge_layout max_nodes max_edges n (reverse (drop (S k) ps)) (s, d)
                  (reverse (take k ps))) as Hget.
    rewrite Hlen in Hget. unfold dst_node, next_edge. rewrite Hget. done.
  - intros x Hx. unfold first_edge. simpl.
    rewrite (array_at_Ok _ _ _ (layout_nodes_lookup max_nodes n (reverse ps) x
                                  ltac:(lia) Hx)). done.
  - intros j Hj. unfold get_edge, array_at. simpl.
    rewrite lookup_app_r by (rewrite records_length, length_reverse; lia).
    rewrite lookup_replicate_2; [done|]. rewrite records_length, length_reverse. lia.
  - intros j Hj. unfold get_edge, array_at. simpl.
    rewrite lookup_ge_None_2; [done|].
    rewrite length_app, records_length, length_replicate, length_reverse. lia.
Qed.

(* ----------------------------------------------------------------- *)
(** ** print *)

Lemma print_edges_layout (max_nodes max_edges n i : Z) (older : list (Z * Z)) :
  forall (newer : list (Z * Z)) (walk : nat) (out : list out_item),
  (length older < walk)%nat ->
  print_edges walk (edges (layout max_nodes max_edges n (newer ++ older)))
    (newest older i) out =
    (out ++ flat_map print_edge (adj_ix older i), Ok tt).
Proof.
  induction older as [|p older IH]; intros newer walk out Hwalk.
  - cbn [newest adj_ix flat_map]. rewrite !app_nil_r. by destruct walk.
  - cbn [newest adj_ix]. destruct (decide (p.1 = i)) as [Hp|Hp].
    + destruct walk as [|walk]; [simpl in Hwalk; lia|]. cbn [print_edges].
      rewrite get_edge_layout. cbn [get_dst_node get_next_edge value id node_id edge_id].
      rewrite Hp. replace (newer ++ p :: older) with ((newer ++ [p]) ++ older)
        by (by rewrite <- app_assoc).
      rewrite IH by (simpl in Hwalk; lia). simpl. by rewrite <- app_assoc.
    + replace (newer ++ p :: older) with ((newer ++ [p]) ++ older)
        by (by rewrite <- app_assoc).
      rewrite IH by (simpl in Hwalk; lia). done.
Qed.

Lemma print_nodes_layout (max_nodes max_edges n : Z) (hist : list (Z * Z))
    (remaining : nat) :
  forall (pos : nat) (out : list out_item),
  0 <= n <= max_nodes -> Z.of_nat (length hist) <= max_edges ->
  Z.of_nat pos + Z.of_nat remaining <= n ->
  print_nodes remaining pos (layout max_nodes max_edges n hist) out =
    (out ++ flat_map (print_line hist) (seqZ (Z.of_nat pos) (Z.of_nat remaining)), Ok tt).
Proof.
  induction remaining as [|remaining IH]; intros pos out Hn Hroom Hpos.
  - simpl. by rewrite app_nil_r.
  - cbn [print_nodes].
    pose proof (layout_nodes_lookup max_nodes n hist (Z.of_nat pos) Hn ltac:(lia)) as Hnode.
    rewrite Nat2Z.id in Hnode. rewrite decide_True in Hnode by lia.
    cbn [nodes layout]. rewrite Hnode. cbn [get_id get_edge_begin value id node_id].
    pose proof (print_edges_layout max_nodes max_edges n (Z.of_nat pos) hist []) as Hedges.
    cbn [app] in Hedges. rewrite Hedges.
    2:{ cbn [edges edge_memory layout].
        rewrite length_app, records_length, length_replicate. lia. }
    rewrite IH by lia. rewrite (seqZ_cons (Z.of_nat pos)) by lia. cbn [flat_map].
    unfold print_line at 2.
    replace (Z.succ (Z.of_nat pos)) with (Z.of_nat (S pos)) by lia.
    replace (Z.pred (Z.of_nat (S remaining))) with (Z.of_nat remaining) by lia.
    f_equal. by rewrite <- !app_assoc.
Qed.

(** X18. What [print] writes for a built graph: for each node [0 .. n-1]
    in order one line [i -> ] followed by [d (k) ] for every edge leaving
    [i], newest first, [d] its destination and [k] its id (its insertion
    index), and a newline; it never throws on such a graph. *)
Theorem print_built_graph (max_nodes max_edges n : Z) (ps : list (Z * Z))
    (g : graph_raw) :
  0 <= n -> 0 <= max_nodes < size_t_modulus -> 0 <= max_edges < size_t_modulus ->
  Forall (fun p => 0 <= p.1) ps ->
  build max_nodes max_edges n ps = Ok g ->
  print g = (flat_map (print_line (reverse ps)) (seqZ 0 n), Ok tt).
Proof.
  intros Hn Hmn Hme Hps Hbuild.
  apply build_Ok_layout in Hbuild as (Hle & Hint & Hsrc & Hroom & ->); try done.
  unfold print. cbn [used_nodes layout].
  rewrite (print_nodes_layout max_nodes max_edges n (reverse ps) (Z.to_nat n) 0 []);
    try lia.
  - simpl. by rewrite Z2Nat.id by lia.
  - rewrite length_reverse. lia.
Qed.

(* ----------------------------------------------------------------- *)
(** ** Endpoints outside the node array *)

Lemma read_int_range (sc : bool) (text : string_view) :
  0 <= (read_int sc text).1 < size_t_modulus.
Proof.
  destruct (read_int_split sc text) as (token & sep & rest & _ & _ & _ & _ & _ & ->).
  simpl. rewrite view_to_int_accumulate. apply Z.mod_pos_bound. by vm_compute.
Qed.

Lemma read_pairs_range (sc : bool) (fuel : nat) :
  forall text, Forall (fun p => 0 <= p.1 /\ 0 <= p.2) (read_pairs sc fuel text).
Proof.
  induction fuel as [|fuel IH]; intros [|c text]; try by constructor.
  rewrite read_pairs_step by done. constructor; [|apply IH].
  pose proof (read_int_range sc (c :: text)).
  pose proof (read_int_range sc (read_int sc (c :: text)).2). cbn [fst snd]. lia.
Qed.

Lemma parsed_pairs_range (sc : bool) (input : string_view) :
  Forall (fun p => 0 <= p.1 /\ 0 <= p.2) (parsed_pairs sc input).
Proof. unfold parsed_pairs. destruct (read_int sc input). apply read_pairs_range. Qed.

Lemma add_edge_node_id_outcome (g : graph_raw) (s : Z) (dst : node_id_t) :
  completed (add_edge g (node_id s) dst) = Fail out_of_range \/
  exists g', completed (add_edge g (node_id s) dst) = Ok g' /\
    length (nodes g') = length (nodes g).
Proof.
  unfold completed, add_edge, alloc_edge, array_at. simpl.
  destruct (nodes g !! Z.to_nat s); [|by left].
  destruct (edge_memory (edges g) !! _); simpl; [right | by left].
  eexists. split; [done|]. simpl. by rewrite length_insert.
Qed.

Lemma insert_all_rejects (ps : list (Z * Z)) :
  forall g, Forall (fun p => 0 <= p.1) ps ->
  Exists (fun p => Z.of_nat (length (nodes g)) <= p.1) ps ->
  insert_all g ps = Fail out_of_range.
Proof.
  induction ps as [|[s d] ps IH]; intros g Hps Hbad; [by inversion Hbad|].
  inversion Hps as [|? ? Hs Hps']; subst. simpl in Hs. cbn [insert_all fst snd].
  destruct (decide (Z.of_nat (length (nodes g)) <= s)) as [Hout|Hin].
  - by rewrite add_edge_source_outside.
  - inversion Hbad as [? ? Hhead|? ? Htail]; subst; [simpl in Hhead; lia|].
    destruct (add_edge_node_id_outcome g s (node_id d)) as [->|(g' & -> & Hlen)]; [done|].
    cbn [bind]. apply IH; [done|]. by rewrite Hlen.
Qed.

Lemma insert_all_outcome (ps : list (Z * Z)) :
  forall g, insert_all g ps = Fail out_of_range \/ exists g', insert_all g ps = Ok g'.
Proof.
  induction ps as [|[s d] ps IH]; intros g; [right; by exists g|].
  cbn [insert_all fst snd].
  destruct (add_edge_node_id_outcome g s (node_id d)) as [->|(g' & -> & _)]; [by left|].
  cbn [bind]. apply IH.
Qed.

(** X19. An endpoint at or past the node count is rejected, never
    miscounted: read as a source it makes [add_edge] throw in
    [read_graph]; read as a destination it is stored unchecked by
    [read_graph] and makes [add_edge] throw in [double_up_edges], where it
    becomes a source.  Either way the evaluation ends in [out_of_range]. *)
Theorem endpoint_outside_rejected (sc : bool) (input : string_view) (capacity : Z) :
  max_graph_edges input = Ok capacity ->
  max_graph_nodes sc input <= INT_MAX ->
  Exists (fun p => max_graph_nodes sc input <= p.1 \/ max_graph_nodes sc input <= p.2)
         (parsed_pairs sc input) ->
  connected_subgraphs sc input = Fail out_of_range.
Proof.
  intros Hcap Hint Hbad.
  pose proof INT_MAX_fits as Hfits.
  pose proof (parsed_pairs_range sc input) as Hrange.
  assert (HN : 0 <= max_graph_nodes sc input < size_t_modulus).
  { unfold max_graph_nodes. rewrite read_int_v_fst. apply read_int_range. }
  assert (Hcap' : 0 <= capacity <= INT_MAX).
  { apply count_words_Ok in Hcap as [-> ?]. lia. }
  unfold connected_subgraphs. rewrite Hcap. cbn [bind]. rewrite read_graph_build_eq.
  set (N := max_graph_nodes sc input) in *. set (ps := parsed_pairs sc input) in *.
  assert (Hnonneg : Forall (fun p => 0 <= p.1) ps).
  { eapply Forall_impl; [exact Hrange|]. intros p Hp. simpl in Hp. lia. }
  destruct (build N capacity N ps) as [g|e] eqn:Hbuild.
  - cbn [bind].
    destruct (build_inv N capacity N ps g) as (Hu & Hinv); try done; try lia.
    apply build_Ok_layout in Hbuild as (_ & _ & Hsrc & _ & _); try done; try lia.
    rewrite (double_up_edges_insert_all N capacity g (reverse ps) Hinv).
    unfold get_num_nodes. rewrite Hu, graph_raw_new_layout by lia. cbn [bind].
    rewrite insert_all_rejects; [done | |].
    + apply Forall_forall. intros [a b] Hab. simpl.
      apply elem_of_doubled_from in Hab; [|lia]. rewrite !elem_of_reverse in Hab.
      pose proof (proj1 (Forall_forall _ _) Hrange) as Hin.
      destruct Hab as [[H _]|[H _]]; apply Hin in H; simpl in H; lia.
    + apply Exists_exists in Hbad as ([s d] & Hp & Hout). simpl in Hout.
      pose proof (proj1 (Forall_forall _ _) Hsrc _ Hp) as Hs.
      pose proof (proj1 (Forall_forall _ _) Hrange _ Hp) as Hsd. simpl in Hs, Hsd.
      apply Exists_exists. exists (d, s). split.
      * apply elem_of_doubled_from; [lia|]. right. rewrite elem_of_reverse.
        split; [done | lia].
      * cbn [nodes layout]. rewrite layout_nodes_length by lia. simpl. lia.
  - unfold build in Hbuild. rewrite graph_raw_new_layout in Hbuild by lia.
    cbn [bind] in Hbuild.
    destruct (insert_all_outcome ps (layout N capacity N [])) as [Hf|(g' & Hg')];
      [|congruence].
    rewrite Hf in Hbuild. by injection Hbuild as <-.
Qed.

(* ----------------------------------------------------------------- *)
(** ** Bounds on the count *)

Lemma range_length (l : list Z) (N : Z) :
  0 <= N -> NoDup l -> (forall x, x ∈ l -> 0 <= x < N) -> Z.of_nat (length l) <= N.
Proof.
  intros HN Hnd Hin.
  assert (Hsub : l ⊆+ seqZ 0 N).
  { apply NoDup_submseteq; [done|]. intros x Hx. apply elem_of_seqZ. specialize (Hin x Hx). lia. }
  apply submseteq_length in Hsub. rewrite length_seqZ in Hsub. lia.
Qed.

Lemma connected_self_loops (ps : list (Z * Z)) (x y : Z) :
  Forall (fun p => p.1 = p.2) ps -> connected ps x y -> x = y.
Proof.
  intros Hps. induction 1 as [x y H | x | x y _ IH | x y z _ IH1 _ IH2]; try congruence.
  by apply (proj1 (Forall_forall _ _) Hps) in H.
Qed.

Lemma connected_more_edges (ps ps' : list (Z * Z)) (x y : Z) :
  (forall p, p ∈ ps -> p ∈ ps' \/ swap_pair p ∈ ps') ->
  connected ps x y -> connected ps' x y.
Proof.
  intros Hsub. induction 1 as [x y H | x | x y _ IH | x y z _ IH1 _ IH2].
  - destruct (Hsub _ H) as [H'|H']; [by apply rst_step | by apply rst_sym, rst_step].
  - apply rst_refl.
  - by apply rst_sym.
  - by eapply rst_trans.
Qed.

(** X20. The count lies between the obvious bounds: it never exceeds the
    node count, it is positive when there is a node, and it is the node
    count itself when the text has no edges or only self-loops. *)
Theorem connected_subgraphs_bounds (sc : bool) (input : string_view) (N : Z)
    (ps : list (Z * Z)) :
  well_formed input N ps ->
  exists k, connected_subgraphs sc input = Ok k /\
    k <= N /\ (0 < N -> 0 < k) /\ (Forall (fun p => p.1 = p.2) ps -> k = N).
Proof.
  intros Hwf.
  destruct (pipeline_spec sc input N ps Hwf)
    as (g & g2 & k & m & _ & _ & _ & _ & _ & _ & _ & _ & _ & Hscan & Hcount & Hrun).
  pose proof (si_color _ _ _ _ Hscan) as Hk.
  destruct Hcount as (reps & Hnd & Hlen & Hr & Hcov & Hapart).
  exists k. split_and!; try done.
  - rewrite <- Hlen. apply range_length; [lia | done | done].
  - intros HN. destruct (Hcov 0) as (r & Hin & _); [lia|].
    destruct reps; [by apply elem_of_nil in Hin | simpl in Hlen; lia].
  - intros Hloops.
    assert (Hsub : seqZ 0 N ⊆+ reps).
    { apply NoDup_submseteq; [apply NoDup_seqZ|]. intros x Hx. apply elem_of_seqZ in Hx.
      destruct (Hcov x) as (r & Hin & Hc); [lia|].
      by rewrite (connected_self_loops ps x r Hloops Hc). }
    apply submseteq_length in Hsub. rewrite length_seqZ in Hsub.
    pose proof (range_length reps N ltac:(lia) Hnd Hr). lia.
Qed.

(** X21. More edges never give more components: if every edge of one
    text is an edge of another, in either direction, the second count is
    at most the first.  Listing the same edges in another order, another
    direction or several times therefore gives the same count. *)
Theorem more_edges_fewer_components (sc : bool) (input input' : string_view) (N : Z)
    (ps ps' : list (Z * Z)) :
  well_formed input N ps -> well_formed input' N ps' ->
  (forall p, p ∈ ps -> p ∈ ps' \/ swap_pair p ∈ ps') ->
  exists k k', connected_subgraphs sc input = Ok k /\
    connected_subgraphs sc input' = Ok k' /\ k' <= k.
Proof.
  intros Hwf Hwf' Hsub.
  destruct (pipeline_spec sc input N ps Hwf)
    as (g & g2 & k & m & _ & _ & _ & _ & _ & _ & _ & _ & _ & _ & Hcount & Hrun).
  destruct (pipeline_spec sc input' N ps' Hwf')
    as (g' & g2' & k' & m' & _ & _ & _ & _ & _ & _ & _ & _ & _ & _ & Hcount' & Hrun').
  exists k, k'. split_and!; try done.
  destruct Hcount as (reps & Hnd & <- & Hr & Hcov & Hapart).
  destruct Hcount' as (reps' & Hnd' & <- & Hr' & Hcov' & Hapart').
  apply inj_le. apply (representatives_length (connected ps')); [done | |].
  - intros x Hx. destruct (Hcov x (Hr' x Hx)) as (r & Hin & Hc).
    exists r. split; [done|]. by eapply connected_more_edges.
  - intros x x' y Hx Hx' Hxy Hx'y. apply Hapart'; [done | done |].
    eapply rst_trans; [done | by apply rst_sym].
Qed.

(* ----------------------------------------------------------------- *)
(** ** Counting without doubling *)

Section DirectedScan.

Variables (max_nodes max_edges : Z) (g : graph_raw) (hist : list (Z * Z)).

Hypothesis Hinv : graph_inv max_nodes max_edges g hist.
Hypothesis Hdst : Forall (fun p => 0 <= p.2 < max_nodes) hist.

Lemma count_connected_loop_covered (remaining : nat) :
  forall i m color reps k m',
    scan_inv max_nodes i m color -> 0 <= i ->
    i + Z.of_nat remaining = used_nodes g ->
    covered hist m reps -> Z.of_nat (length reps) = color ->
    count_connected_loop remaining i g m color = Ok (k, m') ->
    exists reps', covered hist m' reps' /\ Z.of_nat (length reps') = k.
Proof.
  pose proof (inv_used _ _ _ _ Hinv) as Hused.
  pose proof (inv_used_int _ _ _ _ Hinv) as Hint.
  pose proof (inv_max_nodes _ _ _ _ Hinv) as Hmax.
  induction remaining as [|remaining IH]; intros i m color reps k m' Hscan Hi Hrem Hcov Hlen Hrun.
  - simpl in Hrun. injection Hrun as <- <-. by exists reps.
  - pose proof (si_length _ _ _ _ Hscan) as Hvl.
    pose proof (si_color _ _ _ _ Hscan) as Hcolor.
    cbn [count_connected_loop bind value id node_id] in Hrun.
    unfold size_add in Hrun. rewrite (wrap_small (i + 1)) in Hrun by lia.
    destruct (label_dichotomy m i) as [Hm|Hu]; [lia | lia | |].
    + pose proof Hm as (_ & v & Hv & Hne).
      rewrite (array_at_Ok _ _ _ Hv) in Hrun. cbn [bind] in Hrun.
      rewrite (proj2 (Z.eqb_neq v (-1))) in Hrun by done.
      apply (IH (i + 1) m color reps k m'); try done; try lia.
      by apply scan_inv_skip.
    + pose proof Hu as (_ & Hv).
      rewrite (array_at_Ok _ _ _ Hv) in Hrun. cbn [bind] in Hrun.
      rewrite Z.eqb_refl in Hrun.
      destruct (mark_connected_spec max_nodes max_edges g hist Hinv Hdst color
                  (S (length (visited m))) ltac:(lia) i m) as (m1 & Hm1 & Hfrom).
      * lia.
      * done.
      * left. pose proof (count_unmarked_bound m). lia.
      * rewrite Hm1 in Hrun. cbn [bind] in Hrun.
        rewrite int_incr_Ok in Hrun by lia. cbn [bind] in Hrun.
        apply (IH (i + 1) m1 (color + 1) (i :: reps) k m'); try done; try lia.
        -- by eapply scan_inv_claim.
        -- intros x Hx. destruct (label_dichotomy m x) as [Hmx|Hux].
           ++ by destruct Hx.
           ++ rewrite <- (mf_length _ _ _ _ Hfrom). by apply marked_in_range.
           ++ destruct (Hcov x Hmx) as (r & Hr & Hc).
              exists r. split; [by apply elem_of_cons; right | done].
           ++ exists i. split; [by apply elem_of_cons; left|].
              apply rst_sym, reach_connected. by apply (mf_reach _ _ _ _ Hfrom).
        -- simpl. lia.
Qed.

End DirectedScan.

(** X22. [count_connected] on a graph that was not doubled: it still
    returns, its result is at most the node count and never below the
    number of connected components; it is [double_up_edges] that makes
    the count exact. *)
Theorem count_connected_without_doubling (max_nodes max_edges n : Z)
    (ps : list (Z * Z)) (g : graph_raw) :
  0 <= n <= max_nodes -> n <= INT_MAX -> max_nodes < size_t_modulus ->
  0 <= max_edges < size_t_modulus ->
  endpoints_below n ps ->
  build max_nodes max_edges n ps = Ok g ->
  exists k, count_connected max_nodes g = Ok k /\ k <= n /\
    forall c, component_count n ps c -> c <= k.
Proof.
  intros Hn Hint Hmn Hme Hps Hbuild.
  pose proof (proj1 (Forall_forall _ _) Hps) as Hin.
  destruct (build_inv max_nodes max_edges n ps g Hn Hint Hmn Hme) as (Hu & Hinv); [|done|].
  { apply Forall_forall. intros p Hp. apply Hin in Hp. lia. }
  assert (Hdst : Forall (fun p => 0 <= p.2 < max_nodes) (reverse ps)).
  { apply Forall_forall. intros p Hp. rewrite elem_of_reverse in Hp. apply Hin in Hp. lia. }
  destruct (count_connected_run_spec max_nodes max_edges g (reverse ps) Hinv Hdst)
    as (k & m & Hrun & Hscan & _).
  rewrite Hu in Hscan.
  exists k. split_and!.
  - unfold count_connected. by rewrite Hrun.
  - pose proof (si_color _ _ _ _ Hscan). lia.
  - intros c (reps & Hnd & <- & Hr & Hcov & Hapart).
    destruct (count_connected_loop_covered max_nodes max_edges g (reverse ps) Hinv Hdst
                (Z.to_nat (used_nodes g)) 0 (mk_marking (visited_init max_nodes) []) 0 []
                k m) as (reps' & Hcov' & <-); try done; try lia.
    + apply scan_inv_init.
    + intros x Hx. by apply visited_init_unmarked in Hx.
    + apply inj_le. apply (representatives_length (connected ps)); [done | |].
      * intros x Hx. destruct (Hcov' x) as (r & Hr' & Hc).
        { apply (si_done _ _ _ _ Hscan). by apply Hr. }
        exists r. split; [done|].
        eapply connected_more_edges; [|exact Hc].
        intros p Hp. left. by rewrite elem_of_reverse in Hp.
      * intros x x' y Hx Hx' Hxy Hx'y. apply Hapart; [done | done |].
        eapply rst_trans; [done | by apply rst_sym].
Qed.

(* ----------------------------------------------------------------- *)
(** ** The room that doubling needs *)

Lemma insert_all_layout_overflow (max_nodes max_edges n : Z) (ps : list (Z * Z)) :
  forall hist,
  0 <= n <= max_nodes -> 0 <= max_edges < size_t_modulus ->
  Forall (fun p => 0 <= p.1 < max_nodes) ps ->
  Z.of_nat (length hist) <= max_edges ->
  max_edges < Z.of_nat (length hist) + Z.of_nat (length ps) ->
  insert_all (layout max_nodes max_edges n hist) ps = Fail out_of_range.
Proof.
  induction ps as [|[s d] ps IH]; intros hist Hn Hme Hps Hhist Hover;
    [simpl in Hover; lia|].
  inversion Hps as [|? ? Hs Hps']; subst. simpl in Hs, Hover.
  cbn [insert_all fst snd]. unfold completed.
  destruct (decide (Z.of_nat (length hist) < max_edges)) as [Hroom|Hfull].
  - rewrite add_edge_layout by lia. cbn [bind fst snd].
    apply IH; try done; simpl; lia.
  - rewrite add_edge_arena_full; [done | |].
    + cbn [nodes layout]. rewrite layout_nodes_length; lia.
    + cbn [edges edge_memory next_available layout].
      rewrite length_app, records_length, length_replicate. lia.
Qed.

(** X23. Doubling needs two records per edge.  For a built graph with
    [M] edges between used nodes, [double_up_edges] returns exactly when
    the arena of the graph type has at least [2 * M] records, and throws
    [out_of_range] otherwise: an arena of [M] records, enough for
    [read_graph], is too small for the doubled graph as soon as there is
    an edge. *)
Theorem double_up_edges_needs_two_records (max_nodes max_edges n : Z)
    (ps : list (Z * Z)) (g : graph_raw) :
  0 <= n <= max_nodes -> n <= INT_MAX -> max_nodes < size_t_modulus ->
  0 <= max_edges < size_t_modulus ->
  endpoints_below n ps ->
  build max_nodes max_edges n ps = Ok g ->
  double_up_edges max_nodes max_edges g =
    if decide (2 * Z.of_nat (length ps) <= max_edges)
    then Ok (layout max_nodes max_edges n
               (reverse (doubled_from (reverse ps) 0 (Z.to_nat n))))
    else Fail out_of_range.
Proof.
  intros Hn Hint Hmn Hme Hps Hbuild.
  pose proof (proj1 (Forall_forall _ _) Hps) as Hin.
  destruct (build_inv max_nodes max_edges n ps g Hn Hint Hmn Hme) as (Hu & Hinv); [|done|].
  { apply Forall_forall. intros p Hp. apply Hin in Hp. lia. }
  rewrite (double_up_edges_insert_all max_nodes max_edges g (reverse ps) Hinv).
  unfold get_num_nodes. rewrite Hu, graph_raw_new_layout by lia. cbn [bind].
  assert (Hsrc : Forall (fun p => 0 <= p.1 < n) (reverse ps)).
  { apply Forall_forall. intros p Hp. rewrite elem_of_reverse in Hp. apply Hin in Hp. tauto. }
  assert (Hsrc2 : Forall (fun p => 0 <= p.1 < max_nodes)
                    (doubled_from (reverse ps) 0 (Z.to_nat n))).
  { apply Forall_forall. intros [a b] Hab. simpl.
    apply elem_of_doubled_from in Hab; [|lia]. rewrite !elem_of_reverse in Hab.
    destruct Hab as [[H _]|[H _]]; apply Hin in H; simpl in H; lia. }
  pose proof (doubled_from_length_all _ n Hsrc) as Hlen. rewrite length_reverse in Hlen.
  destruct (decide _) as [Hroom|Hover].
  - rewrite insert_all_layout; try done; try lia.
    + by rewrite app_nil_r.
    + rewrite Hlen. simpl. lia.
  - apply insert_all_layout_overflow; try done; try lia; rewrite ?Hlen; simpl; lia.
Qed.

(* ----------------------------------------------------------------- *)
(** ** The compile-time tests of text_parsing.h *)

(** X24. The [static_assert]s of [text_parsing.h] hold in the embedding,
    for either signedness of plain [char]: the scanner passes the tests
    that the header itself compiles. *)
Theorem text_parsing_static_asserts (sc : bool) :
  test_read (text " this is a test") (text "") read_non_whitespace = true /\
  test_read (text "this is a test") (text "this") read_non_whitespace = true /\
  test_rest (text "this is a test") (text " is a test") read_non_whitespace = true /\
  test_read (text "") (text "") read_non_whitespace = true /\
  test_rest (text "") (text "") read_non_whitespace = true /\
  test_read (text "is a test") (text "") read_whitespace = true /\
  test_read (text "  is a test") (text "  ") read_whitespace = true /\
  test_rest (text "  is a test") (text "is a test") read_whitespace = true /\
  test_read (text "") (text "") read_whitespace = true /\
  test_rest (text "") (text "") read_whitespace = true /\
  view_to_int sc (text "1234") = 1234 /\
  view_to_int sc (text "") = 0 /\
  (read_int sc (text "42 43 44")).1 = 42 /\
  (read_int sc (text "42 43 44")).2 = text "43 44" /\
  read_int_v sc (text "42 43 44") = 42 /\
  count_words (text "this is a test") = Ok 4.
Proof. destruct sc; repeat split; by vm_compute. Qed.

(* ================================================================= *)
(** * The further properties on concrete inputs *)

Lemma test_read_rest_rebuild_input_witness :
  text "this is a test" = text "this" ++ text " is a test" /\
  Forall (fun c => negb (is_whitespace c) = true) (text "this") /\
  starts_outside (fun c => negb (is_whitespace c)) (text " is a test").
Proof.
  apply (test_read_rest_rebuild_input (fun c => negb (is_whitespace c))
           (text "this is a test") (text "this") (text " is a test")); reflexivity.
Defined.

Lemma read_int_leading_whitespace_witness :
  read_int true (text "  7" ) = (0, text "7") /\ max_graph_nodes true (text "  7") = 0.
Proof.
  apply (read_int_leading_whitespace true (text "  ") (text "7")).
  - repeat constructor.
  - reflexivity.
  - left. discriminate.
Defined.

Lemma view_to_int_digits_witness :
  view_to_int true (text "1234") = decimal (text "1234") mod size_t_modulus /\
  0 <= view_to_int true (text "1234") < size_t_modulus /\
  (decimal (text "1234") < size_t_modulus ->
   view_to_int true (text "1234") = decimal (text "1234")).
Proof. apply (view_to_int_digits true (text "1234")). repeat constructor. Defined.

Lemma count_words_bounds_witness :
  exists n, count_words (text "this is a test") = Ok n /\ 0 <= n /\
    2 * n <= Z.of_nat (length (text "this is a test")) + 1.
Proof. apply (count_words_bounds (text "this is a test")). sizes. Defined.

Lemma count_words_app_witness :
  count_words (text "this" ++ text " " ++ text "is a test") = Ok (1 + 3).
Proof.
  apply (count_words_app (text "this") (text " ") (text "is a test") 1 3).
  - discriminate.
  - repeat constructor.
  - reflexivity.
  - reflexivity.
  - sizes.
Defined.

Lemma read_graph_dangling_source_witness :
  parsed_pairs true (text "3" ++ text " 0 1 2") = [(0, 1)] ++ [(2, 0)] /\
  read_graph 3 4 true (text "3" ++ text " 0 1 2") = build 3 4 3 ([(0, 1)] ++ [(2, 0)]).
Proof.
  apply (read_graph_dangling_source 3 4 true (text "3") (text " 0 1 2") 3 [(0, 1)] 2).
  - is_number.
  - apply (dangling_pair _ (text " ") (text "0") (text " ") (text "1") (text " 2") 0 1);
      [reflexivity | discriminate | repeat constructor | is_number
       | discriminate | repeat constructor | is_number |].
    apply (dangling_end (text " ") (text "2") (text "") 2);
      [discriminate | repeat constructor | is_number | constructor].
Defined.

Lemma arena_holds_every_text_witness :
  Z.of_nat (length (parsed_pairs true (text "4  0 1  2 3"))) <= 5 /\
  (starts_outside is_whitespace (text "4  0 1  2 3") ->
   2 * Z.of_nat (length (parsed_pairs true (text "4  0 1  2 3"))) <= 5).
Proof. apply (arena_holds_every_text true (text "4  0 1  2 3") 5). reflexivity. Defined.

Lemma connected_subgraphs_any_text_witness :
  exists k, connected_subgraphs true (text "3 0 1 2") = Ok k /\
    component_count (max_graph_nodes true (text "3 0 1 2"))
      (parsed_pairs true (text "3 0 1 2")) k.
Proof.
  apply (connected_subgraphs_any_text true (text "3 0 1 2") 4).
  - reflexivity.
  - change (max_graph_nodes true (text "3 0 1 2")) with 3. sizes.
  - change (max_graph_nodes true (text "3 0 1 2")) with 3.
    change (parsed_pairs true (text "3 0 1 2")) with [(0, 1); (2, 0)].
    repeat constructor; simpl; lia.
Defined.

Lemma graph_raw_new_defined_witness :
  graph_raw_new 2 1 3 = Fail undefined_behaviour /\
  graph_raw_new 3 1 2 =
    Ok (graph 2 [node_of 0; node_of 1; node_default] (edge_storage [edge_default] 0)).
Proof.
  split.
  - rewrite (graph_raw_new_defined 2 1 3) by lia. reflexivity.
  - rewrite (graph_raw_new_defined 3 1 2) by lia. reflexivity.
Defined.

Lemma add_edge_throw_links_nothing_witness :
  add_edge (graph 1 [node_of 0] (edge_storage [] 0)) (node_id 0) (node_id 0) =
    (graph 1 [node_of 0] (edge_storage [] 1), Fail out_of_range) /\
  used_nodes (graph 1 [node_of 0] (edge_storage [] 1)) =
    used_nodes (graph 1 [node_of 0] (edge_storage [] 0)) /\
  nodes (graph 1 [node_of 0] (edge_storage [] 1)) =
    nodes (graph 1 [node_of 0] (edge_storage [] 0)) /\
  edge_memory (edges (graph 1 [node_of 0] (edge_storage [] 1))) =
    edge_memory (edges (graph 1 [node_of 0] (edge_storage [] 0))) /\
  (forall x, fan_out (graph 1 [node_of 0] (edge_storage [] 1)) x =
             fan_out (graph 1 [node_of 0] (edge_storage [] 0)) x) /\
  out_of_range = (if has_value (node_id 0) then out_of_range else bad_optional_access).
Proof.
  split; [reflexivity|].
  apply (add_edge_throw_links_nothing (graph 1 [node_of 0] (edge_storage [] 0))
           (graph 1 [node_of 0] (edge_storage [] 1)) (node_id 0) (node_id 0) out_of_range).
  reflexivity.
Defined.

Lemma build_characterization_witness :
  build 2 2 2 [(0, 1); (0, 0)] = Ok (layout 2 2 2 (reverse [(0, 1); (0, 0)])) <->
    2 <= 2 /\ 2 <= INT_MAX /\
    Forall (fun p => p.1 < 2) [(0, 1); (0, 0)] /\
    Z.of_nat (length [(0, 1); (0, 0)]) <= 2 /\
    layout 2 2 2 (reverse [(0, 1); (0, 0)]) = layout 2 2 2 (reverse [(0, 1); (0, 0)]).
Proof.
  apply (build_characterization 2 2 2 [(0, 1); (0, 0)]);
    [sizes | sizes | sizes | repeat constructor; simpl; lia].
Defined.

Lemma edge_ids_are_insertion_indices_witness :
  exists g, build 2 3 2 [(0, 1); (0, 0)] = Ok g /\
  (forall k s d, [(0, 1); (0, 0)] !! k = Some (s, d) ->
     dst_node g (edge_id (Z.of_nat k)) = Ok (node_id d) /\
     next_edge g (edge_id (Z.of_nat k)) =
       Ok (newest (reverse (take k [(0, 1); (0, 0)])) s)) /\
  (forall x, 0 <= x < 2 ->
     first_edge g (node_id x) = Ok (newest (reverse [(0, 1); (0, 0)]) x)) /\
  (forall j, Z.of_nat (length [(0, 1); (0, 0)]) <= j < 3 ->
     get_edge (edges g) (edge_id j) = Ok edge_default) /\
  (forall j, 3 <= j -> get_edge (edges g) (edge_id j) = Fail out_of_range).
Proof.
  eexists. split; [reflexivity|].
  apply (edge_ids_are_insertion_indices 2 3 2 [(0, 1); (0, 0)]);
    [sizes | sizes | sizes | repeat constructor; simpl; lia | reflexivity].
Defined.

Lemma print_built_graph_witness :
  exists g, build 2 3 2 [(0, 1); (0, 0)] = Ok g /\
    print g = (flat_map (print_line (reverse [(0, 1); (0, 0)])) (seqZ 0 2), Ok tt).
Proof.
  eexists. split; [reflexivity|].
  apply (print_built_graph 2 3 2 [(0, 1); (0, 0)]);
    [sizes | sizes | sizes | repeat constructor; simpl; lia | reflexivity].
Defined.

Lemma endpoint_outside_rejected_witness :
  connected_subgraphs true (text "2 0 5") = Fail out_of_range.
Proof.
  apply (endpoint_outside_rejected true (text "2 0 5") 3).
  - reflexivity.
  - change (max_graph_nodes true (text "2 0 5")) with 2. sizes.
  - change (max_graph_nodes true (text "2 0 5")) with 2.
    change (parsed_pairs true (text "2 0 5")) with [(0, 5)].
    constructor. simpl. lia.
Defined.

Lemma connected_subgraphs_bounds_witness :
  exists k, connected_subgraphs true (text "4  0 1  2 3") = Ok k /\
    k <= 4 /\ (0 < 4 -> 0 < k) /\
    (Forall (fun p => p.1 = p.2) [(0, 1); (2, 3)] -> k = 4).
Proof.
  apply (connected_subgraphs_bounds true (text "4  0 1  2 3") 4 [(0, 1); (2, 3)]).
  apply two_pairs_well_formed.
Defined.

Lemma more_edges_fewer_components_witness :
  exists k k', connected_subgraphs true (text "4  0 1  2 3") = Ok k /\
    connected_subgraphs true (text "4  1 0  3 2") = Ok k' /\ k' <= k.
Proof.
  apply (more_edges_fewer_components true _ _ 4 [(0, 1); (2, 3)]
           (swap_pair <$> [(0, 1); (2, 3)])).
  - apply two_pairs_well_formed.
  - apply two_pairs_reversed_well_formed.
  - intros p Hp. right. apply list_elem_of_fmap. exists p. split; [reflexivity | exact Hp].
Defined.

Lemma count_connected_without_doubling_witness :
  exists g, build 2 1 2 [(1, 0)] = Ok g /\
  exists k, count_connected 2 g = Ok k /\ k <= 2 /\
    forall c, component_count 2 [(1, 0)] c -> c <= k.
Proof.
  eexists. split; [reflexivity|].
  apply (count_connected_without_doubling 2 1 2 [(1, 0)]);
    [sizes | sizes | sizes | sizes | repeat constructor; simpl; lia | reflexivity].
Defined.

Lemma double_up_edges_needs_two_records_witness :
  exists g, build 2 1 2 [(1, 0)] = Ok g /\
    double_up_edges 2 1 g =
      if decide (2 * Z.of_nat (length [(1, 0)]) <= 1)
      then Ok (layout 2 1 2 (reverse (doubled_from (reverse [(1, 0)]) 0 (Z.to_nat 2))))
      else Fail out_of_range.
Proof.
  eexists. split; [reflexivity|].
  apply (double_up_edges_needs_two_records 2 1 2 [(1, 0)]);
    [sizes | sizes | sizes | sizes | repeat constructor; simpl; lia | reflexivity].
Defined.
